(** * go-ast-chroma: declaration locator and qualifier canonicalizer

    A shallow embedding of [allsymbols.go] (and of the older single-pass
    variant in [go_ast_parser.go]) together with the properties of the
    specification that can be stated over it.

    Go strings are byte sequences: they are modelled as [list ascii].
    Go [int] values (offsets, lines, counters) are modelled as [Z].
    Go maps are modelled as stdpp [gmap]s; the order in which [range]
    enumerates a map is not fixed by the language, so every place where the
    program ranges over a map takes the enumeration as an explicit
    argument that is only constrained to be a permutation of the entries. *)

From Stdlib Require Import ZArith Ascii String DecimalString DecimalZ DecimalPos.
From Stdlib Require Import Sorting.Sorted.
From stdpp Require Import gmap strings list fin_maps sorting.

Abbreviation str := (list ascii).

(** String literals of the Go source. *)
Definition lit (s : string) : str := list_ascii_of_string s.

Definition dot : ascii := "."%char.
Definition underscore : ascii := "_"%char.

(** ** The Go library functions the program calls *)

(** [strings.Contains]. *)
Fixpoint Contains (s substr : str) : bool :=
  if decide (substr `prefix_of` s) then true
  else match s with
       | [] => false
       | _ :: s' => Contains s' substr
       end.

(** [strings.ReplaceAll s old new]: every non-overlapping instance of [old],
    found from left to right, is replaced by [new].  [replace_scan] walks
    the text byte by byte; [skip] counts the bytes of a matched instance
    that remain to be dropped. *)
Fixpoint replace_scan (old new : str) (skip : nat) (s : str) : str :=
  match s with
  | [] => []
  | c :: s' =>
      match skip with
      | S k => replace_scan old new k s'
      | O =>
          if decide (old `prefix_of` s)
          then new ++ replace_scan old new (length old - 1) s'
          else c :: replace_scan old new 0 s'
      end
  end.

(** For an empty [old] Go inserts [new] before every UTF-8 sequence and at
    the end; the byte-wise version below agrees with it on ASCII text.  The
    program never reaches that case: [old] always ends with a dot. *)
Definition ReplaceAll (s old new : str) : str :=
  match old with
  | [] => new ++ flat_map (fun c => c :: new) s
  | _ :: _ => replace_scan old new 0 s
  end.

(** [strconv.Itoa], also the rendering of the [%d] verb. *)
Definition Itoa (i : Z) : str := lit (NilZero.string_of_int (Z.to_int i)).

(** [strings.Join]. *)
Fixpoint Join (elems : list str) (sep : str) : str :=
  match elems with
  | [] => []
  | [e] => e
  | e :: rest => e ++ sep ++ Join rest sep
  end.

(** ** Syntax trees ([go/ast]) and resolved symbols ([go/types]) *)

(** [*ast.Ident]: the position stands for the identity of the node, two
    occurrences of one name are two different keys of [Info.Uses]. *)
Record Ident := mkIdent { NamePos : Z; Name : str }.

(** [ast.ChanDir] is a bit set. *)
Definition SEND : Z := 1.
Definition RECV : Z := 2.

(** [ast.Field]; [Names] is nil for an anonymous parameter or result. *)
Record Field_ (N : Type) := mkField { Names : list Ident; Type_ : N }.
Arguments mkField {N} _ _.
Arguments Names {N} _.
Arguments Type_ {N} _.

(** The nodes of a declaration subtree.  The shapes [getTypeString]
    distinguishes have a constructor of their own; every other node kind
    (statements, calls, literals, ...) is an [OtherNode] carrying its Go
    type name, its position and its children in the order [ast.Walk]
    visits them.  [Nil] is the nil interface value.  A [*ast.FieldList]
    that may be nil is an [option]. *)
#[warnings="-register-all"]
Inductive Node :=
| Nil
| IdentNode (id : Ident)
| StarExpr (Star : Z) (X : Node)
| ArrayType (Lbrack : Z) (Len Elt : Node)
| MapType (Map : Z) (Key Value : Node)
| SelectorExpr (X : Node) (Sel : Ident)
| InterfaceType (Interface : Z) (Methods : list (Field_ Node))
| StructType (Struct : Z) (Fields : list (Field_ Node))
| ChanType (Begin : Z) (Dir : Z) (Value : Node)
| Ellipsis (EllipsisPos : Z) (Elt : Node)
| FuncType (Func : Z) (TypeParams Params Results : option (list (Field_ Node)))
| OtherNode (tag : str) (pos : Z) (children : list Node).

Abbreviation Field := (Field_ Node).

(** [types.Object]: only package names matter to the program. *)
Inductive Object :=
| PkgName (importedPath : str)
| OtherObject (kind : str).

(** The read-only part of [*types.Info] the program consults: the [Uses]
    map, and [TypeOf] already rendered with [Type.String()] ([None] when
    [TypeOf] returns nil). *)
Record Info := mkInfo {
  Uses : Ident -> option Object;
  TypeOf : Node -> option str
}.

(** ** The Qualifier Canonicalizer ([applyQualifierReplacements]) *)

(** The nodes [ast.Inspect] hands to its callback, in depth-first order
    (the callback of the program always returns true, so nothing is
    pruned).  Field lists, fields and comment groups are nodes too, but
    they are never selectors and the callback ignores them: only their
    identifiers and types are listed. *)
Fixpoint Walk (n : Node) : list Node :=
  let walkFields := fun fs : list Field =>
    flat_map (fun f => map IdentNode (Names f) ++ Walk (Type_ f)) fs in
  let walkFieldList := fun fl : option (list Field) =>
    match fl with Some fs => walkFields fs | None => [] end in
  match n with
  | Nil => []
  | IdentNode _ => [n]
  | StarExpr _ X => n :: Walk X
  | ArrayType _ Len Elt => n :: Walk Len ++ Walk Elt
  | MapType _ Key Value => n :: Walk Key ++ Walk Value
  | SelectorExpr X Sel => n :: Walk X ++ [IdentNode Sel]
  | InterfaceType _ Methods => n :: walkFields Methods
  | StructType _ Fields => n :: walkFields Fields
  | ChanType _ _ Value => n :: Walk Value
  | Ellipsis _ Elt => n :: Walk Elt
  | FuncType _ TypeParams Params Results =>
      n :: walkFieldList TypeParams ++ walkFieldList Params ++ walkFieldList Results
  | OtherNode _ _ children => n :: flat_map Walk children
  end.

(** The callback of the first pass: a selector whose base is an identifier
    that resolves to a package name records [alias -> import path], unless
    the two are spelled alike. *)
Definition recordQualifier (info : Info) (replacements : gmap str str)
    (innerNode : Node) : gmap str str :=
  match innerNode with
  | SelectorExpr (IdentNode ident) _ =>
      match Uses info ident with
      | None => replacements
      | Some (PkgName fullImportPath) =>
          if decide (Name ident ≠ fullImportPath)
          then <[Name ident := fullImportPath]> replacements
          else replacements
      | Some (OtherObject _) => replacements
      end
  | _ => replacements
  end.

Definition collectReplacements (node : Node) (info : Info) : gmap str str :=
  fold_left (recordQualifier info) (Walk node) ∅.

Definition placeholderPrefix : str := lit "__GO_QUALIFIER_TEMP_".

Definition placeholderFor (i : Z) : str :=
  placeholderPrefix ++ Itoa i ++ lit "__".

(** The loop that numbers the aliases: [entries] is the order in which
    [range replacements] yields them. *)
Fixpoint assignPlaceholders (i : Z) (entries : list (str * str))
    (tempMap finalMap : gmap str str) : gmap str str * gmap str str :=
  match entries with
  | [] => (tempMap, finalMap)
  | (oldQualifier, fullPath) :: rest =>
      let placeholder := placeholderFor i in
      assignPlaceholders (i + 1) rest
        (<[oldQualifier := placeholder]> tempMap)
        (<[placeholder := fullPath]> finalMap)
  end.

(** Reading a [map[string]string]: a missing key yields the empty string. *)
Definition mapGet (m : gmap str str) (k : str) : str := default [] (m !! k).

(** The comparison handed to [sort.Slice]: longer strings first. *)
Definition longerFirst (a b : str) : Prop := length b < length a.

(** What [sort.Slice] guarantees about its result (the sort is not stable):
    no element is strictly before one of its predecessors. *)
Definition sortedBy (less : str -> str -> Prop) (l : list str) : Prop :=
  StronglySorted (fun a b => ¬ less b a) l.

(** One resolution of the choices the Go runtime makes during a call. *)
Record Schedule := mkSchedule {
  rangeReplacements : list (str * str);
  sortedOldQualifiers : list str;
  sortedPlaceholders : list str
}.

Definition firstPass (tempMap : gmap str str) (qualifiers : list str)
    (chunkCode : str) : str :=
  fold_left (fun chunk oldQualifier =>
               ReplaceAll chunk (oldQualifier ++ [dot])
                          (mapGet tempMap oldQualifier ++ [dot]))
            qualifiers chunkCode.

Definition secondPass (finalMap : gmap str str) (placeholders : list str)
    (chunkCode : str) : str :=
  fold_left (fun chunk placeholder =>
               ReplaceAll chunk (placeholder ++ [dot])
                          (mapGet finalMap placeholder ++ [dot]))
            placeholders chunkCode.

(** The two passes, for a given alias map. *)
Definition rewriteQualifiers (sc : Schedule) (replacements : gmap str str)
    (chunkCode : str) : str :=
  if decide (size replacements = 0) then chunkCode
  else
    let '(tempMap, finalMap) :=
      assignPlaceholders 0 (rangeReplacements sc) ∅ ∅ in
    secondPass finalMap (sortedPlaceholders sc)
      (firstPass tempMap (sortedOldQualifiers sc) chunkCode).

Definition applyQualifierReplacements (sc : Schedule) (chunkCode : str)
    (node : Node) (info : option Info) : str :=
  match node, info with
  | Nil, _ => chunkCode
  | _, None => chunkCode
  | _, Some info => rewriteQualifiers sc (collectReplacements node info) chunkCode
  end.

(** [sc] is a possible behaviour of the runtime for the alias map
    [replacements]. *)
Definition validSchedule (replacements : gmap str str) (sc : Schedule) : Prop :=
  let maps := assignPlaceholders 0 (rangeReplacements sc) ∅ ∅ in
  rangeReplacements sc ≡ₚ map_to_list replacements ∧
  sortedOldQualifiers sc ≡ₚ (map_to_list maps.1).*1 ∧
  sortedBy longerFirst (sortedOldQualifiers sc) ∧
  sortedPlaceholders sc ≡ₚ (map_to_list maps.2).*1 ∧
  sortedBy longerFirst (sortedPlaceholders sc).

(** ** Type and signature rendering ([getTypeString], [getSignature]) *)

(** [fmt.Sprintf("%T", expr)]: the dynamic type of the node. *)
Definition typeTag (expr : Node) : str :=
  match expr with
  | Nil => lit "<nil>"
  | IdentNode _ => lit "*ast.Ident"
  | StarExpr _ _ => lit "*ast.StarExpr"
  | ArrayType _ _ _ => lit "*ast.ArrayType"
  | MapType _ _ _ => lit "*ast.MapType"
  | SelectorExpr _ _ => lit "*ast.SelectorExpr"
  | InterfaceType _ _ => lit "*ast.InterfaceType"
  | StructType _ _ => lit "*ast.StructType"
  | ChanType _ _ _ => lit "*ast.ChanType"
  | Ellipsis _ _ => lit "*ast.Ellipsis"
  | FuncType _ _ _ _ => lit "*ast.FuncType"
  | OtherNode tag _ _ => tag
  end.

(** The strings one field list contributes to a signature: one per name,
    or the bare type for an anonymous field. *)
Definition renderFieldList (typeString : Node -> str)
    (fl : option (list Field)) : list str :=
  match fl with
  | None => []
  | Some fields =>
      flat_map (fun field =>
                  let typeStr := typeString (Type_ field) in
                  match Names field with
                  | [] => [typeStr]
                  | names => map (fun name => Name name ++ lit " " ++ typeStr) names
                  end) fields
  end.

(** The body of [getSignature], with the recursive call to
    [getTypeString] abstracted. *)
Definition signatureWith (typeString : Node -> str)
    (Params Results : option (list Field)) : str :=
  let params := renderFieldList typeString Params in
  let paramStr := lit "(" ++ Join params (lit ", ") ++ lit ")" in
  let results := renderFieldList typeString Results in
  let resultStr :=
    match results with
    | [] => []
    | [r] =>
        match Results with
        | Some (first :: _) =>
            match Names first with
            | [] => lit " " ++ r
            | _ :: _ => lit " (" ++ Join results (lit ", ") ++ lit ")"
            end
        | _ => lit " (" ++ Join results (lit ", ") ++ lit ")"
        end
    | _ => lit " (" ++ Join results (lit ", ") ++ lit ")"
    end in
  paramStr ++ resultStr.

Section Rendering.
(** [printer.Fprint] into a buffer: [None] when it returns an error. *)
Variable Fprint : Node -> option str.
Variable info : Info.

Fixpoint getTypeString (expr : Node) : str :=
  match TypeOf info expr with
  | Some tv => tv
  | None =>
      match expr with
      | IdentNode t => Name t
      | StarExpr _ X => lit "*" ++ getTypeString X
      | ArrayType _ _ Elt => lit "[]" ++ getTypeString Elt
      | MapType _ Key Value =>
          lit "map[" ++ getTypeString Key ++ lit "]" ++ getTypeString Value
      | SelectorExpr X Sel =>
          let generic := getTypeString X ++ lit "." ++ Name Sel in
          match X with
          | IdentNode ident =>
              match Uses info ident with
              | Some (PkgName importedPath) => importedPath ++ lit "." ++ Name Sel
              | _ => generic
              end
          | _ => generic
          end
      | InterfaceType _ _ => lit "interface{}"
      | ChanType _ Dir Value =>
          let dir :=
            if decide (Dir = SEND) then lit "chan<- "
            else if decide (Dir = RECV) then lit "<-chan "
            else lit "chan " in
          dir ++ getTypeString Value
      | Ellipsis _ Elt => lit "..." ++ getTypeString Elt
      | FuncType _ _ Params Results =>
          lit "func" ++ signatureWith getTypeString Params Results
      | Nil | StructType _ _ | OtherNode _ _ _ =>
          match Fprint expr with
          | Some b => b
          | None => typeTag expr
          end
      end
  end.

Definition getSignature (Params Results : option (list Field)) : str :=
  signatureWith getTypeString Params Results.
End Rendering.

(** ** The Declaration Locator ([processGoProject]) *)

(** [token.Position], as [fset.Position] resolves a [token.Pos]. *)
Record Position := mkPosition { Offset : Z; Line : Z }.

Record FuncDecl := mkFuncDecl {
  funcPos : Position;          (* fset.Position(decl.Pos()) *)
  funcEnd : Position;          (* fset.Position(decl.End()) *)
  Recv : option (list Field);
  funcName : Ident;
  funcFunc : Z;
  funcTypeParams : option (list Field);
  funcParams : option (list Field);
  funcResults : option (list Field);
  Body : Node
}.

Record TypeSpec := mkTypeSpec {
  typeName : Ident;
  typeTypeParams : option (list Field);
  typeType : Node
}.

Record ValueSpec := mkValueSpec {
  valueNames : list Ident;
  valueType : Node;            (* Nil when the spec has no explicit type *)
  Values : list Node
}.

Inductive SpecKind :=
| ImportSpec
| ValueSpecOf (valueSpec : ValueSpec)
| TypeSpecOf (typeSpec : TypeSpec).

Record Spec := mkSpec {
  specPos : Position;          (* fset.Position(spec.Pos()) *)
  specEnd : Position;          (* fset.Position(spec.End()) *)
  specKind : SpecKind
}.

Inductive Token := IMPORT | CONST | TYPE | VAR.

(** [token.Token.String]. *)
Definition tokenString (t : Token) : str :=
  match t with
  | IMPORT => lit "import"
  | CONST => lit "const"
  | TYPE => lit "type"
  | VAR => lit "var"
  end.

Inductive DeclKind :=
| FuncDeclOf (funcDecl : FuncDecl)
| GenDeclOf (Tok : Token) (Specs : list Spec)
| BadDecl.

Record Decl := mkDecl {
  declPos : Position;
  declEnd : Position;
  declKind : DeclKind
}.

(** The subtrees handed to the canonicalizer, as [ast.Walk] unfolds a
    function declaration, a type spec and a value spec. *)
Definition fieldListNodes (fl : option (list Field)) : list Node :=
  match fl with
  | None => []
  | Some fs => flat_map (fun f => map IdentNode (Names f) ++ [Type_ f]) fs
  end.

Definition funcDeclNode (d : FuncDecl) : Node :=
  OtherNode (lit "*ast.FuncDecl") (funcFunc d)
    (fieldListNodes (Recv d) ++
     [IdentNode (funcName d);
      FuncType (funcFunc d) (funcTypeParams d) (funcParams d) (funcResults d);
      Body d]).

Definition typeSpecNode (t : TypeSpec) : Node :=
  OtherNode (lit "*ast.TypeSpec") (NamePos (typeName t))
    (IdentNode (typeName t) :: fieldListNodes (typeTypeParams t) ++ [typeType t]).

Definition valueSpecNode (v : ValueSpec) : Node :=
  OtherNode (lit "*ast.ValueSpec")
    (match valueNames v with n :: _ => NamePos n | [] => 0 end)
    (map IdentNode (valueNames v) ++ valueType v :: Values v).

(** A parsed file of a package: the name under which the file set knows it
    and its top-level declarations. *)
Record File := mkFile { filePath : str; Decls : list Decl }.

(** [*packages.Package]; [Syntax] is [None] for a nil slice and [hasFset]
    is false for a nil [Fset]. *)
Record Package := mkPackage {
  pkgID : str;
  pkgName : str;
  Errors : list str;
  TypesInfo : option Info;
  Syntax : option (list File);
  hasFset : bool
}.

(** Values stored in the metadata map. *)
Inductive MetaValue :=
| MStr (s : str)
| MInt (i : Z).

Record ChromaDocument := mkChromaDocument {
  ID : str;
  Document : str;
  Metadata : gmap str MetaValue
}.

(** What the program writes to the log. *)
Inductive LogEntry :=
| LogLoading (projectPath : str)
| LogFinishedLoading (n : nat)
| LogPackageError (pkg err : str)
| LogErrorsOccurred
| LogSkippingPackage (pkg : str)
| LogErrorReadingFile (path : str)
| LogInvalidDeclOffsets (path : str) (line startOffset endOffset fileLen : Z)
| LogInvalidSpecOffsets (path : str) (line startOffset endOffset fileLen : Z).

(** The state of a run: the chunks appended so far, the log, and how many
    times the canonicalizer has been called (each call may see the maps in
    another order). *)
Record State := mkState {
  chunks : list ChromaDocument;
  logs : list LogEntry;
  calls : nat
}.

Definition logPrintf (e : LogEntry) (st : State) : State :=
  mkState (chunks st) (logs st ++ [e]) (calls st).

Definition appendChunk (c : ChromaDocument) (st : State) : State :=
  mkState (chunks st ++ [c]) (logs st) (calls st).

Definition countCall (st : State) : State :=
  mkState (chunks st) (logs st) (S (calls st)).

(** The slice expression [s[lo:hi]]; [None] is the run-time panic for
    indices out of range. *)
Definition slice (s : str) (lo hi : Z) : option str :=
  if decide (0 ≤ lo ∧ lo ≤ hi ∧ hi ≤ Z.of_nat (length s))%Z
  then Some (take (Z.to_nat (hi - lo)) (drop (Z.to_nat lo) s))
  else None.

(** The guard in front of both slice expressions. *)
Definition invalidOffsets (startOffset endOffset : Z) (content : str) : bool :=
  bool_decide (startOffset < 0 ∨ endOffset > Z.of_nat (length content)
               ∨ startOffset > endOffset)%Z.

(** [fmt.Sprintf("%s:%d-%d-%s", ...)]. *)
Definition chunkID (filePath : str) (startLine endLine : Z) (name : str) : str :=
  filePath ++ lit ":" ++ Itoa startLine ++ lit "-" ++ Itoa endLine
    ++ lit "-" ++ name.

(** A loop whose body may panic. *)
Fixpoint forEach {A S : Type} (body : S -> A -> option S) (l : list A)
    (st : S) : option S :=
  match l with
  | [] => Some st
  | x :: rest =>
      match body st x with
      | Some st' => forEach body rest st'
      | None => None
      end
  end.

Section Locator.
Variable Fprint : Node -> option str.
(** [ioutil.ReadFile]: [None] when the file cannot be read. *)
Variable ReadFile : str -> option str.
(** The runtime's choices at the n-th call of the canonicalizer. *)
Variable oracle : nat -> Schedule.

Definition canonicalize (chunkCode : str) (node : Node) (info : Info)
    (st : State) : str * State :=
  (applyQualifierReplacements (oracle (calls st)) chunkCode node (Some info),
   countCall st).

Definition processFuncDecl (path packageName : str) (info : Info)
    (content : str) (decl : Decl) (funcDecl : FuncDecl)
    (declChunkCode : str) (st : State) : State :=
  let startPos := declPos decl in
  let endPos := declEnd decl in
  let metadata : gmap str MetaValue :=
    <[lit "signature" :=
        MStr (getSignature Fprint info (funcParams funcDecl) (funcResults funcDecl))]>
    (<[lit "end_line" := MInt (Line endPos)]>
    (<[lit "start_line" := MInt (Line startPos)]>
    (<[lit "entity_name" := MStr (Name (funcName funcDecl))]>
    (<[lit "entity_type" := MStr (lit "function")]>
    (<[lit "package_name" := MStr packageName]>
    (<[lit "file_path" := MStr path]> ∅)))))) in
  let metadata :=
    match Recv funcDecl with
    | Some (first :: _) =>
        let receiverType := getTypeString Fprint info (Type_ first) in
        <[lit "entity_name" :=
            MStr (receiverType ++ lit "." ++ Name (funcName funcDecl))]>
        (<[lit "receiver_type" := MStr receiverType]>
        (<[lit "entity_type" := MStr (lit "method")]> metadata))
    | _ => metadata
    end in
  let '(finalChunkCode, st) :=
    canonicalize declChunkCode (funcDeclNode funcDecl) info st in
  appendChunk
    (mkChromaDocument
       (chunkID path (Line startPos) (Line endPos) (Name (funcName funcDecl)))
       finalChunkCode metadata) st.

Definition processSpec (path packageName : str) (info : Info)
    (content : str) (Tok : Token) (st : State) (spec : Spec) : option State :=
  let specStartPos := specPos spec in
  let specEndPos := specEnd spec in
  let specStartOffset := Offset specStartPos in
  let specEndOffset := Offset specEndPos in
  if invalidOffsets specStartOffset specEndOffset content then
    Some (logPrintf (LogInvalidSpecOffsets path (Line specStartPos)
                       specStartOffset specEndOffset (Z.of_nat (length content))) st)
  else
    match slice content specStartOffset specEndOffset with
    | None => None
    | Some specChunkCode =>
        let specMetadata : gmap str MetaValue :=
          <[lit "declaration_kind" := MStr (tokenString Tok)]>
          (<[lit "end_line" := MInt (Line specEndPos)]>
          (<[lit "start_line" := MInt (Line specStartPos)]>
          (<[lit "package_name" := MStr packageName]>
          (<[lit "file_path" := MStr path]> ∅)))) in
        match specKind spec with
        | TypeSpecOf typeSpec =>
            let entityName := Name (typeName typeSpec) in
            let category :=
              match typeType typeSpec with
              | StructType _ _ => lit "struct"
              | InterfaceType _ _ => lit "interface"
              | _ => lit "alias_or_basic"
              end in
            let specMetadata :=
              <[lit "type_category" := MStr category]>
              (<[lit "type_definition" :=
                   MStr (getTypeString Fprint info (typeType typeSpec))]>
              (<[lit "entity_name" := MStr entityName]>
              (<[lit "entity_type" := MStr (lit "type_declaration")]>
                 specMetadata))) in
            let '(finalChunkCode, st) :=
              canonicalize specChunkCode (typeSpecNode typeSpec) info st in
            Some (appendChunk
                    (mkChromaDocument
                       (chunkID path (Line specStartPos) (Line specEndPos) entityName)
                       finalChunkCode specMetadata) st)
        | ValueSpecOf valueSpec =>
            let names := map Name (valueNames valueSpec) in
            let entityName := Join names (lit ", ") in
            let specMetadata :=
              <[lit "entity_name" := MStr entityName]>
              (<[lit "entity_type" := MStr (lit "value_declaration")]>
                 specMetadata) in
            let specMetadata :=
              match valueType valueSpec with
              | Nil =>
                  match Values valueSpec with
                  | first :: _ =>
                      match TypeOf info first with
                      | Some tv => <[lit "inferred_type" := MStr tv]> specMetadata
                      | None => specMetadata
                      end
                  | [] => specMetadata
                  end
              | declared =>
                  <[lit "declared_type" :=
                      MStr (getTypeString Fprint info declared)]> specMetadata
              end in
            let '(finalChunkCode, st) :=
              canonicalize specChunkCode (valueSpecNode valueSpec) info st in
            Some (appendChunk
                    (mkChromaDocument
                       (chunkID path (Line specStartPos) (Line specEndPos) entityName)
                       finalChunkCode specMetadata) st)
        | ImportSpec => Some st
        end
    end.

Definition processDecl (path packageName : str) (info : Info)
    (content : str) (st : State) (decl : Decl) : option State :=
  let startPos := declPos decl in
  let endPos := declEnd decl in
  let startOffset := Offset startPos in
  let endOffset := Offset endPos in
  if invalidOffsets startOffset endOffset content then
    Some (logPrintf (LogInvalidDeclOffsets path (Line startPos)
                       startOffset endOffset (Z.of_nat (length content))) st)
  else
    match slice content startOffset endOffset with
    | None => None
    | Some declChunkCode =>
        match declKind decl with
        | FuncDeclOf funcDecl =>
            Some (processFuncDecl path packageName info content decl funcDecl
                    declChunkCode st)
        | GenDeclOf IMPORT _ => Some st
        | GenDeclOf Tok Specs =>
            forEach (processSpec path packageName info content Tok) Specs st
        | BadDecl => Some st
        end
    end.

Definition processFile (packageName : str) (info : Info) (st : State)
    (file : File) : option State :=
  match ReadFile (filePath file) with
  | None => Some (logPrintf (LogErrorReadingFile (filePath file)) st)
  | Some originalFileContentString =>
      forEach (processDecl (filePath file) packageName info
                 originalFileContentString) (Decls file) st
  end.

Definition processPackage (st : State) (pkg : Package) : option State :=
  match TypesInfo pkg, Syntax pkg, hasFset pkg with
  | Some info, Some files, true =>
      forEach (processFile (pkgName pkg) info) files st
  | _, _, _ => Some (logPrintf (LogSkippingPackage (pkgID pkg)) st)
  end.

(** The log lines of the loop over [pkg.Errors]. *)
Definition reportErrors (pkgs : list Package) (st : State) : State :=
  let st :=
    fold_left (fun st pkg =>
                 fold_left (fun st e => logPrintf (LogPackageError (pkgID pkg) e) st)
                           (Errors pkg) st) pkgs st in
  if bool_decide (Forall (fun pkg => Errors pkg = []) pkgs) then st
  else logPrintf LogErrorsOccurred st.

(** What a run returns: the error of [packages.Load], or the chunks. *)
Inductive Returned :=
| Failed (err : str) (log : list LogEntry)
| Succeeded (result : list ChromaDocument) (log : list LogEntry).

(** [loaded] is what [packages.Load] returns for the project: an error
    or the packages.  [None] is a run that panics. *)
Definition processGoProject (projectPath : str)
    (loaded : str + list Package) : option Returned :=
  let st := logPrintf (LogLoading projectPath) (mkState [] [] 0) in
  match loaded with
  | inl err => Some (Failed (lit "failed to load packages: " ++ err) (logs st))
  | inr pkgs =>
      let st := logPrintf (LogFinishedLoading (length pkgs)) st in
      let st := reportErrors pkgs st in
      match forEach processPackage pkgs st with
      | Some st => Some (Succeeded (chunks st) (logs st))
      | None => None
      end
  end.
End Locator.

(** ** The single-pass variant of [go_ast_parser.go] *)

Module GoAstParser.

(** The loop over [sortedOldQualifiers]: each alias is replaced by its
    import path directly. *)
Definition replaceQualifiers (replacements : gmap str str)
    (sortedOldQualifiers : list str) (chunkCode : str) : str :=
  fold_left (fun chunk oldQualifier =>
               ReplaceAll chunk (oldQualifier ++ [dot])
                          (mapGet replacements oldQualifier ++ [dot]))
            sortedOldQualifiers chunkCode.

Definition validOrder (replacements : gmap str str)
    (sortedOldQualifiers : list str) : Prop :=
  sortedOldQualifiers ≡ₚ (map_to_list replacements).*1 ∧
  sortedBy longerFirst sortedOldQualifiers.

(** [fmt.Sprintf("%s:%d-%d", ...)]. *)
Definition chunkID (filePath : str) (startLine endLine : Z) : str :=
  filePath ++ lit ":" ++ Itoa startLine ++ lit "-" ++ Itoa endLine.

End GoAstParser.

(** ** Notions used to state the properties *)

(** [old] occurs in [s]. *)
Definition occursIn (old s : str) : Prop := ∃ x y, s = x ++ old ++ y.

(** The text cut at its dots: [joinDots runs tail] is the text whose
    dot-free runs, each followed by a dot, are [runs], and which ends with
    the dot-free [tail]. *)
Definition joinDots (runs : list str) (tail : str) : str :=
  flat_map (fun w => w ++ [dot]) runs ++ tail.

Fixpoint splitDots (s : str) : list str * str :=
  match s with
  | [] => ([], [])
  | c :: s' =>
      let '(runs, tail) := splitDots s' in
      if decide (c = dot) then ([] :: runs, tail)
      else match runs with
           | [] => ([], c :: tail)
           | w :: runs' => ((c :: w) :: runs', tail)
           end
  end.

(** The first qualifier of the list that ends the run [w]. *)
Fixpoint firstQualifier (qualifiers : list str) (w : str) : option str :=
  match qualifiers with
  | [] => None
  | q :: rest =>
      if decide (q `suffix_of` w) then Some q else firstQualifier rest w
  end.

(** A run with its trailing qualifier, if it has one, replaced by the
    import path. *)
Definition rewriteRun (replacements : gmap str str) (qualifiers : list str)
    (w : str) : str :=
  match firstQualifier qualifiers w with
  | Some q => take (length w - length q) w ++ mapGet replacements q
  | None => w
  end.

(** The textual rewrite the canonicalizer amounts to when placeholders
    do not collide with anything. *)
Definition rewriteRuns (replacements : gmap str str) (qualifiers : list str)
    (chunkCode : str) : str :=
  let '(runs, tail) := splitDots chunkCode in
  joinDots (map (rewriteRun replacements qualifiers) runs) tail.

(** Aliases and import paths on which the placeholders cannot collide: an
    alias is a non-empty dot-free name that does not end with an
    underscore, and in a path no underscore is followed by a dot or ends
    the path. *)
Definition aliasOK (a : str) : Prop :=
  a ≠ [] ∧ (dot ∉ a) ∧ last a ≠ Some underscore.

Definition pathOK (p : str) : Prop :=
  Contains (p ++ [dot]) [underscore; dot] = false.

Definition collisionFree (replacements : gmap str str) : Prop :=
  map_Forall (fun a p => aliasOK a ∧ pathOK p) replacements.

(** The chunk holds no placeholder sentinel. *)
Definition sentinelFree (chunkCode : str) : Prop :=
  Contains chunkCode placeholderPrefix = false.

(** A span the Locator accepts. *)
Definition validSpan (startOffset endOffset : Z) (content : str) : Prop :=
  (0 ≤ startOffset ∧ startOffset ≤ endOffset
   ∧ endOffset ≤ Z.of_nat (length content))%Z.

(** ** Notions used in the proofs *)

(** No instance of [old] starts inside [x] and ends outside of it. *)
Definition noStraddle (old x y : str) : Prop :=
  ∀ x1 x2, x = x1 ++ x2 → x2 ≠ [] → old `prefix_of` (x2 ++ y) → old `prefix_of` x2.

Definition rewriteSuffix (a p w : str) : str :=
  if decide (a `suffix_of` w) then take (length w - length a) w ++ p else w.

Definition replacePass (pairs : list (str * str)) (s : str) : str :=
  fold_left (fun chunk on => ReplaceAll chunk (on.1 ++ [dot]) (on.2 ++ [dot]))
            pairs s.

Definition minusSign : ascii := "-"%char.

(** The bytes of a numeral that are not its sign. *)
Definition digitByte (c : ascii) : Prop :=
  c ≠ underscore ∧ c ≠ dot ∧ c ≠ minusSign.

Definition plainByte (c : ascii) : Prop := c ≠ underscore ∧ c ≠ dot.

Definition firstPairs (tm : gmap str str) (qs : list str) : list (str * str) :=
  map (fun q => (q, mapGet tm q)) qs.

Definition secondPairs (fm : gmap str str) (ps : list str) : list (str * str) :=
  map (fun p => (p, mapGet fm p)) ps.

Record ScheduleFacts (m : gmap str str) (sc : Schedule) (tm fm : gmap str str) := {
  sf_qualifiers : ∀ q, q ∈ sortedOldQualifiers sc ↔ is_Some (m !! q);
  sf_nodup : NoDup (sortedOldQualifiers sc);
  sf_numbered : ∀ q p, m !! q = Some p →
    ∃ i, mapGet tm q = placeholderFor i ∧ mapGet fm (placeholderFor i) = p
         ∧ placeholderFor i ∈ sortedPlaceholders sc;
  sf_placeholders :
    Forall (fun p => ∃ j, p = placeholderFor j) (sortedPlaceholders sc)
}.

Definition aliasUse (info : Info) (l : list Node) (a p : str) : Prop :=
  ∃ ident sel, SelectorExpr (IdentNode ident) sel ∈ l ∧ Name ident = a
               ∧ Uses info ident = Some (PkgName p) ∧ a ≠ p.

Definition noAliasToken (m : gmap str str) (text : str) : Prop :=
  map_Forall (fun a _ => Contains text (a ++ [dot]) = false) m.

Definition syntacticRendering (info : Info) (rec : Node -> str) (expr : Node)
    : option str :=
  match expr with
  | IdentNode t => Some (Name t)
  | StarExpr _ X => Some (lit "*" ++ rec X)
  | ArrayType _ _ Elt => Some (lit "[]" ++ rec Elt)
  | MapType _ Key Value => Some (lit "map[" ++ rec Key ++ lit "]" ++ rec Value)
  | SelectorExpr X Sel =>
      Some (match X with
            | IdentNode ident =>
                match Uses info ident with
                | Some (PkgName importedPath) => importedPath
                | _ => rec X
                end
            | _ => rec X
            end ++ lit "." ++ Name Sel)
  | InterfaceType _ _ => Some (lit "interface{}")
  | ChanType _ Dir Value =>
      Some ((if decide (Dir = SEND) then lit "chan<- "
             else if decide (Dir = RECV) then lit "<-chan "
             else lit "chan ") ++ rec Value)
  | Ellipsis _ Elt => Some (lit "..." ++ rec Elt)
  | FuncType _ _ Params Results => Some (lit "func" ++ signatureWith rec Params Results)
  | Nil | StructType _ _ | OtherNode _ _ _ => None
  end.

Definition typeCategory (t : Node) : str :=
  match t with
  | StructType _ _ => lit "struct"
  | InterfaceType _ _ => lit "interface"
  | _ => lit "alias_or_basic"
  end.

Definition specName (spec : Spec) : str :=
  match specKind spec with
  | TypeSpecOf t => Name (typeName t)
  | ValueSpecOf v => Join (map Name (valueNames v)) (lit ", ")
  | ImportSpec => []
  end.

Definition specNode (spec : Spec) : Node :=
  match specKind spec with
  | TypeSpecOf t => typeSpecNode t
  | ValueSpecOf v => valueSpecNode v
  | ImportSpec => Nil
  end.

Definition emitsChunk (content : str) (spec : Spec) : bool :=
  negb (invalidOffsets (Offset (specPos spec)) (Offset (specEnd spec)) content)
  && match specKind spec with ImportSpec => false | _ => true end.

Section LocatorNotions.
Variable ReadFile : str -> option str.
Variable oracle : nat -> Schedule.

Record chunkOf (path content : str) (info : Info) (k : nat)
    (startPos endPos : Position) (name : str) (node : Node)
    (c : ChromaDocument) : Prop := {
  co_span : validSpan (Offset startPos) (Offset endPos) content;
  co_document : ∃ raw, slice content (Offset startPos) (Offset endPos) = Some raw
      ∧ Document c = applyQualifierReplacements (oracle k) raw node (Some info);
  co_id : ID c = chunkID path (Line startPos) (Line endPos) name;
  co_file : Metadata c !! lit "file_path" = Some (MStr path);
  co_start : Metadata c !! lit "start_line" = Some (MInt (Line startPos));
  co_end : Metadata c !! lit "end_line" = Some (MInt (Line endPos))
}.

Definition specMeta (Tok : Token) (spec : Spec) (c : ChromaDocument) : Prop :=
  Metadata c !! lit "entity_name" = Some (MStr (specName spec))
  ∧ Metadata c !! lit "declaration_kind" = Some (MStr (tokenString Tok))
  ∧ match specKind spec with
    | TypeSpecOf t =>
        Metadata c !! lit "entity_type" = Some (MStr (lit "type_declaration"))
        ∧ Metadata c !! lit "type_category" = Some (MStr (typeCategory (typeType t)))
    | ValueSpecOf _ =>
        Metadata c !! lit "entity_type" = Some (MStr (lit "value_declaration"))
    | ImportSpec => False
    end.

(** [new] is what a step appended to the chunks, one canonicalizer call
    for each. *)
Definition appended (st st' : State) (new : list ChromaDocument) : Prop :=
  chunks st' = chunks st ++ new ∧ calls st' = calls st + length new.

(** The units of a declaration for which a chunk may be emitted. *)
Inductive declUnit (decl : Decl) : Position -> Position -> str -> Node -> Prop :=
| unitFunc f :
    declKind decl = FuncDeclOf f →
    declUnit decl (declPos decl) (declEnd decl) (Name (funcName f)) (funcDeclNode f)
| unitSpec Tok specs spec :
    declKind decl = GenDeclOf Tok specs → Tok ≠ IMPORT → spec ∈ specs →
    specKind spec ≠ ImportSpec →
    declUnit decl (specPos spec) (specEnd spec) (specName spec) (specNode spec).

Definition chunkOfDecl (path content : str) (info : Info) (decl : Decl)
    (c : ChromaDocument) : Prop :=
  ∃ k startPos endPos name node,
    declUnit decl startPos endPos name node
    ∧ chunkOf path content info k startPos endPos name node c.

Definition chunkOfFile (info : Info) (file : File) (c : ChromaDocument) : Prop :=
  ∃ content decl, ReadFile (filePath file) = Some content ∧ decl ∈ Decls file
                  ∧ chunkOfDecl (filePath file) content info decl c.

Definition chunkOfPackage (pkg : Package) (c : ChromaDocument) : Prop :=
  ∃ info files file, TypesInfo pkg = Some info ∧ Syntax pkg = Some files
                     ∧ hasFset pkg = true ∧ file ∈ files ∧ chunkOfFile info file c.

End LocatorNotions.

(** Two states that differ in their logs only. *)
Definition sameOutput (st1 st2 : State) : Prop :=
  chunks st1 = chunks st2 ∧ calls st1 = calls st2.

Definition sameOutcome (r1 r2 : option State) : Prop :=
  match r1, r2 with
  | Some st1, Some st2 => sameOutput st1 st2
  | None, None => True
  | _, _ => False
  end.

(** Dropping an unreadable file from a package. *)
Definition withSyntax (pkg : Package) (files : list File) : Package :=
  mkPackage (pkgID pkg) (pkgName pkg) (Errors pkg) (TypesInfo pkg) (Some files)
            (hasFset pkg).

(** ** Decision procedures *)

#[global] Instance longerFirst_dec : RelDecision longerFirst :=
  fun a b => decide (length b < length a).

#[global] Instance validSchedule_dec m sc : Decision (validSchedule m sc).
Proof. unfold validSchedule, sortedBy. apply _. Defined.

#[global] Instance aliasOK_dec a : Decision (aliasOK a).
Proof. unfold aliasOK. apply _. Defined.

#[global] Instance pathOK_dec p : Decision (pathOK p).
Proof. unfold pathOK. apply _. Defined.

#[global] Instance collisionFree_dec m : Decision (collisionFree m).
Proof. unfold collisionFree. apply _. Defined.

#[global] Instance sentinelFree_dec c : Decision (sentinelFree c).
Proof. unfold sentinelFree. apply _. Defined.

#[global] Instance noAliasToken_dec m t : Decision (noAliasToken m t).
Proof. unfold noAliasToken. apply _. Defined.

#[global] Instance validOrder_dec m qs : Decision (GoAstParser.validOrder m qs).
Proof. unfold GoAstParser.validOrder, sortedBy. apply _. Defined.

(** Concrete syntax for the examples. *)
Definition ident (pos : Z) (name : string) : Ident := mkIdent pos (lit name).
Definition sel (pos : Z) (x : string) (selPos : Z) (member : string) : Node :=
  SelectorExpr (IdentNode (ident pos x)) (ident selPos member).
Definition call (pos : Z) (fn : Node) (args : list Node) : Node :=
  OtherNode (lit "*ast.CallExpr") pos (fn :: args).
Definition exprStmt (pos : Z) (e : Node) : Node :=
  OtherNode (lit "*ast.ExprStmt") pos [e].
Definition block (pos : Z) (stmts : list Node) : Node :=
  OtherNode (lit "*ast.BlockStmt") pos stmts.

(** Symbols resolved by name: the listed names are import aliases, every
    other identifier is a variable. *)
Definition importsOnly (imports : list (string * string)) : Info :=
  mkInfo (fun id =>
            match list_find (fun e => lit e.1 = Name id) imports with
            | Some (_, e) => Some (PkgName (lit e.2))
            | None => Some (OtherObject (lit "var"))
            end)
         (fun _ => None).

Definition aliases_a_ab : gmap str str :=
  <[lit "a" := lit "pkg/a"]> (<[lit "ab" := lit "pkg/ab"]> ∅).

Definition node_a_ab : Node :=
  block 0 [exprStmt 0 (call 0 (sel 0 "ab" 3 "Foo") []);
           exprStmt 10 (call 10 (sel 10 "a" 12 "Bar") [])].
Definition info_a_ab : Info := importsOnly [("a", "pkg/a"); ("ab", "pkg/ab")]%string.

Definition schedule_a_ab : Schedule :=
  mkSchedule [(lit "a", lit "pkg/a"); (lit "ab", lit "pkg/ab")]
             [lit "ab"; lit "a"] [placeholderFor 1; placeholderFor 0].

Definition aliases_x : gmap str str := {[ lit "x" := lit "company/x" ]}.
Definition node_x : Node :=
  exprStmt 0 (call 0 (sel 0 "x" 2 "Use")
                [SelectorExpr (sel 6 "company" 14 "x") (ident 16 "Other")]).
Definition info_x : Info := importsOnly [("x", "company/x")]%string.
Definition schedule_x : Schedule :=
  mkSchedule [(lit "x", lit "company/x")] [lit "x"] [placeholderFor 0].

Definition aliases_a : gmap str str := {[ lit "a" := lit "pkg/a" ]}.
Definition node_a_ba : Node :=
  exprStmt 0 (call 0 (sel 0 "a" 2 "F") [sel 4 "ba" 7 "G"]).
Definition info_a : Info := importsOnly [("a", "pkg/a")]%string.
Definition schedule_a : Schedule :=
  mkSchedule [(lit "a", lit "pkg/a")] [lit "a"] [placeholderFor 0].

Definition aliases_http : gmap str str := {[ lit "http" := lit "net/http" ]}.
Definition node_http : Node :=
  exprStmt 0 (call 0 (sel 0 "http" 5 "Get") [IdentNode (ident 9 "u")]).
Definition info_http : Info := importsOnly [("http", "net/http")]%string.
Definition schedule_http : Schedule :=
  mkSchedule [(lit "http", lit "net/http")] [lit "http"] [placeholderFor 0].

Definition node_h : Node :=
  exprStmt 0 (call 0 (sel 0 "h" 2 "Get") [IdentNode (ident 6 "u")]).
Definition info_h : Info := importsOnly [("h", "net/http")]%string.
Definition schedule_h : Schedule :=
  mkSchedule [(lit "h", lit "net/http")] [lit "h"] [placeholderFor 0].

Definition aliases_underscores : gmap str str :=
  <[lit "__" := lit "u"]> (<[lit "abc" := lit "pkg/abc"]> ∅).
Definition node_underscores : Node :=
  exprStmt 0 (call 0 (sel 0 "abc" 4 "Foo") [sel 8 "__" 11 "Bar"]).
Definition info_underscores : Info :=
  importsOnly [("__", "u"); ("abc", "pkg/abc")]%string.
Definition schedule_underscores_1 : Schedule :=
  mkSchedule [(lit "__", lit "u"); (lit "abc", lit "pkg/abc")]
             [lit "abc"; lit "__"] [placeholderFor 0; placeholderFor 1].
Definition schedule_underscores_2 : Schedule :=
  mkSchedule [(lit "abc", lit "pkg/abc"); (lit "__", lit "u")]
             [lit "abc"; lit "__"] [placeholderFor 0; placeholderFor 1].

Definition schedule_a_ab' : Schedule :=
  mkSchedule [(lit "ab", lit "pkg/ab"); (lit "a", lit "pkg/a")]
             [lit "ab"; lit "a"] [placeholderFor 0; placeholderFor 1].

Definition noPrinter : Node -> option str := fun _ => None.
Definition idleOracle : nat -> Schedule := fun _ => mkSchedule [] [] [].
Definition noImports : Info := importsOnly [].
Definition basicLit (pos : Z) : Node := OtherNode (lit "*ast.BasicLit") pos [].

(** [var _ = 1; var _ = 2] on one line of f.go. *)
Definition blankVar (startOffset : Z) : Decl :=
  mkDecl (mkPosition startOffset 1) (mkPosition (startOffset + 9) 1)
    (GenDeclOf VAR
       [mkSpec (mkPosition (startOffset + 4) 1) (mkPosition (startOffset + 9) 1)
          (ValueSpecOf (mkValueSpec [ident (startOffset + 4) "_"] Nil
                          [basicLit (startOffset + 8)]))]).

Definition twoBlankVars : File := mkFile (lit "f.go") [blankVar 0; blankVar 11].

Definition onlyFile (content : string) : str -> option str :=
  fun path => if decide (path = lit "f.go") then Some (lit content) else None.

(** A file the file system does not hold. *)
Definition unreadableFile : File := mkFile (lit "g.go") [blankVar 0].

Definition packageOf (files : list File) : Package :=
  mkPackage (lit "example") (lit "main") [] (Some noImports) (Some files) true.

(** A group of two type specs, each on a line of its own:
<<
type (
	A struct{}
	B interface{}
)
>> *)
Definition newline : ascii := ascii_of_nat 10.
Definition tab : ascii := ascii_of_nat 9.

Definition groupOnLines : str :=
  lit "type (" ++ [newline; tab] ++ lit "A struct{}" ++ [newline; tab]
    ++ lit "B interface{}" ++ [newline] ++ lit ")".

Definition typeSpecAt (startOffset endOffset line : Z) (name : string)
    (type : Node) : Spec :=
  mkSpec (mkPosition startOffset line) (mkPosition endOffset line)
    (TypeSpecOf (mkTypeSpec (ident startOffset name) None type)).

Definition groupOnLinesDecl : Decl :=
  mkDecl (mkPosition 0 1) (mkPosition 35 4)
    (GenDeclOf TYPE [typeSpecAt 8 18 2 "A" (StructType 10 []);
                     typeSpecAt 20 33 3 "B" (InterfaceType 22 [])]).

Definition emptyState : State := mkState [] [] 0.

(** The same group written on one line:
    [type ( A struct{}; B interface{} )]. *)
Definition groupOnOneLine : str := lit "type ( A struct{}; B interface{} )".

Definition groupOnOneLineDecl : Decl :=
  mkDecl (mkPosition 0 1) (mkPosition 34 1)
    (GenDeclOf TYPE [typeSpecAt 7 17 1 "A" (StructType 9 []);
                     typeSpecAt 19 32 1 "B" (InterfaceType 21 [])]).

(** ** Notions for the further properties *)

(** The result list of a signature is exactly one anonymous field. *)
Definition singleAnonymous (Results : option (list Field)) : option Node :=
  match Results with
  | Some [field] => match Names field with [] => Some (Type_ field) | _ => None end
  | _ => None
  end.

(** No selector of the subtree has a base that resolves to a package name
    spelled differently from its path. *)
Definition noAliasUse (info : Info) (node : Node) : Prop :=
  ∀ ident sel p, SelectorExpr (IdentNode ident) sel ∈ Walk node →
                 Uses info ident = Some (PkgName p) → Name ident = p.

(** [fmt.Println()], the package imported under its own name. *)
Definition node_fmt : Node := exprStmt 0 (call 0 (sel 0 "fmt" 4 "Println") []).
Definition info_fmt : Info := importsOnly [("fmt", "fmt")]%string.

(** An enumeration of [aliases_a_ab]. *)
Definition entries_ab_a : list (str * str) :=
  [(lit "ab", lit "pkg/ab"); (lit "a", lit "pkg/a")].

(** The keys every chunk carries, and the keys that depend on its kind. *)
Definition chunkSchema (packageName : str) (c : ChromaDocument) : Prop :=
  let meta := Metadata c in
  (∃ path, meta !! lit "file_path" = Some (MStr path))
  ∧ meta !! lit "package_name" = Some (MStr packageName)
  ∧ (∃ name, meta !! lit "entity_name" = Some (MStr name))
  ∧ (∃ line, meta !! lit "start_line" = Some (MInt line))
  ∧ (∃ line, meta !! lit "end_line" = Some (MInt line))
  ∧ ((meta !! lit "entity_type" = Some (MStr (lit "function"))
      ∧ is_Some (meta !! lit "signature")
      ∧ meta !! lit "receiver_type" = None
      ∧ meta !! lit "declaration_kind" = None)
     ∨ (meta !! lit "entity_type" = Some (MStr (lit "method"))
        ∧ is_Some (meta !! lit "signature")
        ∧ is_Some (meta !! lit "receiver_type")
        ∧ meta !! lit "declaration_kind" = None)
     ∨ (meta !! lit "entity_type" = Some (MStr (lit "type_declaration"))
        ∧ is_Some (meta !! lit "type_definition")
        ∧ is_Some (meta !! lit "type_category")
        ∧ is_Some (meta !! lit "declaration_kind")
        ∧ meta !! lit "signature" = None)
     ∨ (meta !! lit "entity_type" = Some (MStr (lit "value_declaration"))
        ∧ (meta !! lit "declared_type" = None ∨ meta !! lit "inferred_type" = None)
        ∧ is_Some (meta !! lit "declaration_kind")
        ∧ meta !! lit "signature" = None)).

(** [func (s S) F() {}] on the first line of f.go. *)
Definition methodF : FuncDecl :=
  mkFuncDecl (mkPosition 0 1) (mkPosition 17 1)
    (Some [mkField [ident 6 "s"] (IdentNode (ident 8 "S"))]) (ident 11 "F") 0
    None (Some []) None (block 15 []).

Definition methodFDecl : Decl :=
  mkDecl (mkPosition 0 1) (mkPosition 17 1) (FuncDeclOf methodF).

(** The spec of [var _ = 1]. *)
Definition blankSpec : Spec :=
  mkSpec (mkPosition 4 1) (mkPosition 9 1)
    (ValueSpecOf (mkValueSpec [ident 4 "_"] Nil [basicLit 8])).

(** A package with other load errors. *)
Definition withErrors (pkg : Package) (errors : list str) : Package :=
  mkPackage (pkgID pkg) (pkgName pkg) errors (TypesInfo pkg) (Syntax pkg)
            (hasFset pkg).

(** The package cannot be processed. *)
Definition unusable (pkg : Package) : Prop :=
  TypesInfo pkg = None ∨ Syntax pkg = None ∨ hasFset pkg = false.

(** [st1] is [st2] after [prefix] was emitted by [length prefix] earlier
    calls. *)
Definition shiftedBy (prefix : list ChromaDocument) (st1 st2 : State) : Prop :=
  chunks st1 = prefix ++ chunks st2 ∧ calls st1 = length prefix + calls st2.

Definition shiftedOutcome (prefix : list ChromaDocument)
    (r1 r2 : option State) : Prop :=
  match r1, r2 with
  | Some st1, Some st2 => shiftedBy prefix st1 st2
  | None, None => True
  | _, _ => False
  end.

(** The oracle as seen after [n] calls. *)
Definition laterOracle (oracle : nat -> Schedule) (n : nat) : nat -> Schedule :=
  fun k => oracle (n + k).

(** A package the loader could not type-check. *)
Definition brokenPackage : Package :=
  mkPackage (lit "broken") (lit "broken") [] None None true.

(** Replacing by [path] cannot produce a token of the alias [q]: the last
    byte of [q] is nowhere in [path] in front of a dot or at its end. *)
Definition chainFree (q path : str) : Prop :=
  match last q with
  | Some c => Contains (path ++ [dot]) [c; dot] = false
  | None => True
  end.

#[global] Instance chainFree_dec q path : Decision (chainFree q path).
Proof. unfold chainFree. destruct (last q); apply _. Defined.

(** Aliases and paths on which the single pass cannot cascade. *)
Definition cascadeFree (replacements : gmap str str) : Prop :=
  map_Forall (fun q path =>
                q ≠ [] ∧ (dot ∉ q) ∧ path ≠ [] ∧ head path ≠ Some dot
                ∧ map_Forall (fun q' _ => q' = q ∨ chainFree q' path) replacements)
             replacements.

#[global] Instance cascadeFree_dec m : Decision (cascadeFree m).
Proof. unfold cascadeFree. apply _. Defined.

(** ** [processGoProject] of [go_ast_parser.go]

    This version walks each file with [ast.Inspect] and emits a chunk for
    the function declarations only; a function declaration is always a
    top-level declaration of its file, so the walk meets exactly the
    function declarations of [Decls], in order. *)
Module GoAstParserLocator.

(** The log of this version: its warning names the function. *)
Inductive Diagnostic :=
| General (e : LogEntry)
| InvalidFunctionOffsets (name path : str) (startOffset endOffset fileLen : Z).

Record State := mkState {
  chunks : list ChromaDocument;
  logs : list Diagnostic;
  calls : nat
}.

Definition logPrintf (e : Diagnostic) (st : State) : State :=
  mkState (chunks st) (logs st ++ [e]) (calls st).

Section Run.
Variable Fprint : Node -> option str.
Variable ReadFile : str -> option str.
(** The sorted aliases [sort.Slice] leaves at the n-th function. *)
Variable oracle : nat -> list str.

Definition visitFuncDecl (path packageName : str) (info : Info) (content : str)
    (st : State) (decl : Decl) (funcDecl : FuncDecl) : option State :=
  (* funcDecl is the declaration itself: its Pos and End are the declaration's *)
  let startPos := declPos decl in
  let endPos := declEnd decl in
  let startOffset := Offset startPos in
  let endOffset := Offset endPos in
  if invalidOffsets startOffset endOffset content then
    Some (logPrintf (InvalidFunctionOffsets (Name (funcName funcDecl)) path
                       startOffset endOffset (Z.of_nat (length content))) st)
  else
    match slice content startOffset endOffset with
    | None => None
    | Some chunkCode =>
        let replacements := collectReplacements (funcDeclNode funcDecl) info in
        let chunkCode :=
          GoAstParser.replaceQualifiers replacements (oracle (calls st)) chunkCode in
        let metadata : gmap str MetaValue :=
          <[lit "signature" :=
              MStr (getSignature Fprint info (funcParams funcDecl)
                      (funcResults funcDecl))]>
          (<[lit "end_line" := MInt (Line endPos)]>
          (<[lit "start_line" := MInt (Line startPos)]>
          (<[lit "entity_name" := MStr (Name (funcName funcDecl))]>
          (<[lit "entity_type" := MStr (lit "function")]>
          (<[lit "package_name" := MStr packageName]>
          (<[lit "file_path" := MStr path]> ∅)))))) in
        let metadata :=
          match Recv funcDecl with
          | Some (first :: _) =>
              let receiverType := getTypeString Fprint info (Type_ first) in
              <[lit "entity_name" :=
                  MStr (receiverType ++ lit "." ++ Name (funcName funcDecl))]>
              (<[lit "receiver_type" := MStr receiverType]>
              (<[lit "entity_type" := MStr (lit "method")]> metadata))
          | _ => metadata
          end in
        Some (mkState
                (chunks st ++
                 [mkChromaDocument
                    (GoAstParser.chunkID path (Line startPos) (Line endPos))
                    chunkCode metadata])
                (logs st) (S (calls st)))
    end.

(** The callback of [ast.Inspect(file, ...)] at a top-level declaration. *)
Definition visitDecl (path packageName : str) (info : Info) (content : str)
    (st : State) (decl : Decl) : option State :=
  match declKind decl with
  | FuncDeclOf funcDecl => visitFuncDecl path packageName info content st decl funcDecl
  | _ => Some st
  end.

Definition processFile (packageName : str) (info : Info) (st : State)
    (file : File) : option State :=
  match ReadFile (filePath file) with
  | None => Some (logPrintf (General (LogErrorReadingFile (filePath file))) st)
  | Some originalFileBytes =>
      forEach (visitDecl (filePath file) packageName info originalFileBytes)
              (Decls file) st
  end.

Definition processPackage (st : State) (pkg : Package) : option State :=
  match TypesInfo pkg, Syntax pkg, hasFset pkg with
  | Some info, Some files, true =>
      forEach (processFile (pkgName pkg) info) files st
  | _, _, _ => Some (logPrintf (General (LogSkippingPackage (pkgID pkg))) st)
  end.

Definition reportErrors (pkgs : list Package) (st : State) : State :=
  let st :=
    fold_left (fun st pkg =>
                 fold_left (fun st e =>
                              logPrintf (General (LogPackageError (pkgID pkg) e)) st)
                           (Errors pkg) st) pkgs st in
  if bool_decide (Forall (fun pkg => Errors pkg = []) pkgs) then st
  else logPrintf (General LogErrorsOccurred) st.

Inductive Returned :=
| Failed (err : str) (log : list Diagnostic)
| Succeeded (result : list ChromaDocument) (log : list Diagnostic).

Definition processGoProject (projectPath : str)
    (loaded : str + list Package) : option Returned :=
  let st := logPrintf (General (LogLoading projectPath)) (mkState [] [] 0) in
  match loaded with
  | inl err => Some (Failed (lit "failed to load packages: " ++ err) (logs st))
  | inr pkgs =>
      let st := logPrintf (General (LogFinishedLoading (length pkgs))) st in
      let st := reportErrors pkgs st in
      match forEach processPackage pkgs st with
      | Some st => Some (Succeeded (chunks st) (logs st))
      | None => None
      end
  end.
End Run.

(** The function declarations of a file, and the file reduced to them. *)
Definition isFuncDecl (decl : Decl) : Prop :=
  match declKind decl with FuncDeclOf _ => True | _ => False end.

#[global] Instance isFuncDecl_dec decl : Decision (isFuncDecl decl).
Proof. unfold isFuncDecl. destruct (declKind decl); apply _. Defined.

Definition functionsOf (file : File) : File :=
  mkFile (filePath file) (filter isFuncDecl (Decls file)).

Definition functionsOfPackage (pkg : Package) : Package :=
  mkPackage (pkgID pkg) (pkgName pkg) (Errors pkg) (TypesInfo pkg)
            (fmap (map functionsOf) (Syntax pkg)) (hasFset pkg).

(** A chunk of this version: the single-pass rewrite of the span of a
    function declaration with a valid span. *)
Definition functionChunk (oracle : nat -> list str) (path content : str)
    (info : Info) (decl : Decl) (c : ChromaDocument) : Prop :=
  ∃ funcDecl raw k,
    declKind decl = FuncDeclOf funcDecl
    ∧ validSpan (Offset (declPos decl)) (Offset (declEnd decl)) content
    ∧ slice content (Offset (declPos decl)) (Offset (declEnd decl)) = Some raw
    ∧ Document c
      = GoAstParser.replaceQualifiers
          (collectReplacements (funcDeclNode funcDecl) info) (oracle k) raw
    ∧ ID c = GoAstParser.chunkID path (Line (declPos decl)) (Line (declEnd decl))
    ∧ Metadata c !! lit "file_path" = Some (MStr path)
    ∧ Metadata c !! lit "start_line" = Some (MInt (Line (declPos decl)))
    ∧ Metadata c !! lit "end_line" = Some (MInt (Line (declEnd decl))).

Definition chunkOfProject (ReadFile : str -> option str) (oracle : nat -> list str)
    (pkgs : list Package) (c : ChromaDocument) : Prop :=
  ∃ pkg info files file content decl,
    pkg ∈ pkgs ∧ TypesInfo pkg = Some info ∧ Syntax pkg = Some files
    ∧ file ∈ files ∧ ReadFile (filePath file) = Some content
    ∧ decl ∈ Decls file ∧ functionChunk oracle (filePath file) content info decl c.

End GoAstParserLocator.

(** ** The renderer as it runs

    [getTypeString] and [getSignature] once more, this time with what can
    go wrong when they run: a nil [*types.Info] is dereferenced by
    [info.TypeOf] and [info.Uses], the index expressions
    [ft.Results.List[0]] and [results[0]] can be out of range, and the
    mutual recursion is followed to a bounded depth only. *)
Module Runtime.

Inductive Outcome (A : Type) :=
| Done (a : A)
| Panic
| OutOfFuel.
Arguments Done {A} _.
Arguments Panic {A}.
Arguments OutOfFuel {A}.

#[global] Instance Outcome_ret : MRet Outcome := @Done.
#[global] Instance Outcome_bind : MBind Outcome := fun A B f m =>
  match m with
  | Done a => f a
  | Panic => Panic
  | OutOfFuel => OutOfFuel
  end.

(** The index expression [l[i]]. *)
Definition index {A : Type} (l : list A) (i : nat) : Outcome A :=
  match l !! i with
  | Some a => Done a
  | None => Panic
  end.

(** The loop over [ft.Params.List] (or [ft.Results.List]), appending to
    [acc]. *)
Fixpoint renderFields (typeString : Node -> Outcome str) (fields : list Field)
    (acc : list str) : Outcome (list str) :=
  match fields with
  | [] => Done acc
  | field :: rest =>
      typeStr ← typeString (Type_ field);
      renderFields typeString rest
        (match Names field with
         | [] => acc ++ [typeStr]
         | names => acc ++ map (fun name => Name name ++ lit " " ++ typeStr) names
         end)
  end.

Definition renderFieldList (typeString : Node -> Outcome str)
    (fl : option (list Field)) : Outcome (list str) :=
  match fl with
  | None => Done []
  | Some fields => renderFields typeString fields []
  end.

(** [ft.Results.List]: [ft.Results] is dereferenced. *)
Definition List_ (fl : option (list Field)) : Outcome (list Field) :=
  match fl with
  | None => Panic
  | Some fields => Done fields
  end.

Definition signatureWith (typeString : Node -> Outcome str)
    (Params Results : option (list Field)) : Outcome str :=
  params ← renderFieldList typeString Params;
  let paramStr := lit "(" ++ Join params (lit ", ") ++ lit ")" in
  results ← renderFieldList typeString Results;
  resultStr ←
    (if decide (0 < length results) then
       if decide (length results = 1) then
         fields ← List_ Results;
         first ← index fields 0;
         match Names first with
         | [] => r ← index results 0; Done (lit " " ++ r)
         | _ :: _ => Done (lit " (" ++ Join results (lit ", ") ++ lit ")")
         end
       else Done (lit " (" ++ Join results (lit ", ") ++ lit ")")
     else Done []);
  Done (paramStr ++ resultStr).

Section Rendering.
Variable Fprint : Node -> option str.

Fixpoint getTypeString (fuel : nat) (info : option Info) (expr : Node)
    : Outcome str :=
  match fuel with
  | 0 => OutOfFuel
  | S fuel =>
      match info with
      | None => Panic
      | Some types =>
          match TypeOf types expr with
          | Some tv => Done tv
          | None =>
              match expr with
              | IdentNode t => Done (Name t)
              | StarExpr _ X =>
                  x ← getTypeString fuel info X; Done (lit "*" ++ x)
              | ArrayType _ _ Elt =>
                  elt ← getTypeString fuel info Elt; Done (lit "[]" ++ elt)
              | MapType _ Key Value =>
                  key ← getTypeString fuel info Key;
                  value ← getTypeString fuel info Value;
                  Done (lit "map[" ++ key ++ lit "]" ++ value)
              | SelectorExpr X Sel =>
                  let generic :=
                    x ← getTypeString fuel info X; Done (x ++ lit "." ++ Name Sel) in
                  match X with
                  | IdentNode ident =>
                      match Uses types ident with
                      | Some (PkgName importedPath) =>
                          Done (importedPath ++ lit "." ++ Name Sel)
                      | _ => generic
                      end
                  | _ => generic
                  end
              | InterfaceType _ _ => Done (lit "interface{}")
              | ChanType _ Dir Value =>
                  let dir :=
                    if decide (Dir = SEND) then lit "chan<- "
                    else if decide (Dir = RECV) then lit "<-chan "
                    else lit "chan " in
                  value ← getTypeString fuel info Value; Done (dir ++ value)
              | Ellipsis _ Elt =>
                  elt ← getTypeString fuel info Elt; Done (lit "..." ++ elt)
              | FuncType _ _ Params Results =>
                  signature ← signatureWith (getTypeString fuel info) Params Results;
                  Done (lit "func" ++ signature)
              | Nil | StructType _ _ | OtherNode _ _ _ =>
                  match Fprint expr with
                  | Some b => Done b
                  | None => Done (typeTag expr)
                  end
              end
          end
      end
  end.

Definition getSignature (fuel : nat) (info : option Info)
    (Params Results : option (list Field)) : Outcome str :=
  signatureWith (getTypeString fuel info) Params Results.
End Rendering.

End Runtime.

(** The height of a syntax tree. *)
Fixpoint depth (n : Node) : nat :=
  let fields := fun fs : list Field =>
    foldr (fun f d => depth (Type_ f) `max` d) 0 fs in
  let fieldList := fun fl : option (list Field) =>
    match fl with Some fs => fields fs | None => 0 end in
  match n with
  | Nil | IdentNode _ => 0
  | StarExpr _ X => S (depth X)
  | ArrayType _ Len Elt => S (depth Len `max` depth Elt)
  | MapType _ Key Value => S (depth Key `max` depth Value)
  | SelectorExpr X _ => S (depth X)
  | InterfaceType _ Methods => S (fields Methods)
  | StructType _ Fields => S (fields Fields)
  | ChanType _ _ Value => S (depth Value)
  | Ellipsis _ Elt => S (depth Elt)
  | FuncType _ TypeParams Params Results =>
      S (fieldList TypeParams `max` (fieldList Params `max` fieldList Results))
  | OtherNode _ _ children => S (foldr (fun c d => depth c `max` d) 0 children)
  end.

Definition fieldsDepth (fl : option (list Field)) : nat :=
  match fl with
  | Some fs => foldr (fun f d => depth (Type_ f) `max` d) 0 fs
  | None => 0
  end.

(** ** What a run must hold *)

(** A unit of [decl] for which a chunk is due on [content]: the span of
    the declaration and the span of the unit lie inside the file. *)
Definition dueUnit (content : str) (decl : Decl) (startPos endPos : Position)
    (name : str) (node : Node) : Prop :=
  declUnit decl startPos endPos name node
  ∧ validSpan (Offset (declPos decl)) (Offset (declEnd decl)) content
  ∧ validSpan (Offset startPos) (Offset endPos) content.

Section Coverage.
Variable ReadFile : str -> option str.
Variable oracle : nat -> Schedule.

(** [new] holds a chunk for every unit that is due. *)
Definition coversDecl (path content : str) (info : Info) (decl : Decl)
    (new : list ChromaDocument) : Prop :=
  ∀ startPos endPos name node,
    dueUnit content decl startPos endPos name node →
    ∃ c k, c ∈ new ∧ chunkOf oracle path content info k startPos endPos name node c.

Definition coversFile (info : Info) (file : File) (new : list ChromaDocument) : Prop :=
  ∀ content decl, ReadFile (filePath file) = Some content → decl ∈ Decls file →
                  coversDecl (filePath file) content info decl new.

Definition coversPackage (pkg : Package) (new : list ChromaDocument) : Prop :=
  ∀ info files file, TypesInfo pkg = Some info → Syntax pkg = Some files →
                     hasFset pkg = true → file ∈ files → coversFile info file new.
End Coverage.

(** ** The ids of the chunks *)



(** [func A() {}; func B() {}] on the first line of f.go. *)
Definition emptyFunc (startOffset : Z) (name : string) : Decl :=
  mkDecl (mkPosition startOffset 1) (mkPosition (startOffset + 11) 1)
    (FuncDeclOf (mkFuncDecl (mkPosition startOffset 1) (mkPosition (startOffset + 11) 1)
                   None (ident (startOffset + 5) name) startOffset None (Some []) None
                   (block (startOffset + 9) []))).

Definition twoFuncs : File := mkFile (lit "f.go") [emptyFunc 0 "A"; emptyFunc 13 "B"].

Definition noAliases : nat -> list str := fun _ => [].

(** * Properties *)

(** * Facts about [strings.ReplaceAll] *)

Lemma replace_scan_skip old new x y :
  replace_scan old new (length x) (x ++ y) = replace_scan old new 0 y.
Proof.
  induction x as [|c x IH]; simpl; [by destruct y|done].
Qed.

Lemma ReplaceAll_nil old new : old ≠ [] → ReplaceAll [] old new = [].
Proof. by destruct old. Qed.

Lemma ReplaceAll_match old new s :
  old ≠ [] → ReplaceAll (old ++ s) old new = new ++ ReplaceAll s old new.
Proof.
  destruct old as [|c o]; [done|]. intros _. unfold ReplaceAll.
  cbn [app replace_scan]. rewrite decide_True by (by exists s).
  cbn [length]. replace (S (length o) - 1) with (length o) by lia.
  by rewrite replace_scan_skip.
Qed.

Lemma ReplaceAll_miss old new c s :
  ¬ old `prefix_of` (c :: s) →
  ReplaceAll (c :: s) old new = c :: ReplaceAll s old new.
Proof.
  intros Hn. destruct old as [|d o]; [destruct Hn; apply prefix_nil|].
  unfold ReplaceAll. cbn [replace_scan]. by rewrite decide_False.
Qed.

Lemma ReplaceAll_absent old new s :
  old ≠ [] → ¬ occursIn old s → ReplaceAll s old new = s.
Proof.
  intros Hne. induction s as [|c s IH]; intros Hno.
  - by apply ReplaceAll_nil.
  - rewrite ReplaceAll_miss.
    + f_equal. apply IH. intros (x & y & ->). apply Hno.
      by exists (c :: x), y.
    + intros [k Hk]. apply Hno. exists [], k. by rewrite Hk.
Qed.

Lemma noStraddle_suffix old x1 x2 y :
  noStraddle old (x1 ++ x2) y → noStraddle old x2 y.
Proof.
  intros H a b -> Hb Hp. apply (H (x1 ++ a) b); [by rewrite <-(assoc_L (++))|done..].
Qed.

Lemma ReplaceAll_app old new x y :
  old ≠ [] → noStraddle old x y →
  ReplaceAll (x ++ y) old new = ReplaceAll x old new ++ ReplaceAll y old new.
Proof.
  intros Hne. remember (length x) as n eqn:Hn. revert x Hn.
  induction n as [n IH] using lt_wf_ind. intros x -> Hs.
  destruct x as [|c x].
  - by rewrite ReplaceAll_nil.
  - destruct (decide (old `prefix_of` ((c :: x) ++ y))) as [Hp|Hp].
    + apply (Hs [] (c :: x)) in Hp; [|done..]. destruct Hp as [k Hk].
      rewrite Hk. rewrite <-(assoc_L (++)). rewrite !ReplaceAll_match by done.
      rewrite <-(assoc_L (++)).
      f_equal. apply (IH (length k)); [|done|].
      * rewrite Hk, length_app. destruct old; [done|simpl; lia].
      * rewrite Hk in Hs. by apply noStraddle_suffix in Hs.
    + cbn [app] in *. rewrite !ReplaceAll_miss; [| |done].
      * cbn [app]. f_equal. apply (IH (length x)); [simpl; lia|done|].
        by apply (noStraddle_suffix _ [c]).
      * intros [k Hk]. apply Hp. exists (k ++ y). by rewrite (assoc_L (++)), <-Hk.
Qed.

Lemma noStraddle_dot a x y :
  dot ∉ a → noStraddle (a ++ [dot]) (x ++ [dot]) y.
Proof.
  intros Ha x1 x2 Hx Hne [k Hk].
  destruct (decide (x2 = [])) as [|_]; [done|].
  assert (∃ x2', x2 = x2' ++ [dot]) as [x2' ->].
  { destruct (exists_last Hne) as (x2' & c & ->). exists x2'.
    rewrite (assoc_L (++)) in Hx. by apply app_inj_tail in Hx as [_ ->]. }
  rewrite <-!(assoc_L (++)) in Hk.
  apply app_eq_inv in Hk as [(k' & -> & Hk)|(k' & -> & Hk)].
  - destruct k' as [|c k']; [exists []; by rewrite !(right_id_L [] (++))|].
    simplify_eq/=. exists (k' ++ [dot]). by rewrite <-!(assoc_L (++)).
  - destruct k' as [|c k']; [exists []; by rewrite !(right_id_L [] (++))|].
    simplify_eq/=. destruct Ha. set_solver.
Qed.

Lemma ReplaceAll_dot_terminated a n x :
  ∃ x', ReplaceAll (x ++ [dot]) (a ++ [dot]) (n ++ [dot]) = x' ++ [dot].
Proof.
  assert (Hne : a ++ [dot] ≠ []) by (by destruct a).
  remember (length x) as m eqn:Hm. revert x Hm.
  induction m as [m IH] using lt_wf_ind. intros x ->.
  destruct (decide ((a ++ [dot]) `prefix_of` (x ++ [dot]))) as [[k Hk]|Hp].
  - rewrite Hk, ReplaceAll_match by done.
    destruct (decide (k = [])) as [->|Hkne].
    + exists n. by rewrite ReplaceAll_nil, (right_id_L [] (++)).
    + destruct (exists_last Hkne) as (k' & c & ->).
      rewrite !(assoc_L (++)) in Hk. apply app_inj_tail in Hk as [Hx <-].
      destruct (IH (length k')) with (x := k') as [x' ->]; [|done|].
      * rewrite Hx, !length_app. simpl. lia.
      * exists (n ++ [dot] ++ x'). by rewrite <-!(assoc_L (++)).
  - destruct x as [|c x]; cbn [app] in *.
    + exists []. by rewrite ReplaceAll_miss, ReplaceAll_nil.
    + rewrite ReplaceAll_miss by done.
      destruct (IH (length x)) with (x := x) as [x' ->]; [simpl; lia|done|].
      by exists (c :: x').
Qed.

(** * Cutting at a separator byte *)

Lemma first_sep_unique (c : ascii) a w k k' :
  c ∉ a → c ∉ w → a ++ c :: k = w ++ c :: k' → a = w ∧ k = k'.
Proof.
  revert w. induction a as [|d a IH]; intros [|e w] Ha Hw Heq.
  - by simplify_eq/=.
  - simplify_eq/=. destruct Hw. by left.
  - simplify_eq/=. destruct Ha. by left.
  - injection Heq as -> Heq. apply not_elem_of_cons in Ha as [_ Ha].
    apply not_elem_of_cons in Hw as [_ Hw].
    by destruct (IH w Ha Hw Heq) as [-> ->].
Qed.

Lemma last_sep_unique (c : ascii) x y d1 d2 :
  c ∉ d1 → c ∉ d2 → x ++ c :: d1 = y ++ c :: d2 → x = y ∧ d1 = d2.
Proof.
  intros H1 H2 Heq. apply (f_equal reverse) in Heq.
  rewrite !reverse_app, !reverse_cons, <-!(assoc_L (++)) in Heq. simpl in Heq.
  apply first_sep_unique in Heq as [Hd Hx].
  - split; [by apply (inj reverse)|by apply (inj reverse)].
  - by rewrite elem_of_reverse.
  - by rewrite elem_of_reverse.
Qed.

Lemma occursIn_Contains old s : occursIn old s → Contains s old = true.
Proof.
  intros (x & y & ->). induction x as [|c x IH]; simpl.
  - destruct y, old; simpl; rewrite ?decide_True; try done;
      try (by eexists); by apply prefix_nil.
  - rewrite IH. by case_decide.
Qed.

Lemma Contains_false old s : Contains s old = false → ¬ occursIn old s.
Proof. intros H Ho. apply occursIn_Contains in Ho. congruence. Qed.

Lemma occursIn_app_l old s x : occursIn old s → occursIn old (x ++ s).
Proof.
  intros (a & b & ->). exists (x ++ a), b. by rewrite <-(assoc_L (++)).
Qed.

Lemma occursIn_app_r old s y : occursIn old s → occursIn old (s ++ y).
Proof.
  intros (a & b & ->). exists a, (b ++ y). by rewrite <-!(assoc_L (++)).
Qed.

(** * A single run *)

Lemma rewriteSuffix_miss a p w : ¬ a `suffix_of` w → rewriteSuffix a p w = w.
Proof. intros. unfold rewriteSuffix. by rewrite decide_False. Qed.

Lemma rewriteSuffix_hit a p u : rewriteSuffix a p (u ++ a) = u ++ p.
Proof.
  unfold rewriteSuffix. rewrite decide_True by (by exists u).
  rewrite length_app. replace (length u + length a - length a) with (length u) by lia.
  by rewrite take_app_length.
Qed.

Lemma rewriteSuffix_self a p : rewriteSuffix a p a = p.
Proof. apply (rewriteSuffix_hit a p []). Qed.

Lemma ReplaceAll_run a p w :
  dot ∉ a → dot ∉ w →
  ReplaceAll (w ++ [dot]) (a ++ [dot]) (p ++ [dot]) = rewriteSuffix a p w ++ [dot].
Proof.
  intros Ha. assert (Hne : a ++ [dot] ≠ []) by (by destruct a).
  induction w as [|c w IH]; intros Hw.
  - destruct a as [|d a].
    + rewrite <-(right_id_L [] (++) ([] ++ [dot])) at 1.
      rewrite ReplaceAll_match, ReplaceAll_nil by done.
      by rewrite rewriteSuffix_self, (right_id_L [] (++)).
    + cbn [app]. rewrite ReplaceAll_miss, ReplaceAll_nil; [|done|].
      * rewrite rewriteSuffix_miss; [done|]. intros [k Hk]. by destruct k.
      * intros [k Hk]. apply not_elem_of_cons in Ha as [Hd Ha].
        injection Hk as -> Hk. by destruct a.
  - destruct (decide ((a ++ [dot]) `prefix_of` ((c :: w) ++ [dot]))) as [[k Hk]|Hp].
    + rewrite <-(assoc_L (++)) in Hk. symmetry in Hk.
      apply first_sep_unique in Hk as [-> ->]; [|done..].
      rewrite <-(right_id_L [] (++) ((c :: w) ++ [dot])) at 1.
      rewrite ReplaceAll_match, ReplaceAll_nil by done.
      by rewrite rewriteSuffix_self, (right_id_L [] (++)).
    + apply not_elem_of_cons in Hw as [_ Hw].
      cbn [app] in *. rewrite ReplaceAll_miss, IH by done.
      unfold rewriteSuffix. destruct (decide (a `suffix_of` w)) as [Hs|Hs].
      * rewrite decide_True by (by apply suffix_cons_r).
        cbn [length]. apply suffix_length in Hs.
        replace (S (length w) - length a) with (S (length w - length a)) by lia.
        done.
      * rewrite decide_False; [done|]. intros Hs'.
        destruct a as [|d a]; [destruct Hs; apply suffix_nil|].
        apply suffix_cons_inv in Hs' as [Heq|?]; [|done].
        apply Hp. rewrite Heq. exists []. by rewrite (right_id_L [] (++)).
Qed.

(** * A pass: a sequence of replacements of [old.] by [new.] *)

Lemma firstPass_replacePass tm qs s :
  firstPass tm qs s = replacePass (map (fun q => (q, mapGet tm q)) qs) s.
Proof. revert s. induction qs as [|q qs IH]; intros s; [done|apply IH]. Qed.

Lemma secondPass_replacePass fm ps s :
  secondPass fm ps s = replacePass (map (fun p => (p, mapGet fm p)) ps) s.
Proof. revert s. induction ps as [|p ps IH]; intros s; [done|apply IH]. Qed.

Lemma replacePass_app pairs x y :
  Forall (fun on => dot ∉ on.1) pairs →
  replacePass pairs ((x ++ [dot]) ++ y)
  = replacePass pairs (x ++ [dot]) ++ replacePass pairs y.
Proof.
  intros Hp. revert x y. induction Hp as [|[o n] pairs Ho _ IH]; intros x y; [done|].
  cbn [replacePass fold_left fst snd]. fold (replacePass pairs).
  rewrite ReplaceAll_app; [|by destruct o|by apply noStraddle_dot].
  destruct (ReplaceAll_dot_terminated o n x) as [x' ->]. apply IH.
Qed.

Lemma dot_not_occurs old t : dot ∉ t → ¬ occursIn (old ++ [dot]) t.
Proof.
  intros Ht (x & y & ->). apply Ht.
  rewrite !elem_of_app. right. left. right. by left.
Qed.

Lemma replacePass_tail pairs t : dot ∉ t → replacePass pairs t = t.
Proof.
  intros Ht. induction pairs as [|[o n] pairs IH]; [done|].
  cbn [replacePass fold_left fst snd]. fold (replacePass pairs).
  rewrite ReplaceAll_absent; [done|by destruct o|by apply dot_not_occurs].
Qed.

Lemma replacePass_joinDots pairs runs tail :
  Forall (fun on => dot ∉ on.1) pairs → dot ∉ tail →
  replacePass pairs (joinDots runs tail)
  = flat_map (fun w => replacePass pairs (w ++ [dot])) runs ++ tail.
Proof.
  intros Hp Ht. unfold joinDots. induction runs as [|w runs IH].
  - by apply replacePass_tail.
  - cbn [flat_map]. rewrite <-(assoc_L (++) (w ++ [dot])), replacePass_app, IH by done.
    by rewrite <-!(assoc_L (++)).
Qed.

Lemma replacePass_cat p1 p2 s :
  replacePass (p1 ++ p2) s = replacePass p2 (replacePass p1 s).
Proof. apply fold_left_app. Qed.

(** * Cutting a text at its dots *)

Lemma splitDots_join s :
  joinDots (splitDots s).1 (splitDots s).2 = s.
Proof.
  induction s as [|c s IH]; [done|]. cbn [splitDots].
  destruct (splitDots s) as [runs tail]. simpl in IH.
  case_decide as Hc.
  - subst c. simpl. by rewrite <-IH.
  - destruct runs as [|w runs]; simpl in *; by rewrite <-IH.
Qed.

Lemma splitDots_dotfree s :
  Forall (fun w => dot ∉ w) (splitDots s).1 ∧ dot ∉ (splitDots s).2.
Proof.
  induction s as [|c s [IH1 IH2]]; cbn [splitDots].
  - split; [constructor|apply not_elem_of_nil].
  - destruct (splitDots s) as [runs tail]. simpl in *. case_decide as Hc.
    + split; [|done]. constructor; [apply not_elem_of_nil|done].
    + destruct runs as [|w runs]; simpl.
      * split; [done|]. by apply not_elem_of_cons.
      * apply Forall_cons in IH1 as [Hw Hr]. split; [|done].
        constructor; [|done]. by apply not_elem_of_cons.
Qed.

Lemma run_occursIn w runs tail : w ∈ runs → occursIn w (joinDots runs tail).
Proof.
  intros Hw. apply list_elem_of_split in Hw as (r1 & r2 & ->).
  unfold joinDots. rewrite flat_map_app. cbn [flat_map].
  exists (flat_map (fun w => w ++ [dot]) r1),
         ([dot] ++ flat_map (fun w => w ++ [dot]) r2 ++ tail).
  by rewrite <-!(assoc_L (++)).
Qed.

Lemma occursIn_trans a b c : occursIn a b → occursIn b c → occursIn a c.
Proof.
  intros (x & y & ->) (x' & y' & ->). exists (x' ++ x), (y ++ y').
  by rewrite <-!(assoc_L (++)).
Qed.

(** * Decimal numerals and placeholders *)

Lemma lit_inj s1 s2 : lit s1 = lit s2 → s1 = s2.
Proof.
  intros H. apply (f_equal string_of_list_ascii) in H.
  unfold lit in H. by rewrite !string_of_list_ascii_of_string in H.
Qed.

Lemma Itoa_inj i j : Itoa i = Itoa j → i = j.
Proof.
  intros H. apply lit_inj in H.
  assert (Hnn : ∀ z, Z.to_int z ≠ Decimal.Pos Decimal.Nil
                     ∧ Z.to_int z ≠ Decimal.Neg Decimal.Nil).
  { intros [|p|p]; simpl; split; try discriminate;
      intros [= Hp]; by apply DecimalPos.Unsigned.to_uint_nonnil in Hp. }
  apply (f_equal NilZero.int_of_string) in H.
  rewrite !NilZero.isi in H by apply Hnn.
  injection H as H. apply (f_equal Z.of_int) in H.
  by rewrite !DecimalZ.of_to in H.
Qed.

Lemma uint_digits d : Forall digitByte (lit (NilEmpty.string_of_uint d)).
Proof.
  induction d; simpl; try constructor; try done; by split_and!.
Qed.

Lemma uint_zero_digits d : Forall digitByte (lit (NilZero.string_of_uint d)).
Proof.
  unfold NilZero.string_of_uint. destruct d; try apply uint_digits.
  by repeat constructor.
Qed.

Lemma uint_zero_nonempty d : lit (NilZero.string_of_uint d) ≠ [].
Proof. by destruct d. Qed.

Lemma Itoa_cases z :
  (Itoa z ≠ [] ∧ Forall digitByte (Itoa z))
  ∨ (∃ d, Itoa z = minusSign :: d ∧ Forall digitByte d).
Proof.
  unfold Itoa. destruct (Z.to_int z) as [d|d]; simpl.
  - left. split; [apply uint_zero_nonempty|apply uint_zero_digits].
  - right. eexists. split; [done|apply uint_zero_digits].
Qed.

Lemma Itoa_plain i : Forall plainByte (Itoa i).
Proof.
  destruct (Itoa_cases i) as [[_ H]|(d & -> & H)].
  - eapply Forall_impl; [exact H|]. by intros c (? & ? & _).
  - constructor; [by split|].
    eapply Forall_impl; [exact H|]. by intros c (? & ? & _).
Qed.

Lemma Itoa_no_underscore i : underscore ∉ Itoa i.
Proof.
  intros H. pose proof (Itoa_plain i) as Hp. rewrite Forall_forall in Hp.
  by destruct (Hp _ H).
Qed.

Lemma Itoa_no_dot i : dot ∉ Itoa i.
Proof.
  intros H. pose proof (Itoa_plain i) as Hp. rewrite Forall_forall in Hp.
  by destruct (Hp _ H).
Qed.

Lemma placeholder_no_dot i : dot ∉ placeholderFor i.
Proof.
  unfold placeholderFor. rewrite !elem_of_app. intros [H|[H|H]].
  - vm_compute in H. by repeat (apply elem_of_cons in H as [?|H]; [done|]);
      apply elem_of_nil in H.
  - by apply Itoa_no_dot in H.
  - by repeat (apply elem_of_cons in H as [?|H]; [done|]); apply elem_of_nil in H.
Qed.

Lemma placeholder_last i : ∃ body, placeholderFor i = body ++ [underscore].
Proof.
  exists (placeholderPrefix ++ Itoa i ++ [underscore]).
  unfold placeholderFor. by rewrite <-!(assoc_L (++)).
Qed.

Lemma placeholder_sentinel i : occursIn placeholderPrefix (placeholderFor i).
Proof. by exists [], (Itoa i ++ lit "__"). Qed.

Lemma placeholder_suffix_inj i j u :
  placeholderFor j `suffix_of` (u ++ placeholderFor i) → j = i.
Proof.
  intros [k Hk]. unfold placeholderFor in Hk.
  rewrite !(assoc_L (++)) in Hk.
  apply app_inj_2 in Hk as [Hk _]; [|done].
  change placeholderPrefix with (lit "__GO_QUALIFIER_TEMP" ++ [underscore]) in Hk.
  rewrite <-!(assoc_L (++)) in Hk.
  rewrite !(assoc_L (++) _ _ ([underscore] ++ _)) in Hk.
  apply last_sep_unique in Hk as [_ Hk];
    [by symmetry; apply Itoa_inj|apply Itoa_no_underscore..].
Qed.

(** * The two passes on a single run *)

Lemma aliasOK_not_suffix q u i :
  aliasOK q → ¬ q `suffix_of` (u ++ placeholderFor i).
Proof.
  intros (Hne & _ & Hlast) [k Hk].
  destruct (placeholder_last i) as [body Hb]. rewrite Hb in Hk.
  destruct (exists_last Hne) as (q' & c & ->).
  rewrite last_snoc in Hlast. rewrite !(assoc_L (++)) in Hk.
  apply app_inj_tail in Hk as [_ Hc]. congruence.
Qed.

Lemma firstPass_fired tm qs u i :
  Forall aliasOK qs → dot ∉ u →
  replacePass (firstPairs tm qs) ((u ++ placeholderFor i) ++ [dot])
  = (u ++ placeholderFor i) ++ [dot].
Proof.
  intros Hqs Hu. induction Hqs as [|q qs Hq _ IH]; [done|].
  cbn [firstPairs map replacePass fold_left fst snd].
  rewrite ReplaceAll_run, rewriteSuffix_miss.
  - apply IH.
  - by apply aliasOK_not_suffix.
  - apply Hq.
  - rewrite elem_of_app. intros [?|?]; [done|by eapply placeholder_no_dot].
Qed.

Lemma firstPass_run tm qs w :
  Forall (fun q => aliasOK q ∧ ∃ i, mapGet tm q = placeholderFor i) qs →
  dot ∉ w →
  replacePass (firstPairs tm qs) (w ++ [dot])
  = match firstQualifier qs w with
    | Some q => take (length w - length q) w ++ mapGet tm q
    | None => w
    end ++ [dot].
Proof.
  intros Hqs Hw. induction Hqs as [|q qs [Hq [i Hi]] Hqs IH]; [done|].
  cbn [firstPairs map replacePass fold_left fst snd firstQualifier].
  rewrite ReplaceAll_run by (done || apply Hq). unfold rewriteSuffix.
  destruct (decide (q `suffix_of` w)) as [Hs|Hs]; [|apply IH].
  rewrite Hi. apply firstPass_fired.
  - eapply Forall_impl; [exact Hqs|]. by intros ? [? _].
  - intros Hd. apply Hw. rewrite <-(take_drop (length w - length q) w).
    apply elem_of_app. by left.
Qed.

Lemma secondPass_unfired fm ps w :
  Forall (fun p => ∃ j, p = placeholderFor j) ps →
  dot ∉ w → ¬ occursIn placeholderPrefix w →
  replacePass (secondPairs fm ps) (w ++ [dot]) = w ++ [dot].
Proof.
  intros Hps Hw Hs. induction Hps as [|p ps [j ->] _ IH]; [done|].
  cbn [secondPairs map replacePass fold_left fst snd].
  rewrite ReplaceAll_run, rewriteSuffix_miss; [apply IH| |apply placeholder_no_dot|done].
  intros [k ->]. apply Hs. apply occursIn_app_l, placeholder_sentinel.
Qed.

Lemma resolved_absent u path j :
  dot ∉ u → ¬ occursIn placeholderPrefix u → pathOK path →
  ¬ occursIn (placeholderFor j ++ [dot]) ((u ++ path) ++ [dot]).
Proof.
  intros Hu Hs Hp (x & y & Heq).
  rewrite <-!(assoc_L (++)) in Heq. rewrite (assoc_L (++) x) in Heq.
  apply app_eq_inv in Heq as [(k & -> & Hk)|(k & Hx & Hk)].
  - apply Hs. apply occursIn_app_r, occursIn_app_l, placeholder_sentinel.
  - destruct (decide (k = [])) as [->|Hne].
    + rewrite (right_id_L [] (++)) in Hx. apply Hs. rewrite <-Hx.
      apply occursIn_app_l, placeholder_sentinel.
    + destruct (exists_last Hne) as (k' & c & ->).
      destruct (placeholder_last j) as [body Hb]. rewrite Hb in Hx.
      rewrite !(assoc_L (++)) in Hx. apply app_inj_tail in Hx as [_ <-].
      apply Contains_false in Hp. apply Hp. exists k', y.
      rewrite Hk. by rewrite <-!(assoc_L (++)).
Qed.

Lemma secondPass_resolved fm ps u path :
  Forall (fun p => ∃ j, p = placeholderFor j) ps →
  dot ∉ u → ¬ occursIn placeholderPrefix u → pathOK path →
  replacePass (secondPairs fm ps) ((u ++ path) ++ [dot]) = (u ++ path) ++ [dot].
Proof.
  intros Hps Hu Hs Hp. induction Hps as [|p ps [j ->] _ IH]; [done|].
  cbn [secondPairs map replacePass fold_left fst snd].
  rewrite ReplaceAll_absent; [apply IH| |by apply resolved_absent].
  by destruct (placeholderFor j).
Qed.

Lemma secondPass_fired fm ps u i :
  Forall (fun p => ∃ j, p = placeholderFor j) ps →
  placeholderFor i ∈ ps →
  dot ∉ u → ¬ occursIn placeholderPrefix u →
  pathOK (mapGet fm (placeholderFor i)) →
  replacePass (secondPairs fm ps) ((u ++ placeholderFor i) ++ [dot])
  = (u ++ mapGet fm (placeholderFor i)) ++ [dot].
Proof.
  intros Hps Hin Hu Hs Hp. induction Hps as [|p ps [j ->] Hps IH].
  { by apply elem_of_nil in Hin. }
  cbn [secondPairs map replacePass fold_left fst snd].
  rewrite ReplaceAll_run;
    [|apply placeholder_no_dot
     |rewrite elem_of_app; intros [?|?]; [done|by eapply placeholder_no_dot]].
  destruct (decide (j = i)) as [->|Hji].
  - rewrite rewriteSuffix_hit. by apply secondPass_resolved.
  - rewrite rewriteSuffix_miss.
    + apply IH. apply elem_of_cons in Hin as [Heq|]; [|done].
      destruct Hji. eapply (placeholder_suffix_inj _ _ []). rewrite Heq. done.
    + intros Hsuf. by apply placeholder_suffix_inj in Hsuf.
Qed.

(** * The numbering of the aliases *)

Lemma placeholderFor_inj i j : placeholderFor i = placeholderFor j → i = j.
Proof.
  intros H. apply (placeholder_suffix_inj j i []). rewrite H. by exists [].
Qed.

Lemma assignPlaceholders_spec entries i tm0 fm0 :
  NoDup entries.*1 →
  let r := assignPlaceholders i entries tm0 fm0 in
  (∀ q p, (q, p) ∈ entries →
     ∃ j, r.1 !! q = Some (placeholderFor j) ∧ r.2 !! placeholderFor j = Some p)
  ∧ (∀ q, q ∉ entries.*1 → r.1 !! q = tm0 !! q)
  ∧ (∀ pl v, r.2 !! pl = Some v →
       fm0 !! pl = Some v ∨ ∃ j, pl = placeholderFor j)
  ∧ (∀ j, (j < i)%Z → r.2 !! placeholderFor j = fm0 !! placeholderFor j).
Proof.
  revert i tm0 fm0. induction entries as [|[q0 p0] rest IH]; intros i tm0 fm0 Hnd.
  - simpl. split_and!; [|done|by left|done].
    intros q p Hin. by apply elem_of_nil in Hin.
  - cbn [fmap list_fmap fst] in Hnd. apply NoDup_cons in Hnd as [Hq0 Hnd].
    cbn [assignPlaceholders].
    destruct (IH (i + 1)%Z (<[q0 := placeholderFor i]> tm0)
                (<[placeholderFor i := p0]> fm0) Hnd) as (H1 & H2 & H3 & H4).
    cbv zeta in *. split_and!.
    + intros q p Hin. apply elem_of_cons in Hin as [[= -> ->]|Hin]; [|by apply H1].
      exists i. rewrite H2, H4 by (done || lia). by rewrite !lookup_insert_eq.
    + intros q Hq. cbn [fmap list_fmap fst] in Hq.
      apply not_elem_of_cons in Hq as [Hne Hq].
      by rewrite H2, lookup_insert_ne.
    + intros pl v Hpl. apply H3 in Hpl as [Hpl|Hpl]; [|by right].
      apply lookup_insert_Some in Hpl as [[<- _]|[_ Hpl]]; [right; by eexists|by left].
    + intros j Hj. rewrite H4 by lia. rewrite lookup_insert_ne; [done|].
      intros Heq. apply placeholderFor_inj in Heq. lia.
Qed.

Lemma firstQualifier_Some qs w q :
  firstQualifier qs w = Some q → q ∈ qs ∧ q `suffix_of` w.
Proof.
  induction qs as [|q' qs IH]; [done|]. cbn [firstQualifier].
  case_decide as Hs.
  - intros [= ->]. split; [by left|done].
  - intros H. destruct (IH H). split; [by right|done].
Qed.

Lemma validSchedule_facts m sc :
  validSchedule m sc →
  ScheduleFacts m sc (assignPlaceholders 0 (rangeReplacements sc) ∅ ∅).1
                     (assignPlaceholders 0 (rangeReplacements sc) ∅ ∅).2.
Proof.
  intros (Hr & Hq & _ & Hp & _).
  assert (Hnd : NoDup (rangeReplacements sc).*1).
  { rewrite Hr. apply NoDup_fst_map_to_list. }
  destruct (assignPlaceholders_spec _ 0 ∅ ∅ Hnd) as (H1 & H2 & H3 & _).
  cbv zeta in *.
  set (tm := (assignPlaceholders 0 (rangeReplacements sc) ∅ ∅).1) in *.
  set (fm := (assignPlaceholders 0 (rangeReplacements sc) ∅ ∅).2) in *.
  assert (Hent : ∀ q p, (q, p) ∈ rangeReplacements sc ↔ m !! q = Some p).
  { intros q p. rewrite Hr. apply elem_of_map_to_list. }
  assert (Hkeys : ∀ q, q ∈ sortedOldQualifiers sc ↔ is_Some (tm !! q)).
  { intros q. rewrite Hq, list_elem_of_fmap. split.
    - intros ([q' p] & -> & Hin). apply elem_of_map_to_list in Hin. by eexists.
    - intros [p Hin]. exists (q, p). split; [done|]. by apply elem_of_map_to_list. }
  split.
  - intros q. rewrite Hkeys. split.
    + intros Hs. destruct (decide (q ∈ (rangeReplacements sc).*1)) as [Hin|Hin].
      * apply list_elem_of_fmap in Hin as ([q' p] & -> & Hin).
        apply Hent in Hin. by eexists.
      * rewrite (H2 _ Hin), lookup_empty in Hs. by destruct Hs.
    + intros [p Hm]. apply Hent, H1 in Hm as (j & -> & _). by eexists.
  - rewrite Hq. apply NoDup_fst_map_to_list.
  - intros q p Hm. apply Hent, H1 in Hm as (j & Ht & Hf). exists j.
    unfold mapGet. rewrite Ht, Hf. split_and!; [done..|].
    rewrite Hp, list_elem_of_fmap. exists (placeholderFor j, p).
    split; [done|]. by apply elem_of_map_to_list.
  - apply Forall_forall. intros pl Hpl.
    rewrite Hp in Hpl. apply list_elem_of_fmap in Hpl as ([pl' v] & -> & Hin).
    apply elem_of_map_to_list, H3 in Hin as [Hin|Hin]; [|done].
    by rewrite lookup_empty in Hin.
Qed.

(** * The canonicalizer as a rewrite of runs *)

Lemma occursIn_take old w n : occursIn old (take n w) → occursIn old w.
Proof.
  intros H. rewrite <-(take_drop n w). by apply occursIn_app_r.
Qed.

Lemma rewrite_run m sc w :
  validSchedule m sc → collisionFree m →
  dot ∉ w → ¬ occursIn placeholderPrefix w →
  let maps := assignPlaceholders 0 (rangeReplacements sc) ∅ ∅ in
  replacePass (firstPairs maps.1 (sortedOldQualifiers sc)
               ++ secondPairs maps.2 (sortedPlaceholders sc)) (w ++ [dot])
  = rewriteRun m (sortedOldQualifiers sc) w ++ [dot].
Proof.
  intros Hv Hc Hw Hs maps. destruct (validSchedule_facts m sc Hv) as [Hq _ Hn Hp].
  fold maps in Hq, Hn, Hp.
  rewrite replacePass_cat, firstPass_run; [|apply Forall_forall|done].
  - unfold rewriteRun.
    destruct (firstQualifier (sortedOldQualifiers sc) w) as [q|] eqn:Hf.
    + apply firstQualifier_Some in Hf as [Hin Hsuf].
      apply Hq in Hin as [p Hm]. destruct (Hn q p Hm) as (i & -> & Hfm & Hi).
      rewrite secondPass_fired; [| done..| | |].
      * rewrite Hfm. unfold mapGet. by rewrite Hm.
      * intros Hd. apply Hw. rewrite <-(take_drop (length w - length q) w).
        apply elem_of_app. by left.
      * intros Ho. by apply occursIn_take, Hs in Ho.
      * rewrite Hfm. by destruct (Hc q p Hm).
    + by apply secondPass_unfired.
  - intros q Hin. apply Hq in Hin as [p Hm]. split; [by destruct (Hc q p Hm)|].
    destruct (Hn q p Hm) as (i & Hi & _). by exists i.
Qed.

Lemma rewriteQualifiers_runs m sc chunkCode :
  validSchedule m sc → collisionFree m → sentinelFree chunkCode →
  rewriteQualifiers sc m chunkCode
  = rewriteRuns m (sortedOldQualifiers sc) chunkCode.
Proof.
  intros Hv Hc Hs. unfold rewriteQualifiers, rewriteRuns.
  pose proof (splitDots_join chunkCode) as Hj.
  destruct (splitDots_dotfree chunkCode) as [Hruns Htail].
  destruct (splitDots chunkCode) as [runs tail]. cbn [fst snd] in *.
  destruct (validSchedule_facts m sc Hv) as [Hq _ Hn Hp].
  case_decide as Hsize.
  - apply map_size_empty_inv in Hsize. subst m.
    assert (sortedOldQualifiers sc = []) as ->.
    { destruct (sortedOldQualifiers sc) as [|q qs]; [done|].
      destruct (proj1 (Hq q)) as [p Hp']; [by left|]. by rewrite lookup_empty in Hp'. }
    rewrite <-Hj at 1. f_equal. unfold rewriteRun. simpl.
    by rewrite map_id.
  - destruct (assignPlaceholders 0 (rangeReplacements sc) ∅ ∅) as [tm fm] eqn:Ha.
    rewrite secondPass_replacePass, firstPass_replacePass, <-replacePass_cat.
    rewrite <-Hj at 1. rewrite replacePass_joinDots; [|apply Forall_app; split|done].
    + unfold joinDots. f_equal.
      assert (Hall : Forall (fun w => (dot ∉ w) ∧ ¬ occursIn placeholderPrefix w) runs).
      { apply Forall_forall. intros w Hw. rewrite Forall_forall in Hruns.
        split; [by apply Hruns|]. intros Ho. apply Contains_false in Hs. apply Hs.
        rewrite <-Hj. eapply occursIn_trans; [exact Ho|by apply run_occursIn]. }
      clear Hj Hruns. induction Hall as [|w runs [Hw Hws] _ IH]; [done|].
      cbn [map flat_map]. rewrite IH. f_equal.
      pose proof (rewrite_run m sc w Hv Hc Hw Hws) as Hr.
      cbv zeta in Hr. by rewrite Ha in Hr.
    + apply Forall_forall. intros [o n] Hin.
      apply list_elem_of_fmap in Hin as (q & [= -> ->] & Hin). cbn [fst].
      apply Hq in Hin as [p Hm]. by destruct (Hc q p Hm) as [(_ & ? & _) _].
    + apply Forall_forall. intros [o n] Hin.
      apply list_elem_of_fmap in Hin as (pl & [= -> ->] & Hin). cbn [fst].
      rewrite Forall_forall in Hp. destruct (Hp _ Hin) as [j ->].
      apply placeholder_no_dot.
Qed.

(** * Independence of the order among aliases of equal length *)

Lemma suffix_same_length (a b w : str) :
  a `suffix_of` w → b `suffix_of` w → length a = length b → a = b.
Proof.
  intros [k1 ->] [k2 Hk] Hlen. by apply app_inj_2 in Hk as [_ ->].
Qed.

Lemma firstQualifier_None qs w :
  firstQualifier qs w = None → ∀ q, q ∈ qs → ¬ q `suffix_of` w.
Proof.
  induction qs as [|q' qs IH]; intros Hf q Hq.
  - by apply elem_of_nil in Hq.
  - cbn [firstQualifier] in Hf. case_decide as Hs; [done|].
    apply elem_of_cons in Hq as [->|Hq]; [done|by apply IH].
Qed.

Lemma firstQualifier_longest qs w q :
  sortedBy longerFirst qs → firstQualifier qs w = Some q →
  ∀ q', q' ∈ qs → q' `suffix_of` w → length q' ≤ length q.
Proof.
  intros Hsorted. induction Hsorted as [|q0 qs _ IH Hall]; intros Hf q' Hq' Hs'.
  - by apply elem_of_nil in Hq'.
  - cbn [firstQualifier] in Hf. case_decide as Hs.
    + injection Hf as ->. apply elem_of_cons in Hq' as [->|Hq']; [done|].
      rewrite Forall_forall in Hall. specialize (Hall q' Hq').
      unfold longerFirst in Hall. lia.
    + apply elem_of_cons in Hq' as [->|Hq']; [done|by apply IH].
Qed.

Lemma firstQualifier_order qs1 qs2 w :
  qs1 ≡ₚ qs2 → sortedBy longerFirst qs1 → sortedBy longerFirst qs2 →
  firstQualifier qs1 w = firstQualifier qs2 w.
Proof.
  intros Hperm H1 H2.
  destruct (firstQualifier qs1 w) as [q1|] eqn:Hf1;
    destruct (firstQualifier qs2 w) as [q2|] eqn:Hf2; [| | |done].
  - f_equal.
    destruct (firstQualifier_Some _ _ _ Hf1) as [Hin1 Hs1].
    destruct (firstQualifier_Some _ _ _ Hf2) as [Hin2 Hs2].
    apply (suffix_same_length _ _ w); [done..|].
    apply Nat.le_antisymm.
    + apply (firstQualifier_longest qs2 w); [done..|by rewrite <-Hperm|done].
    + apply (firstQualifier_longest qs1 w); [done..|by rewrite Hperm|done].
  - destruct (firstQualifier_Some _ _ _ Hf1) as [Hin1 Hs1].
    destruct (firstQualifier_None _ _ Hf2 q1); [by rewrite <-Hperm|done].
  - destruct (firstQualifier_Some _ _ _ Hf2) as [Hin2 Hs2].
    destruct (firstQualifier_None _ _ Hf1 q2); [by rewrite Hperm|done].
Qed.

Lemma rewriteRuns_order m qs1 qs2 chunkCode :
  qs1 ≡ₚ qs2 → sortedBy longerFirst qs1 → sortedBy longerFirst qs2 →
  rewriteRuns m qs1 chunkCode = rewriteRuns m qs2 chunkCode.
Proof.
  intros Hperm H1 H2. unfold rewriteRuns.
  destruct (splitDots chunkCode) as [runs tail]. f_equal.
  apply map_ext. intros w. unfold rewriteRun.
  by rewrite (firstQualifier_order qs1 qs2).
Qed.

Lemma validSchedule_qualifiers m sc1 sc2 :
  validSchedule m sc1 → validSchedule m sc2 →
  sortedOldQualifiers sc1 ≡ₚ sortedOldQualifiers sc2.
Proof.
  intros Hv1 Hv2.
  destruct (validSchedule_facts m sc1 Hv1) as [Hq1 Hn1 _ _].
  destruct (validSchedule_facts m sc2 Hv2) as [Hq2 Hn2 _ _].
  apply NoDup_Permutation; [done..|]. intros q. by rewrite Hq1, Hq2.
Qed.

Lemma rewriteQualifiers_deterministic m sc1 sc2 chunkCode :
  validSchedule m sc1 → validSchedule m sc2 →
  collisionFree m → sentinelFree chunkCode →
  rewriteQualifiers sc1 m chunkCode = rewriteQualifiers sc2 m chunkCode.
Proof.
  intros Hv1 Hv2 Hc Hs. rewrite !rewriteQualifiers_runs by done.
  apply rewriteRuns_order; [by apply (validSchedule_qualifiers m)|..].
  - by destruct Hv1 as (_ & _ & ? & _).
  - by destruct Hv2 as (_ & _ & ? & _).
Qed.

(** * What the first traversal collects *)

Lemma recordQualifier_fold info l m0 a p :
  fold_left (recordQualifier info) l m0 !! a = Some p →
  m0 !! a = Some p ∨ aliasUse info l a p.
Proof.
  revert m0. induction l as [|n l IH]; intros m0 Hf; [by left|].
  cbn [fold_left] in Hf. apply IH in Hf as [Hf|(ident & sel & Hin & Hrest)].
  - unfold recordQualifier in Hf.
    destruct n as [| | | | |X Sel| | | | | |]; try (by left).
    destruct X as [|ident| | | | | | | | | |]; try (by left).
    destruct (Uses info ident) as [[path|]|] eqn:Hu; try (by left).
    case_decide as Hne; [|by left].
    apply lookup_insert_Some in Hf as [[<- <-]|[_ Hf]]; [|by left].
    right. exists ident, Sel. split_and!; [by left|done..].
  - right. exists ident, sel. split; [by right|done].
Qed.

Lemma collectReplacements_sound node info a p :
  collectReplacements node info !! a = Some p → aliasUse info (Walk node) a p.
Proof.
  intros H. apply recordQualifier_fold in H as [H|H]; [|done].
  by rewrite lookup_empty in H.
Qed.

Lemma applyQualifierReplacements_unfold sc chunkCode node info :
  applyQualifierReplacements sc chunkCode node (Some info)
  = rewriteQualifiers sc (collectReplacements node info) chunkCode.
Proof. by destruct node. Qed.

(** * A text without alias tokens *)

Lemma replacePass_absent pairs text :
  Forall (fun on => ¬ occursIn (on.1 ++ [dot]) text) pairs →
  replacePass pairs text = text.
Proof.
  intros H. induction H as [|[o n] pairs Ho _ IH]; [done|].
  cbn [replacePass fold_left fst snd]. fold (replacePass pairs).
  rewrite ReplaceAll_absent; [done|by destruct o|done].
Qed.

Lemma rewriteQualifiers_no_tokens m sc text :
  validSchedule m sc → noAliasToken m text → sentinelFree text →
  rewriteQualifiers sc m text = text.
Proof.
  intros Hv Hm Hs. unfold rewriteQualifiers. case_decide; [done|].
  destruct (validSchedule_facts m sc Hv) as [Hq _ _ Hp].
  destruct (assignPlaceholders 0 (rangeReplacements sc) ∅ ∅) as [tm fm].
  rewrite secondPass_replacePass, firstPass_replacePass.
  rewrite (replacePass_absent (map _ (sortedOldQualifiers sc))).
  - apply replacePass_absent, Forall_forall. intros [o n] Hin.
    apply list_elem_of_fmap in Hin as (pl & [= -> ->] & Hin). cbn [fst].
    rewrite Forall_forall in Hp. destruct (Hp _ Hin) as [j ->].
    intros (x & y & ->). apply Contains_false in Hs. apply Hs.
    apply occursIn_app_l, occursIn_app_r, occursIn_app_r, placeholder_sentinel.
  - apply Forall_forall. intros [o n] Hin.
    apply list_elem_of_fmap in Hin as (q & [= -> ->] & Hin). cbn [fst].
    apply Hq in Hin as [p Hp']. by apply Contains_false, (Hm q p).
Qed.

(** * Chunk ids *)






(** * Rendering *)

Lemma getTypeString_chain Fprint info expr :
  getTypeString Fprint info expr
  = match TypeOf info expr with
    | Some tv => tv
    | None =>
        match syntacticRendering info (getTypeString Fprint info) expr with
        | Some reconstructed => reconstructed
        | None =>
            match Fprint expr with
            | Some dump => dump
            | None => typeTag expr
            end
        end
    end.
Proof.
  destruct expr as [| | | | |X Sel| | | | | |]; cbn [getTypeString syntacticRendering];
    destruct (TypeOf info _); try done.
  destruct X as [|ident| | | | | | | | | |]; try done.
  by destruct (Uses info ident) as [[|]|].
Qed.

Lemma renderFields_done (run : Node -> Runtime.Outcome str) (typeString : Node -> str)
    fields acc :
  (∀ field, field ∈ fields → run (Type_ field) = Runtime.Done (typeString (Type_ field))) →
  Runtime.renderFields run fields acc
  = Runtime.Done (acc ++ renderFieldList typeString (Some fields)).
Proof.
  revert acc. induction fields as [|field rest IH]; intros acc Hrun.
  - cbn. by rewrite (right_id_L [] (++)).
  - cbn [Runtime.renderFields]. rewrite Hrun by (by left). cbn [mbind Runtime.Outcome_bind].
    rewrite IH by (intros; apply Hrun; by right).
    cbn [renderFieldList flat_map].
    destruct (Names field); by rewrite <-(assoc_L (++)).
Qed.

Lemma renderFieldList_done (run : Node -> Runtime.Outcome str) (typeString : Node -> str)
    fl :
  (∀ fields field, fl = Some fields → field ∈ fields →
     run (Type_ field) = Runtime.Done (typeString (Type_ field))) →
  Runtime.renderFieldList run fl = Runtime.Done (renderFieldList typeString fl).
Proof.
  intros Hrun. destruct fl as [fields|]; [|done].
  cbn [Runtime.renderFieldList]. rewrite (renderFields_done run typeString); [done|].
  intros. by eapply Hrun.
Qed.

(** In [getSignature] neither [ft.Results.List[0]] nor [results[0]] is
    ever out of range: there is a result string only when there is a
    field. *)
Lemma signatureWith_done (run : Node -> Runtime.Outcome str) (typeString : Node -> str)
    Params Results :
  (∀ fields field, Params = Some fields ∨ Results = Some fields → field ∈ fields →
     run (Type_ field) = Runtime.Done (typeString (Type_ field))) →
  Runtime.signatureWith run Params Results
  = Runtime.Done (signatureWith typeString Params Results).
Proof.
  intros Hrun. unfold Runtime.signatureWith, signatureWith.
  rewrite (renderFieldList_done run typeString Params)
    by (intros; eapply Hrun; [by left|done]).
  rewrite (renderFieldList_done run typeString Results)
    by (intros; eapply Hrun; [by right|done]).
  cbn [mbind Runtime.Outcome_bind].
  destruct (renderFieldList typeString Results) as [|r [|r' results]] eqn:Hres.
  - done.
  - rewrite decide_True by (simpl; lia). rewrite decide_True by done.
    destruct Results as [[|first rest]|]; [done| |done].
    cbn. by destruct (Names first).
  - rewrite decide_True by (simpl; lia). by rewrite decide_False by (simpl; lia).
Qed.

Lemma fieldsDepth_elem fl fields field :
  fl = Some fields → field ∈ fields → depth (Type_ field) ≤ fieldsDepth fl.
Proof.
  intros -> Hin. cbn [fieldsDepth]. induction Hin as [field rest|field f' rest _ IH].
  - cbn [foldr]. lia.
  - cbn [foldr]. lia.
Qed.

Lemma depth_FuncType Func TypeParams Params Results :
  depth (FuncType Func TypeParams Params Results)
  = S (fieldsDepth TypeParams `max` (fieldsDepth Params `max` fieldsDepth Results)).
Proof. done. Qed.

Lemma getTypeString_runs Fprint info fuel :
  ∀ expr, depth expr < fuel →
    Runtime.getTypeString Fprint fuel (Some info) expr
    = Runtime.Done (getTypeString Fprint info expr).
Proof.
  induction fuel as [|fuel IH]; intros expr Hd; [lia|].
  destruct expr as [|t|? X|? Len Elt|? Key Value|X Sel|? ?|? ?|? Dir Value|? Elt
                    |? TypeParams Params Results|? ? ?];
    cbn [Runtime.getTypeString getTypeString]; destruct (TypeOf info _); try done.
  - by destruct (Fprint _).
  - cbn [depth] in Hd. by rewrite IH by lia.
  - cbn [depth] in Hd. by rewrite IH by lia.
  - cbn [depth] in Hd. by rewrite !IH by lia.
  - cbn [depth] in Hd. rewrite IH by lia. cbn [mbind Runtime.Outcome_bind].
    destruct X as [|ident| | | | | | | | | |]; try done.
    by destruct (Uses info ident) as [[|]|].
  - by destruct (Fprint _).
  - cbn [depth] in Hd. by rewrite IH by lia.
  - cbn [depth] in Hd. by rewrite IH by lia.
  - rewrite depth_FuncType in Hd.
    rewrite (signatureWith_done _ (getTypeString Fprint info)); [done|].
    intros fields field [Hf|Hf] Hin; apply IH;
      pose proof (fieldsDepth_elem _ fields field Hf Hin); lia.
  - by destruct (Fprint _).
Qed.

(** A nil [info] is dereferenced by the first statement. *)
Remark getTypeString_nil_info Fprint fuel expr :
  Runtime.getTypeString Fprint (S fuel) None expr = Runtime.Panic.
Proof. done. Qed.

(** C9.  For every expression node [getTypeString] terminates and returns
    a string: run with the type information of a package, it never
    panics (the index expressions of [getSignature] are never out of
    range) and its recursion is never deeper than the syntax tree, so
    every bound above the height of the tree lets it return.  The string
    is the resolved type when there is one, else the syntactic
    reconstruction for the nine shapes it knows, else the printer's dump,
    else the type tag. *)
Theorem getTypeString_never_fails Fprint info expr :
  ∃ s,
    (∀ fuel, depth expr < fuel →
       Runtime.getTypeString Fprint fuel (Some info) expr = Runtime.Done s)
    ∧ s = getTypeString Fprint info expr
    ∧ s = match TypeOf info expr with
          | Some tv => tv
          | None =>
              match syntacticRendering info (getTypeString Fprint info) expr with
              | Some reconstructed => reconstructed
              | None =>
                  match Fprint expr with
                  | Some dump => dump
                  | None => typeTag expr
                  end
              end
          end.
Proof.
  exists (getTypeString Fprint info expr). split_and!.
  - intros fuel Hd. by apply getTypeString_runs.
  - done.
  - apply getTypeString_chain.
Qed.

(** * The Locator *)

Lemma invalidOffsets_false s e content :
  invalidOffsets s e content = false ↔ validSpan s e content.
Proof.
  unfold invalidOffsets, validSpan. rewrite bool_decide_eq_false. lia.
Qed.

Lemma slice_valid s e content :
  validSpan s e content → ∃ raw, slice content s e = Some raw.
Proof. intros H. unfold slice. rewrite decide_True by done. by eexists. Qed.

Lemma slice_Some s e content raw :
  slice content s e = Some raw → validSpan s e content.
Proof. unfold slice. by case_decide. Qed.

Ltac meta_lookup :=
  repeat first
    [ rewrite lookup_insert_eq
    | rewrite lookup_insert_ne by (by vm_compute) ];
  try reflexivity.

Section LocatorFacts.
Variable Fprint : Node -> option str.
Variable ReadFile : str -> option str.
Variable oracle : nat -> Schedule.

Lemma processSpec_emits path packageName info content Tok st spec :
  ∃ st', processSpec Fprint oracle path packageName info content Tok st spec = Some st'
  ∧ if emitsChunk content spec
    then ∃ c, chunks st' = chunks st ++ [c] ∧ calls st' = S (calls st)
         ∧ chunkOf oracle path content info (calls st) (specPos spec) (specEnd spec)
             (specName spec) (specNode spec) c
         ∧ specMeta Tok spec c
    else chunks st' = chunks st ∧ calls st' = calls st.
Proof.
  unfold processSpec, emitsChunk, canonicalize.
  destruct (invalidOffsets _ _ content) eqn:Hinv; cbn [negb andb].
  { by eexists. }
  apply invalidOffsets_false in Hinv.
  destruct (slice_valid _ _ _ Hinv) as [raw Hraw]. rewrite Hraw.
  unfold specMeta, specName, specNode.
  destruct (specKind spec) as [|v|t]; cbn [andb].
  - by eexists.
  - eexists. split; [done|]. eexists.
    split_and!; [reflexivity|reflexivity|split; [done|by eexists|done|..]|..];
      cbn [Metadata]; destruct (valueType v); try (by meta_lookup);
      destruct (Values v) as [|first ?]; try (by meta_lookup);
      destruct (TypeOf info first); by meta_lookup.
  - eexists. split; [done|]. eexists.
    split_and!; [reflexivity|reflexivity|split; [done|by eexists|done|..]|..];
      cbn [Metadata]; by meta_lookup.
Qed.

Lemma forEach_app {A S : Type} (body : S -> A -> option S) l1 l2 st :
  forEach body (l1 ++ l2) st
  = match forEach body l1 st with
    | Some st' => forEach body l2 st'
    | None => None
    end.
Proof.
  revert st. induction l1 as [|x l1 IH]; intros st; [done|].
  cbn [app forEach]. by destruct (body st x).
Qed.

Lemma appended_nil st : appended st st [].
Proof. split; [by rewrite (right_id_L [] (++))|simpl; lia]. Qed.

Lemma appended_log e st : appended st (logPrintf e st) [].
Proof. split; [by rewrite (right_id_L [] (++))|simpl; lia]. Qed.

Lemma appended_trans st1 st2 st3 new1 new2 :
  appended st1 st2 new1 → appended st2 st3 new2 → appended st1 st3 (new1 ++ new2).
Proof.
  intros [H1 H1'] [H2 H2']. split.
  - by rewrite H2, H1, <-(assoc_L (++)).
  - rewrite H2', H1', length_app. lia.
Qed.

Lemma forEach_emits {A : Type} (body : State -> A -> option State)
    (P : A -> ChromaDocument -> Prop) l :
  (∀ st x, x ∈ l → ∃ st' new, body st x = Some st' ∧ appended st st' new
                             ∧ Forall (P x) new) →
  ∀ st, ∃ st' new, forEach body l st = Some st' ∧ appended st st' new
                   ∧ Forall (fun c => ∃ x, x ∈ l ∧ P x c) new.
Proof.
  induction l as [|x l IH]; intros Hbody st.
  - exists st, []. split_and!; [done|apply appended_nil|constructor].
  - destruct (Hbody st x) as (st1 & new1 & Hx & Happ1 & HP1); [by left|].
    destruct IH with (st := st1) as (st2 & new2 & Hl & Happ2 & HP2).
    { intros st' y Hy. apply Hbody. by right. }
    exists st2, (new1 ++ new2). cbn [forEach]. rewrite Hx.
    split_and!; [done|by eapply appended_trans|].
    apply Forall_app. split.
    + eapply Forall_impl; [exact HP1|]. intros c Hc. exists x. split; [by left|done].
    + eapply Forall_impl; [exact HP2|]. intros c (y & Hy & Hc).
      exists y. split; [by right|done].
Qed.

Lemma processSpecs_emits path packageName info content Tok specs st :
  ∃ st' new,
    forEach (processSpec Fprint oracle path packageName info content Tok) specs st
    = Some st'
    ∧ appended st st' new
    ∧ Forall2 (fun spec c =>
                 ∃ k, chunkOf oracle path content info k (specPos spec) (specEnd spec)
                        (specName spec) (specNode spec) c
                      ∧ specMeta Tok spec c)
              (filter (fun spec => emitsChunk content spec = true) specs) new.
Proof.
  revert st. induction specs as [|spec specs IH]; intros st.
  - exists st, []. split_and!; [done|apply appended_nil|constructor].
  - destruct (processSpec_emits path packageName info content Tok st spec)
      as (st1 & Hspec & Hem).
    destruct (IH st1) as (st2 & new2 & Hrest & Happ2 & Hall).
    cbn [forEach]. rewrite Hspec. rewrite filter_cons.
    destruct (emitsChunk content spec) eqn:He.
    + destruct Hem as (c & Hc & Hcalls & Hco & Hmeta).
      exists st2, ([c] ++ new2). rewrite decide_True by done.
      split_and!; [done| |].
      * eapply appended_trans; [|done]. split; [done|simpl; lia].
      * constructor; [|done]. by exists (calls st).
    + destruct Hem as [Hc Hcalls]. exists st2, ([] ++ new2).
      rewrite decide_False by done. split_and!; [done| |done].
      eapply appended_trans; [|done]. split; [by rewrite (right_id_L [] (++))|simpl; lia].
Qed.

Lemma processFuncDecl_emits path packageName info content decl f raw st :
  declKind decl = FuncDeclOf f →
  slice content (Offset (declPos decl)) (Offset (declEnd decl)) = Some raw →
  ∃ c, processFuncDecl Fprint oracle path packageName info content decl f raw st
       = appendChunk c (countCall st)
     ∧ chunkOf oracle path content info (calls st) (declPos decl) (declEnd decl)
         (Name (funcName f)) (funcDeclNode f) c.
Proof.
  intros Hk Hraw. unfold processFuncDecl, canonicalize. eexists. split; [done|].
  split; [by eapply slice_Some|by eexists|done|..]; cbn [Metadata];
    destruct (Recv f) as [[|first ?]|]; by meta_lookup.
Qed.

Lemma processDecl_emits path packageName info content st decl :
  ∃ st' new,
    processDecl Fprint oracle path packageName info content st decl = Some st'
    ∧ appended st st' new
    ∧ Forall (chunkOfDecl oracle path content info decl) new.
Proof.
  unfold processDecl.
  destruct (invalidOffsets _ _ content) eqn:Hinv.
  { eexists _, []. split_and!; [done|apply appended_log|constructor]. }
  apply invalidOffsets_false in Hinv.
  destruct (slice_valid _ _ _ Hinv) as [raw Hraw]. rewrite Hraw.
  destruct (declKind decl) as [f|Tok specs|] eqn:Hk.
  - destruct (processFuncDecl_emits path packageName info content decl f raw st Hk Hraw)
      as (c & -> & Hc).
    eexists _, [c]. split_and!; [done|split; [done|simpl; lia]|].
    constructor; [|constructor]. exists (calls st). do 4 eexists.
    split; [by apply unitFunc|done].
  - assert (∃ st' new,
        forEach (processSpec Fprint oracle path packageName info content Tok) specs st
        = Some st' ∧ appended st st' new
        ∧ (Tok ≠ IMPORT → Forall (chunkOfDecl oracle path content info decl) new))
      as (st' & new & Hf & Happ & Hall).
    { destruct (processSpecs_emits path packageName info content Tok specs st)
        as (st' & new & Hf & Happ & Hall).
      exists st', new. split_and!; [done..|]. intros Htok.
      apply Forall2_Forall_r with (Q := fun c => chunkOfDecl oracle path content info decl c)
        in Hall; [done|].
      apply Forall_forall. intros spec Hspec c (k & Hco & Hmeta).
      apply list_elem_of_filter in Hspec as [He Hin].
      exists k. do 4 eexists. split; [|done].
      eapply unitSpec; [done..|]. intros Himp. unfold emitsChunk in He.
      rewrite Himp in He. by destruct (negb _). }
    destruct Tok.
    + eexists _, []. split_and!; [done|apply appended_nil|constructor].
    + exists st', new. split_and!; [done..|by apply Hall].
    + exists st', new. split_and!; [done..|by apply Hall].
    + exists st', new. split_and!; [done..|by apply Hall].
  - eexists _, []. split_and!; [done|apply appended_nil|constructor].
Qed.

Lemma processFile_emits packageName info st file :
  ∃ st' new,
    processFile Fprint ReadFile oracle packageName info st file = Some st'
    ∧ appended st st' new ∧ Forall (chunkOfFile ReadFile oracle info file) new.
Proof.
  unfold processFile. destruct (ReadFile (filePath file)) as [content|] eqn:Hread.
  - destruct (forEach_emits
                (processDecl Fprint oracle (filePath file) packageName info content)
                (chunkOfDecl oracle (filePath file) content info) (Decls file))
      with (st := st) as (st' & new & Hf & Happ & Hall).
    { intros st0 decl _. apply processDecl_emits. }
    exists st', new. split_and!; [done..|].
    eapply Forall_impl; [exact Hall|]. intros c (decl & Hin & Hc).
    by exists content, decl.
  - eexists _, []. split_and!; [done|apply appended_log|constructor].
Qed.

Lemma processPackage_emits st pkg :
  ∃ st' new,
    processPackage Fprint ReadFile oracle st pkg = Some st'
    ∧ appended st st' new ∧ Forall (chunkOfPackage ReadFile oracle pkg) new.
Proof.
  unfold processPackage.
  destruct (TypesInfo pkg) as [info|] eqn:Hi;
    [|eexists _, []; split_and!; [done|apply appended_log|constructor]].
  destruct (Syntax pkg) as [files|] eqn:Hs;
    [|eexists _, []; split_and!; [done|apply appended_log|constructor]].
  destruct (hasFset pkg) eqn:Hf;
    [|eexists _, []; split_and!; [done|apply appended_log|constructor]].
  destruct (forEach_emits
              (processFile Fprint ReadFile oracle (pkgName pkg) info)
              (chunkOfFile ReadFile oracle info) files)
    with (st := st) as (st' & new & Hfe & Happ & Hall).
  { intros st0 file _. apply processFile_emits. }
  exists st', new. split_and!; [done..|].
  eapply Forall_impl; [exact Hall|]. intros c (file & Hin & Hc).
  by exists info, files, file.
Qed.

Lemma reportErrors_chunks pkgs st :
  chunks (reportErrors pkgs st) = chunks st ∧ calls (reportErrors pkgs st) = calls st.
Proof.
  unfold reportErrors.
  assert (∀ pkgs st,
    let st' := fold_left (fun st pkg =>
                 fold_left (fun st e => logPrintf (LogPackageError (pkgID pkg) e) st)
                           (Errors pkg) st) pkgs st in
    chunks st' = chunks st ∧ calls st' = calls st) as Hfold.
  { clear. induction pkgs as [|pkg pkgs IH]; intros st; [done|].
    cbn [fold_left]. cbv zeta in *. rewrite !(proj1 (IH _)), !(proj2 (IH _)).
    generalize (Errors pkg). intros es. revert st.
    induction es as [|e es IHe]; intros st; [done|].
    cbn [fold_left]. by rewrite !(proj1 (IHe _)), !(proj2 (IHe _)). }
  destruct (Hfold pkgs st) as [H1 H2]. by case_bool_decide.
Qed.

Lemma processGoProject_emits projectPath pkgs :
  ∃ result log,
    processGoProject Fprint ReadFile oracle projectPath (inr pkgs)
    = Some (Succeeded result log)
    ∧ Forall (fun c => ∃ pkg, pkg ∈ pkgs ∧ chunkOfPackage ReadFile oracle pkg c) result.
Proof.
  unfold processGoProject.
  set (st0 := reportErrors pkgs _).
  destruct (forEach_emits (processPackage Fprint ReadFile oracle)
              (chunkOfPackage ReadFile oracle) pkgs)
    with (st := st0) as (st' & new & Hf & [Hch _] & Hall).
  { intros st pkg _. apply processPackage_emits. }
  rewrite Hf. eexists _, _. split; [done|].
  rewrite Hch. unfold st0. by rewrite (proj1 (reportErrors_chunks _ _)).
Qed.

Lemma sameOutput_log e st1 st2 :
  sameOutput st1 st2 → sameOutput (logPrintf e st1) st2.
Proof. by intros []. Qed.

Lemma sameOutput_sym st1 st2 : sameOutput st1 st2 → sameOutput st2 st1.
Proof. by intros []. Qed.

Lemma forEach_sameOutput {A : Type} (body : State -> A -> option State) l :
  (∀ st1 st2 x, sameOutput st1 st2 → sameOutcome (body st1 x) (body st2 x)) →
  ∀ st1 st2, sameOutput st1 st2 → sameOutcome (forEach body l st1) (forEach body l st2).
Proof.
  intros Hbody. induction l as [|x l IH]; intros st1 st2 Hst; [done|].
  cbn [forEach]. specialize (Hbody st1 st2 x Hst).
  destruct (body st1 x), (body st2 x); try done. by apply IH.
Qed.

Lemma processSpec_sameOutput path packageName info content Tok st1 st2 spec :
  sameOutput st1 st2 →
  sameOutcome (processSpec Fprint oracle path packageName info content Tok st1 spec)
              (processSpec Fprint oracle path packageName info content Tok st2 spec).
Proof.
  intros [Hch Hca]. unfold processSpec, canonicalize.
  destruct (invalidOffsets _ _ content); [done|].
  destruct (slice content _ _); [|done].
  destruct (specKind spec); [done|..]; split; simpl; congruence.
Qed.

Lemma processDecl_sameOutput path packageName info content st1 st2 decl :
  sameOutput st1 st2 →
  sameOutcome (processDecl Fprint oracle path packageName info content st1 decl)
              (processDecl Fprint oracle path packageName info content st2 decl).
Proof.
  intros Hst. unfold processDecl.
  destruct (invalidOffsets _ _ content); [by destruct Hst|].
  destruct (slice content _ _); [|done].
  destruct (declKind decl) as [f|Tok specs|]; [| |done].
  - destruct Hst as [Hch Hca]. unfold processFuncDecl, canonicalize.
    split; simpl; congruence.
  - destruct Tok; [done|..]; apply forEach_sameOutput; try done;
      intros; by apply processSpec_sameOutput.
Qed.

Lemma processFile_sameOutput packageName info st1 st2 file :
  sameOutput st1 st2 →
  sameOutcome (processFile Fprint ReadFile oracle packageName info st1 file)
              (processFile Fprint ReadFile oracle packageName info st2 file).
Proof.
  intros Hst. unfold processFile.
  destruct (ReadFile (filePath file)); [|by destruct Hst].
  apply forEach_sameOutput; [|done]. intros. by apply processDecl_sameOutput.
Qed.

Lemma processPackage_sameOutput st1 st2 pkg :
  sameOutput st1 st2 →
  sameOutcome (processPackage Fprint ReadFile oracle st1 pkg)
              (processPackage Fprint ReadFile oracle st2 pkg).
Proof.
  intros Hst. unfold processPackage.
  destruct (TypesInfo pkg); [|by destruct Hst].
  destruct (Syntax pkg); [|by destruct Hst].
  destruct (hasFset pkg); [|by destruct Hst].
  apply forEach_sameOutput; [|done]. intros. by apply processFile_sameOutput.
Qed.

Lemma processFiles_unreadable packageName info fs1 f fs2 st1 st2 :
  ReadFile (filePath f) = None → sameOutput st1 st2 →
  sameOutcome
    (forEach (processFile Fprint ReadFile oracle packageName info) (fs1 ++ f :: fs2) st1)
    (forEach (processFile Fprint ReadFile oracle packageName info) (fs1 ++ fs2) st2).
Proof.
  intros Hread Hst. rewrite !forEach_app.
  pose proof (forEach_sameOutput
                (processFile Fprint ReadFile oracle packageName info) fs1
                (fun a b x H => processFile_sameOutput packageName info a b x H)
                st1 st2 Hst) as H1.
  destruct (forEach _ fs1 st1) as [st1'|], (forEach _ fs1 st2) as [st2'|]; try done.
  cbn [forEach]. unfold processFile at 1. rewrite Hread.
  apply forEach_sameOutput; [|by apply sameOutput_log].
  intros. by apply processFile_sameOutput.
Qed.

Lemma processPackage_unreadable pkg fs1 f fs2 st1 st2 :
  ReadFile (filePath f) = None → Syntax pkg = Some (fs1 ++ f :: fs2) →
  sameOutput st1 st2 →
  sameOutcome (processPackage Fprint ReadFile oracle st1 pkg)
              (processPackage Fprint ReadFile oracle st2 (withSyntax pkg (fs1 ++ fs2))).
Proof.
  intros Hread Hsyn Hst. unfold processPackage, withSyntax. cbn. rewrite Hsyn.
  destruct (TypesInfo pkg); [|by destruct Hst].
  destruct (hasFset pkg); [|by destruct Hst].
  by apply processFiles_unreadable.
Qed.
End LocatorFacts.


Section CoverageFacts.
Variable Fprint : Node -> option str.
Variable ReadFile : str -> option str.
Variable oracle : nat -> Schedule.

Lemma forEach_covers {A : Type} (body : State -> A -> option State)
    (C : A -> list ChromaDocument -> Prop) l :
  (∀ x new new', C x new → new ⊆ new' → C x new') →
  (∀ st x, x ∈ l → ∃ st' new, body st x = Some st' ∧ appended st st' new ∧ C x new) →
  ∀ st, ∃ st' new, forEach body l st = Some st' ∧ appended st st' new
                   ∧ ∀ x, x ∈ l → C x new.
Proof.
  intros Hmono. induction l as [|x l IH]; intros Hbody st.
  - exists st, []. split_and!; [done|apply appended_nil|].
    intros x Hx. by apply elem_of_nil in Hx.
  - destruct (Hbody st x) as (st1 & new1 & Hx & Happ1 & HC1); [by left|].
    destruct IH with (st := st1) as (st2 & new2 & Hl & Happ2 & HC2).
    { intros st' y Hy. apply Hbody. by right. }
    exists st2, (new1 ++ new2). cbn [forEach]. rewrite Hx.
    split_and!; [done|by eapply appended_trans|].
    intros y Hy. apply elem_of_cons in Hy as [->|Hy].
    + eapply Hmono; [exact HC1|]. intros c Hc. apply elem_of_app. by left.
    + eapply Hmono; [by apply HC2|]. intros c Hc. apply elem_of_app. by right.
Qed.

Lemma coversDecl_mono path content info decl new new' :
  coversDecl oracle path content info decl new → new ⊆ new' →
  coversDecl oracle path content info decl new'.
Proof.
  intros Hc Hsub sp ep name node Hdue.
  destruct (Hc sp ep name node Hdue) as (c & k & Hin & Hco).
  exists c, k. split; [by apply Hsub|done].
Qed.

Lemma coversFile_mono info file new new' :
  coversFile ReadFile oracle info file new → new ⊆ new' →
  coversFile ReadFile oracle info file new'.
Proof.
  intros Hc Hsub content decl Hread Hdecl.
  eapply coversDecl_mono; [by apply Hc|done].
Qed.

Lemma coversPackage_mono pkg new new' :
  coversPackage ReadFile oracle pkg new → new ⊆ new' →
  coversPackage ReadFile oracle pkg new'.
Proof.
  intros Hc Hsub info files file Hi Hs Hf Hfile.
  eapply coversFile_mono; [by eapply Hc|done].
Qed.

Lemma processDecl_covers path packageName info content st decl :
  ∃ st' new,
    processDecl Fprint oracle path packageName info content st decl = Some st'
    ∧ appended st st' new
    ∧ coversDecl oracle path content info decl new.
Proof.
  unfold processDecl.
  destruct (invalidOffsets _ _ content) eqn:Hinv.
  { eexists _, []. split_and!; [done|apply appended_log|].
    intros sp ep name node (_ & Hv & _). apply invalidOffsets_false in Hv. congruence. }
  apply invalidOffsets_false in Hinv.
  destruct (slice_valid _ _ _ Hinv) as [raw Hraw]. rewrite Hraw.
  destruct (declKind decl) as [f|Tok specs|] eqn:Hk.
  - destruct (processFuncDecl_emits Fprint oracle path packageName info content decl f
                raw st Hk Hraw) as (c & -> & Hc).
    eexists _, [c]. split_and!; [done|split; [done|simpl; lia]|].
    intros sp ep name node (Hunit & _ & _).
    destruct Hunit as [f' Hk'|Tok specs spec Hk' _ _ _]; [|congruence].
    assert (f' = f) as -> by congruence.
    exists c, (calls st). split; [by left|done].
  - destruct (processSpecs_emits Fprint oracle path packageName info content Tok specs st)
      as (st' & new & Hf & Happ & Hall).
    assert (Tok ≠ IMPORT → coversDecl oracle path content info decl new) as Hcov.
    { intros Htok sp ep name node (Hunit & _ & Hv).
      destruct Hunit as [f' Hk'|Tok' specs' spec Hk' _ Hin Hkind]; [congruence|].
      assert (specs' = specs) as -> by congruence.
      assert (spec ∈ filter (fun spec => emitsChunk content spec = true) specs) as Hfil.
      { apply list_elem_of_filter. split; [|done]. unfold emitsChunk.
        apply invalidOffsets_false in Hv. rewrite Hv. cbn [negb andb].
        by destruct (specKind spec). }
      apply list_elem_of_lookup in Hfil as [i Hi].
      destruct (Forall2_lookup_l _ _ _ _ _ Hall Hi) as (c & Hc & k & Hco & _).
      exists c, k. split; [by eapply list_elem_of_lookup_2|done]. }
    destruct Tok.
    + eexists _, []. split_and!; [done|apply appended_nil|].
      intros sp ep name node (Hunit & _ & _).
      destruct Hunit as [f' Hk'|Tok' specs' spec Hk' Htok _ _]; congruence.
    + exists st', new. split_and!; [done..|by apply Hcov].
    + exists st', new. split_and!; [done..|by apply Hcov].
    + exists st', new. split_and!; [done..|by apply Hcov].
  - eexists _, []. split_and!; [done|apply appended_nil|].
    intros sp ep name node (Hunit & _ & _).
    destruct Hunit as [f' Hk'|Tok' specs' spec Hk' _ _ _]; congruence.
Qed.

Lemma processFile_covers packageName info st file :
  ∃ st' new,
    processFile Fprint ReadFile oracle packageName info st file = Some st'
    ∧ appended st st' new ∧ coversFile ReadFile oracle info file new.
Proof.
  unfold processFile. destruct (ReadFile (filePath file)) as [content|] eqn:Hread.
  - destruct (forEach_covers
                (processDecl Fprint oracle (filePath file) packageName info content)
                (coversDecl oracle (filePath file) content info) (Decls file))
      with (st := st) as (st' & new & Hf & Happ & Hall).
    { intros. by eapply coversDecl_mono. }
    { intros st0 decl _. apply processDecl_covers. }
    exists st', new. split_and!; [done..|].
    intros content' decl Hread' Hdecl. rewrite Hread in Hread'.
    injection Hread' as <-. by apply Hall.
  - eexists _, []. split_and!; [done|apply appended_log|].
    intros content decl Hread'. congruence.
Qed.

Lemma processPackage_covers st pkg :
  ∃ st' new,
    processPackage Fprint ReadFile oracle st pkg = Some st'
    ∧ appended st st' new ∧ coversPackage ReadFile oracle pkg new.
Proof.
  unfold processPackage.
  destruct (TypesInfo pkg) as [info|] eqn:Hi;
    [|eexists _, []; split_and!; [done|apply appended_log|unfold coversPackage; intros; congruence]].
  destruct (Syntax pkg) as [files|] eqn:Hs;
    [|eexists _, []; split_and!; [done|apply appended_log|unfold coversPackage; intros; congruence]].
  destruct (hasFset pkg) eqn:Hf;
    [|eexists _, []; split_and!; [done|apply appended_log|unfold coversPackage; intros; congruence]].
  destruct (forEach_covers
              (processFile Fprint ReadFile oracle (pkgName pkg) info)
              (coversFile ReadFile oracle info) files)
    with (st := st) as (st' & new & Hfe & Happ & Hall).
  { intros. by eapply coversFile_mono. }
  { intros st0 file _. apply processFile_covers. }
  exists st', new. split_and!; [done..|].
  intros info' files' file Hi' Hs' _ Hfile. rewrite Hi in Hi'. rewrite Hs in Hs'.
  injection Hi' as <-. injection Hs' as <-. by apply Hall.
Qed.

Lemma processGoProject_covers projectPath pkgs :
  ∃ result log,
    processGoProject Fprint ReadFile oracle projectPath (inr pkgs)
    = Some (Succeeded result log)
    ∧ ∀ pkg, pkg ∈ pkgs → coversPackage ReadFile oracle pkg result.
Proof.
  unfold processGoProject.
  set (st0 := reportErrors pkgs _).
  destruct (forEach_covers (processPackage Fprint ReadFile oracle)
              (coversPackage ReadFile oracle) pkgs)
    with (st := st0) as (st' & new & Hf & [Hch _] & Hall).
  { intros. by eapply coversPackage_mono. }
  { intros st pkg _. apply processPackage_covers. }
  rewrite Hf. eexists _, _. split; [done|].
  rewrite Hch. unfold st0. rewrite (proj1 (reportErrors_chunks _ _)). exact Hall.
Qed.
End CoverageFacts.

Section LocatorTheorems.
Variable Fprint : Node -> option str.
Variable ReadFile : str -> option str.
Variable oracle : nat -> Schedule.

(** C5.  A run never panics on a slice expression and every emitted
    chunk comes from a declaration or spec whose span satisfies
    [0 <= start <= end <= len(buffer)], its document being the
    canonicalization of [buffer[start:end]].  A declaration (or spec) with
    an invalid span adds a line to the log and no chunk, and the loop goes
    on with the next one. *)
Theorem invalid_spans_rejected projectPath pkgs :
  (∃ result log,
      processGoProject Fprint ReadFile oracle projectPath (inr pkgs)
      = Some (Succeeded result log)
      ∧ Forall (fun c => ∃ pkg, pkg ∈ pkgs ∧ chunkOfPackage ReadFile oracle pkg c)
               result)
  ∧ (∀ path packageName info content st decl rest,
       invalidOffsets (Offset (declPos decl)) (Offset (declEnd decl)) content = true →
       let st' :=
         logPrintf (LogInvalidDeclOffsets path (Line (declPos decl))
                      (Offset (declPos decl)) (Offset (declEnd decl))
                      (Z.of_nat (length content))) st in
       chunks st' = chunks st
       ∧ forEach (processDecl Fprint oracle path packageName info content)
                 (decl :: rest) st
         = forEach (processDecl Fprint oracle path packageName info content) rest st')
  ∧ (∀ path packageName info content Tok st spec rest,
       invalidOffsets (Offset (specPos spec)) (Offset (specEnd spec)) content = true →
       let st' :=
         logPrintf (LogInvalidSpecOffsets path (Line (specPos spec))
                      (Offset (specPos spec)) (Offset (specEnd spec))
                      (Z.of_nat (length content))) st in
       chunks st' = chunks st
       ∧ forEach (processSpec Fprint oracle path packageName info content Tok)
                 (spec :: rest) st
         = forEach (processSpec Fprint oracle path packageName info content Tok)
                   rest st').
Proof.
  split_and!.
  - apply processGoProject_emits.
  - intros path packageName info content st decl rest Hinv st'. split; [done|].
    cbn [forEach]. unfold processDecl. by rewrite Hinv.
  - intros path packageName info content Tok st spec rest Hinv st'. split; [done|].
    cbn [forEach]. unfold processSpec. by rewrite Hinv.
Qed.

(** C6, as the code behaves.  A grouped declaration with a valid span
    yields one chunk per type or value spec with a valid span, in spec
    order, each with the spec's own lines, name and metadata (the
    [type_category] of a type spec follows its shape); an import
    declaration yields none.  The line ranges are the specs' own: they are
    disjoint only when the specs are on different lines. *)
Theorem grouped_declaration_chunks path packageName info content st decl Tok specs :
  declKind decl = GenDeclOf Tok specs →
  validSpan (Offset (declPos decl)) (Offset (declEnd decl)) content →
  ∃ st' new,
    processDecl Fprint oracle path packageName info content st decl = Some st'
    ∧ chunks st' = chunks st ++ new
    ∧ match Tok with
      | IMPORT => new = []
      | _ =>
          Forall2 (fun spec c =>
                     ∃ k, chunkOf oracle path content info k (specPos spec)
                            (specEnd spec) (specName spec) (specNode spec) c
                          ∧ specMeta Tok spec c)
                  (filter (fun spec => emitsChunk content spec = true) specs) new
      end.
Proof.
  intros Hk Hv. unfold processDecl.
  apply invalidOffsets_false in Hv as Hinv. rewrite Hinv.
  destruct (slice_valid _ _ _ Hv) as [raw ->]. rewrite Hk.
  destruct (processSpecs_emits Fprint oracle path packageName info content Tok specs st)
    as (st' & new & Hf & [Happ _] & Hall).
  destruct Tok.
  - exists st, []. by rewrite (right_id_L [] (++)).
  - by exists st', new.
  - by exists st', new.
  - by exists st', new.
Qed.

Lemma processPackages_unreadable ps1 pkg ps2 fs1 f fs2 st1 st2 :
  ReadFile (filePath f) = None → Syntax pkg = Some (fs1 ++ f :: fs2) →
  sameOutput st1 st2 →
  sameOutcome
    (forEach (processPackage Fprint ReadFile oracle) (ps1 ++ pkg :: ps2) st1)
    (forEach (processPackage Fprint ReadFile oracle)
             (ps1 ++ withSyntax pkg (fs1 ++ fs2) :: ps2) st2).
Proof.
  intros Hread Hsyn Hst. rewrite !forEach_app.
  pose proof (forEach_sameOutput (processPackage Fprint ReadFile oracle) ps1
                (fun a b x H => processPackage_sameOutput Fprint ReadFile oracle a b x H)
                st1 st2 Hst) as H1.
  destruct (forEach _ ps1 st1) as [st1'|], (forEach _ ps1 st2) as [st2'|]; try done.
  cbn [forEach].
  pose proof (processPackage_unreadable Fprint ReadFile oracle pkg fs1 f fs2
                st1' st2' Hread Hsyn H1) as H2.
  destruct (processPackage _ _ _ st1' pkg), (processPackage _ _ _ st2' _); try done.
  apply forEach_sameOutput; [|done]. intros. by apply processPackage_sameOutput.
Qed.

(** C7.  When one file of a package cannot be read, the run still
    succeeds and returns no error; it holds a chunk for every declaration
    and spec with a valid span of every file that can be read, whatever
    package the file is in; its chunks are exactly those of the project
    without the unreadable file; and no chunk carries the path of the
    unreadable file. *)
Theorem unreadable_file_isolated projectPath ps1 pkg ps2 fs1 f fs2 :
  ReadFile (filePath f) = None →
  Syntax pkg = Some (fs1 ++ f :: fs2) →
  ∃ result log log',
    processGoProject Fprint ReadFile oracle projectPath (inr (ps1 ++ pkg :: ps2))
    = Some (Succeeded result log)
    ∧ (∀ p info files g content decl startPos endPos name node,
         p ∈ ps1 ++ pkg :: ps2 →
         TypesInfo p = Some info → Syntax p = Some files → hasFset p = true →
         g ∈ files → ReadFile (filePath g) = Some content → decl ∈ Decls g →
         dueUnit content decl startPos endPos name node →
         ∃ c k, c ∈ result
                ∧ chunkOf oracle (filePath g) content info k startPos endPos name node c)
    ∧ processGoProject Fprint ReadFile oracle projectPath
        (inr (ps1 ++ withSyntax pkg (fs1 ++ fs2) :: ps2))
      = Some (Succeeded result log')
    ∧ Forall (fun c => Metadata c !! lit "file_path" ≠ Some (MStr (filePath f)))
             result.
Proof.
  intros Hread Hsyn.
  destruct (processGoProject_emits Fprint ReadFile oracle projectPath (ps1 ++ pkg :: ps2))
    as (result & log & Hrun & Hall).
  destruct (processGoProject_covers Fprint ReadFile oracle projectPath (ps1 ++ pkg :: ps2))
    as (result0 & log0 & Hrun0 & Hcov).
  rewrite Hrun in Hrun0. injection Hrun0 as <- <-.
  destruct (processGoProject_emits Fprint ReadFile oracle projectPath
              (ps1 ++ withSyntax pkg (fs1 ++ fs2) :: ps2))
    as (result' & log' & Hrun' & _).
  exists result, log, log'. split_and!; [done| | |].
  - intros p info files g content decl sp ep name node Hp Hi Hs Hf Hg Hc Hd Hdue.
    by apply (Hcov p Hp info files g Hi Hs Hf Hg content decl Hc Hd).
  - rewrite Hrun'. do 2 f_equal.
    unfold processGoProject in Hrun, Hrun'.
    match type of Hrun with
    | context [forEach _ _ ?s] => set (st1 := s) in Hrun
    end.
    match type of Hrun' with
    | context [forEach _ _ ?s] => set (st2 := s) in Hrun'
    end.
    assert (Hst : sameOutput st1 st2).
    { unfold st1, st2, sameOutput.
      by rewrite !(proj1 (reportErrors_chunks _ _)), !(proj2 (reportErrors_chunks _ _)). }
    pose proof (processPackages_unreadable ps1 pkg ps2 fs1 f fs2
                  st1 st2 Hread Hsyn Hst) as Hsim.
    destruct (forEach _ (ps1 ++ pkg :: ps2) st1) as [a|]; [|done].
    destruct (forEach _ (ps1 ++ withSyntax pkg (fs1 ++ fs2) :: ps2) st2) as [b|]; [|done].
    destruct Hsim as [Hch _]. congruence.
  - eapply Forall_impl; [exact Hall|].
    intros c (p & _ & info & files & file & _ & _ & _ & _ & content & decl & Hr & _ & Hc).
    destruct Hc as (k & sp & ep & name & node & _ & Hco).
    rewrite (co_file _ _ _ _ _ _ _ _ _ _ Hco). intros [= Heq].
    rewrite Heq in Hr. congruence.
Qed.
End LocatorTheorems.


Example collect_a_ab : collectReplacements node_a_ab info_a_ab = aliases_a_ab.
Proof. by vm_compute. Qed.

Example schedule_a_ab_valid : validSchedule aliases_a_ab schedule_a_ab.
Proof. compute_done. Qed.

Lemma sorted_two (a b : str) qs :
  length b < length a → qs ≡ₚ [a; b] → sortedBy longerFirst qs → qs = [a; b].
Proof.
  intros Hlen Hp Hs. symmetry in Hp.
  apply Permutation_length_2_inv in Hp as [->| ->]; [done|].
  apply StronglySorted_inv in Hs as [_ Hall].
  apply Forall_cons in Hall as [Hall _]. unfold longerFirst in Hall. lia.
Qed.

(** C1.  With the alias map [{a -> pkg/a, ab -> pkg/ab}] the text
    [ab.Foo(); a.Bar()] is rewritten to exactly [pkg/ab.Foo(); pkg/a.Bar()],
    whatever order the runtime enumerates the maps in and however
    [sort.Slice] breaks ties: the longer alias is not partially consumed by
    the shorter one.  The single-pass loop of [go_ast_parser.go] gives the
    same text. *)
Theorem longer_alias_not_consumed node info sc :
  collectReplacements node info = aliases_a_ab →
  validSchedule aliases_a_ab sc →
  applyQualifierReplacements sc (lit "ab.Foo(); a.Bar()") node (Some info)
  = lit "pkg/ab.Foo(); pkg/a.Bar()"
  ∧ ∀ qs, GoAstParser.validOrder aliases_a_ab qs →
      GoAstParser.replaceQualifiers aliases_a_ab qs (lit "ab.Foo(); a.Bar()")
      = lit "pkg/ab.Foo(); pkg/a.Bar()".
Proof.
  intros Hm Hv. split.
  - rewrite applyQualifierReplacements_unfold, Hm.
    rewrite rewriteQualifiers_runs; [|done|compute_done|compute_done].
    rewrite (rewriteRuns_order _ _ (sortedOldQualifiers schedule_a_ab)).
    + by vm_compute.
    + apply (validSchedule_qualifiers aliases_a_ab); [done|compute_done].
    + by destruct Hv as (_ & _ & ? & _).
    + compute_done.
  - intros qs [Hp Hs].
    assert (qs = [lit "ab"; lit "a"]) as ->; [|by vm_compute].
    apply sorted_two; [simpl; lia| |done]. rewrite Hp.
    by vm_compute.
Qed.

(** C1 at a concrete subtree, symbol index and schedule. *)
Lemma longer_alias_not_consumed_witness :
  applyQualifierReplacements schedule_a_ab (lit "ab.Foo(); a.Bar()")
    node_a_ab (Some info_a_ab) = lit "pkg/ab.Foo(); pkg/a.Bar()".
Proof.
  refine (proj1 (longer_alias_not_consumed node_a_ab info_a_ab schedule_a_ab _ _)).
  - by vm_compute.
  - compute_done.
Defined.

(** ** Self-referential collision *)

Lemma sorted_one (a : str) qs : qs ≡ₚ [a] → qs = [a].
Proof. intros Hp. symmetry in Hp. by apply Permutation_singleton_l in Hp. Qed.

(** C2, as the code behaves.  With the alias map [{x -> company/x}] the
    text [x.Use(company.x.Other)] becomes
    [company/x.Use(company.company/x.Other)]: [x.Use] is rewritten, the
    text inserted by the replacement is not matched again, but the [x.]
    inside the pre-existing [company.x.Other] is a textual match and is
    rewritten as well. *)
Theorem existing_qualified_name_rewritten node info sc :
  collectReplacements node info = aliases_x →
  validSchedule aliases_x sc →
  applyQualifierReplacements sc (lit "x.Use(company.x.Other)") node (Some info)
  = lit "company/x.Use(company.company/x.Other)".
Proof.
  intros Hm Hv. rewrite applyQualifierReplacements_unfold, Hm.
  rewrite rewriteQualifiers_runs; [|done|compute_done|compute_done].
  rewrite (rewriteRuns_order _ _ (sortedOldQualifiers schedule_x)).
  - by vm_compute.
  - apply (validSchedule_qualifiers aliases_x); [done|compute_done].
  - by destruct Hv as (_ & _ & ? & _).
  - compute_done.
Qed.

(** C2 (amended) at a concrete subtree, symbol index and schedule. *)
Lemma existing_qualified_name_rewritten_witness :
  applyQualifierReplacements schedule_x (lit "x.Use(company.x.Other)")
    node_x (Some info_x) = lit "company/x.Use(company.company/x.Other)".
Proof.
  apply (existing_qualified_name_rewritten node_x info_x schedule_x).
  - by vm_compute.
  - compute_done.
Defined.

(** C2 as stated fails: the output is not
    [company/x.Use(company.x.Other)]. *)
Lemma existing_qualified_name_counterexample :
  collectReplacements node_x info_x = aliases_x
  ∧ validSchedule aliases_x schedule_x
  ∧ applyQualifierReplacements schedule_x (lit "x.Use(company.x.Other)")
      node_x (Some info_x) ≠ lit "company/x.Use(company.x.Other)".
Proof. split_and!; [by vm_compute|compute_done|by vm_compute]. Qed.

(** ** Textual matches outside of qualified references *)

(** C3 as stated fails: with the alias [a], the local variable [ba] of
    [a.F(ba.G)] is rewritten too, although [ba] does not resolve to an
    import alias. *)
Lemma longer_identifier_counterexample :
  collectReplacements node_a_ba info_a = aliases_a
  ∧ Uses info_a (ident 4 "ba") = Some (OtherObject (lit "var"))
  ∧ validSchedule aliases_a schedule_a
  ∧ applyQualifierReplacements schedule_a (lit "a.F(ba.G)") node_a_ba (Some info_a)
    = lit "pkg/a.F(bpkg/a.G)"
  ∧ applyQualifierReplacements schedule_a (lit "a.F(ba.G)") node_a_ba (Some info_a)
    ≠ lit "pkg/a.F(ba.G)".
Proof. split_and!; [by vm_compute..|compute_done|by vm_compute|by vm_compute]. Qed.

(** C3, as the code behaves.  The alias map holds only names of
    identifiers that are the base of a selector of the subtree and resolve
    to a package name spelled differently from its path.  The rewrite
    itself is textual: when placeholders cannot collide, the output is the
    chunk in which every dot-free run followed by a dot has its longest
    trailing alias replaced by the import path, all other bytes being
    unchanged. *)
Theorem canonicalizer_rewrites_runs node info sc chunkCode :
  let m := collectReplacements node info in
  let qs := sortedOldQualifiers sc in
  validSchedule m sc → collisionFree m → sentinelFree chunkCode →
  (∀ a p, m !! a = Some p → aliasUse info (Walk node) a p)
  ∧ applyQualifierReplacements sc chunkCode node (Some info)
    = rewriteRuns m qs chunkCode
  ∧ (∀ w q, firstQualifier qs w = Some q →
       is_Some (m !! q) ∧ q `suffix_of` w
       ∧ ∀ q', is_Some (m !! q') → q' `suffix_of` w → length q' ≤ length q)
  ∧ (∀ w, firstQualifier qs w = None →
       ∀ q, is_Some (m !! q) → ¬ q `suffix_of` w).
Proof.
  intros m qs Hv Hc Hs.
  destruct (validSchedule_facts m sc Hv) as [Hq _ _ _]. split_and!.
  - apply collectReplacements_sound.
  - rewrite applyQualifierReplacements_unfold. by apply rewriteQualifiers_runs.
  - intros w q Hf. destruct (firstQualifier_Some _ _ _ Hf) as [Hin Hsuf].
    split_and!; [by apply Hq|done|]. intros q' Hq' Hs'.
    apply (firstQualifier_longest qs w); [|done|by apply Hq|done].
    by destruct Hv as (_ & _ & ? & _).
  - intros w Hf q Hin. apply (firstQualifier_None qs); [done|by apply Hq].
Qed.

(** C3 (amended) at a concrete subtree, symbol index and schedule. *)
Lemma canonicalizer_rewrites_runs_witness :
  applyQualifierReplacements schedule_a (lit "a.F(ba.G)") node_a_ba (Some info_a)
  = rewriteRuns (collectReplacements node_a_ba info_a) [lit "a"] (lit "a.F(ba.G)").
Proof.
  refine (proj1 (proj2 (canonicalizer_rewrites_runs node_a_ba info_a schedule_a
                          (lit "a.F(ba.G)") _ _ _))); compute_done.
Defined.

(** ** Applying the canonicalizer twice *)

(** C4 as stated fails: [http.Get(u)] becomes [net/http.Get(u)], and a
    second application yields [net/net/http.Get(u)]. *)
Lemma canonicalize_twice_counterexample :
  let once := applyQualifierReplacements schedule_http (lit "http.Get(u)")
                node_http (Some info_http) in
  validSchedule (collectReplacements node_http info_http) schedule_http
  ∧ once = lit "net/http.Get(u)"
  ∧ applyQualifierReplacements schedule_http once node_http (Some info_http)
    = lit "net/net/http.Get(u)"
  ∧ applyQualifierReplacements schedule_http once node_http (Some info_http)
    ≠ once.
Proof. split_and!; [compute_done|by vm_compute..]. Qed.

(** C4, as the code behaves.  A second application of the canonicalizer
    is a no-op whenever no alias token (an alias followed by a dot) and no
    placeholder sentinel is left in the canonicalized text. *)
Theorem canonicalize_twice_without_tokens node info sc1 sc2 chunkCode :
  let m := collectReplacements node info in
  let once := applyQualifierReplacements sc1 chunkCode node (Some info) in
  validSchedule m sc2 → noAliasToken m once → sentinelFree once →
  applyQualifierReplacements sc2 once node (Some info) = once.
Proof.
  intros m once Hv Hm Hs. rewrite applyQualifierReplacements_unfold.
  by apply rewriteQualifiers_no_tokens.
Qed.

(** C4 (amended) at a concrete subtree, symbol index and schedule. *)
Lemma canonicalize_twice_without_tokens_witness :
  applyQualifierReplacements schedule_h
    (applyQualifierReplacements schedule_h (lit "h.Get(u)") node_h (Some info_h))
    node_h (Some info_h)
  = applyQualifierReplacements schedule_h (lit "h.Get(u)") node_h (Some info_h).
Proof.
  apply (canonicalize_twice_without_tokens node_h info_h schedule_h schedule_h
           (lit "h.Get(u)")); compute_done.
Defined.

(** ** Determinism *)

(** C10 as stated fails: with the aliases [__] and [abc] the placeholder
    of [abc] ends with the token [__.], so its number, which depends on the
    enumeration order of the map, is left in the output. *)
Lemma numbering_visible_counterexample :
  let m := collectReplacements node_underscores info_underscores in
  validSchedule m schedule_underscores_1
  ∧ validSchedule m schedule_underscores_2
  ∧ applyQualifierReplacements schedule_underscores_1 (lit "abc.Foo(__.Bar)")
      node_underscores (Some info_underscores)
    = lit "__GO_QUALIFIER_TEMP_1u.Foo(u.Bar)"
  ∧ applyQualifierReplacements schedule_underscores_2 (lit "abc.Foo(__.Bar)")
      node_underscores (Some info_underscores)
    = lit "__GO_QUALIFIER_TEMP_0u.Foo(u.Bar)"
  ∧ applyQualifierReplacements schedule_underscores_1 (lit "abc.Foo(__.Bar)")
      node_underscores (Some info_underscores)
    ≠ applyQualifierReplacements schedule_underscores_2 (lit "abc.Foo(__.Bar)")
        node_underscores (Some info_underscores).
Proof. split_and!; [compute_done..|by vm_compute|by vm_compute|by vm_compute]. Qed.

(** C10, as the code behaves.  When placeholders cannot collide (aliases
    are non-empty, dot-free and do not end with an underscore, no
    underscore of a path is followed by a dot or ends the path, and the chunk
    does not contain the sentinel), two runs produce the same text whatever
    the numbering of the placeholders and the order among aliases of equal
    length. *)
Theorem canonicalizer_deterministic node info sc1 sc2 chunkCode :
  let m := collectReplacements node info in
  validSchedule m sc1 → validSchedule m sc2 →
  collisionFree m → sentinelFree chunkCode →
  applyQualifierReplacements sc1 chunkCode node (Some info)
  = applyQualifierReplacements sc2 chunkCode node (Some info).
Proof.
  intros m Hv1 Hv2 Hc Hs. rewrite !applyQualifierReplacements_unfold.
  by apply rewriteQualifiers_deterministic.
Qed.

(** C10 (amended) at two different schedules. *)
Lemma canonicalizer_deterministic_witness :
  applyQualifierReplacements schedule_a_ab (lit "ab.Foo(); a.Bar()")
    node_a_ab (Some info_a_ab)
  = applyQualifierReplacements schedule_a_ab' (lit "ab.Foo(); a.Bar()")
      node_a_ab (Some info_a_ab).
Proof.
  apply (canonicalizer_deterministic node_a_ab info_a_ab); compute_done.
Defined.



(** C6 (amended) on the group [A struct{}], [B interface{}]. *)
Lemma grouped_declaration_chunks_witness :
  ∃ st' new,
    processDecl noPrinter idleOracle (lit "f.go") (lit "main") noImports
      groupOnLines emptyState groupOnLinesDecl = Some st'
    ∧ chunks st' = chunks emptyState ++ new
    ∧ Forall2 (fun spec c =>
                 ∃ k, chunkOf idleOracle (lit "f.go") groupOnLines noImports k
                        (specPos spec) (specEnd spec) (specName spec)
                        (specNode spec) c
                      ∧ specMeta TYPE spec c)
              (filter (fun spec => emitsChunk groupOnLines spec = true)
                 [typeSpecAt 8 18 2 "A" (StructType 10 []);
                  typeSpecAt 20 33 3 "B" (InterfaceType 22 [])]) new.
Proof.
  apply (grouped_declaration_chunks noPrinter idleOracle (lit "f.go") (lit "main")
           noImports groupOnLines emptyState groupOnLinesDecl TYPE).
  - reflexivity.
  - unfold validSpan. vm_compute. repeat split; discriminate.
Defined.

Example group_on_lines :
  match processDecl noPrinter idleOracle (lit "f.go") (lit "main") noImports
          groupOnLines emptyState groupOnLinesDecl with
  | Some (mkState [a; b] _ _) =>
      Document a = lit "A struct{}" ∧ Document b = lit "B interface{}"
      ∧ Metadata a !! lit "entity_name" = Some (MStr (lit "A"))
      ∧ Metadata b !! lit "entity_name" = Some (MStr (lit "B"))
      ∧ Metadata a !! lit "type_category" = Some (MStr (lit "struct"))
      ∧ Metadata b !! lit "type_category" = Some (MStr (lit "interface"))
      ∧ Metadata a !! lit "start_line" = Some (MInt 2)
      ∧ Metadata a !! lit "end_line" = Some (MInt 2)
      ∧ Metadata b !! lit "start_line" = Some (MInt 3)
      ∧ Metadata b !! lit "end_line" = Some (MInt 3)
  | _ => False
  end.
Proof. by vm_compute. Qed.

(** C6 as stated fails: on one line the two chunks have the same line
    range. *)
Lemma group_on_one_line_counterexample :
  match processDecl noPrinter idleOracle (lit "f.go") (lit "main") noImports
          groupOnOneLine emptyState groupOnOneLineDecl with
  | Some (mkState [a; b] _ _) =>
      Document a = lit "A struct{}" ∧ Document b = lit "B interface{}"
      ∧ Metadata a !! lit "start_line" = Some (MInt 1)
      ∧ Metadata a !! lit "end_line" = Some (MInt 1)
      ∧ Metadata b !! lit "start_line" = Some (MInt 1)
      ∧ Metadata b !! lit "end_line" = Some (MInt 1)
  | _ => False
  end.
Proof. by vm_compute. Qed.

(** C7 at a package of two files, the second of which cannot be read:
    the two declarations of the first file are in the result. *)
Lemma unreadable_file_isolated_witness :
  ∃ result log log',
    processGoProject noPrinter (onlyFile "var _ = 1; var _ = 2") idleOracle (lit ".")
      (inr ([] ++ packageOf ([twoBlankVars] ++ unreadableFile :: []) :: []))
    = Some (Succeeded result log)
    ∧ (∀ p info files g content decl startPos endPos name node,
         p ∈ [] ++ packageOf ([twoBlankVars] ++ unreadableFile :: []) :: [] →
         TypesInfo p = Some info → Syntax p = Some files → hasFset p = true →
         g ∈ files → onlyFile "var _ = 1; var _ = 2" (filePath g) = Some content →
         decl ∈ Decls g →
         dueUnit content decl startPos endPos name node →
         ∃ c k, c ∈ result
                ∧ chunkOf idleOracle (filePath g) content info k startPos endPos name
                    node c)
    ∧ processGoProject noPrinter (onlyFile "var _ = 1; var _ = 2") idleOracle (lit ".")
        (inr ([] ++ withSyntax (packageOf ([twoBlankVars] ++ unreadableFile :: []))
                      ([twoBlankVars] ++ []) :: []))
      = Some (Succeeded result log')
    ∧ Forall (fun c => Metadata c !! lit "file_path" ≠ Some (MStr (filePath unreadableFile)))
             result.
Proof.
  apply (unreadable_file_isolated noPrinter (onlyFile "var _ = 1; var _ = 2")
           idleOracle (lit ".") [] (packageOf ([twoBlankVars] ++ unreadableFile :: []))
           [] [twoBlankVars] unreadableFile []).
  - reflexivity.
  - reflexivity.
Defined.

(** The run of that project: the two chunks of f.go, and the read error
    of g.go in the log. *)
Example unreadable_file_run :
  match processGoProject noPrinter (onlyFile "var _ = 1; var _ = 2") idleOracle
          (lit ".") (inr [packageOf [twoBlankVars; unreadableFile]]) with
  | Some (Succeeded [c1; c2] log) =>
      Document c1 = lit "_ = 1" ∧ Document c2 = lit "_ = 2"
      ∧ Metadata c1 !! lit "file_path" = Some (MStr (lit "f.go"))
      ∧ Metadata c2 !! lit "file_path" = Some (MStr (lit "f.go"))
      ∧ log = [LogLoading (lit "."); LogFinishedLoading 1;
               LogErrorReadingFile (lit "g.go")]
  | _ => False
  end.
Proof. by vm_compute. Qed.

(** * Further properties *)

(** ** The collection of the aliases and the numbering of the placeholders *)

Lemma recordQualifier_fold_mono info l m0 a :
  is_Some (m0 !! a) → is_Some (fold_left (recordQualifier info) l m0 !! a).
Proof.
  revert m0. induction l as [|n l IH]; intros m0 Hm; [done|].
  cbn [fold_left]. apply IH. unfold recordQualifier.
  destruct n as [| | | | |X Sel| | | | | |]; try done.
  destruct X as [|ident| | | | | | | | | |]; try done.
  destruct (Uses info ident) as [[path|]|]; try done.
  case_decide; [|done]. rewrite lookup_insert. case_decide; [by eexists|done].
Qed.

Lemma recordQualifier_fold_complete info l m0 ident sel p :
  SelectorExpr (IdentNode ident) sel ∈ l →
  Uses info ident = Some (PkgName p) → Name ident ≠ p →
  is_Some (fold_left (recordQualifier info) l m0 !! Name ident).
Proof.
  intros Hin Hu Hne. revert m0. induction l as [|n l IH]; intros m0.
  { by apply elem_of_nil in Hin. }
  apply elem_of_cons in Hin as [<-|Hin]; [|by apply IH].
  cbn [fold_left recordQualifier]. rewrite Hu, decide_True by done.
  apply recordQualifier_fold_mono. rewrite lookup_insert_eq. by eexists.
Qed.

(** X1.  Every alias use of the subtree is recorded, and with the path all its
    uses agree on. *)
Theorem collectReplacements_complete node info ident sel p :
  SelectorExpr (IdentNode ident) sel ∈ Walk node →
  Uses info ident = Some (PkgName p) → Name ident ≠ p →
  is_Some (collectReplacements node info !! Name ident)
  ∧ ((∀ ident' sel' p', SelectorExpr (IdentNode ident') sel' ∈ Walk node →
        Name ident' = Name ident → Uses info ident' = Some (PkgName p') → p' = p) →
     collectReplacements node info !! Name ident = Some p).
Proof.
  intros Hin Hu Hne.
  pose proof (recordQualifier_fold_complete info (Walk node) ∅ ident sel p Hin Hu Hne)
    as [p' Hp'].
  split; [by exists p'|]. intros Hcons.
  unfold collectReplacements. rewrite Hp'.
  apply collectReplacements_sound in Hp' as (ident' & sel' & Hin' & Hname & Hu' & _).
  f_equal. by eapply Hcons.
Qed.

(** X1 at an example: the use [a.Bar] of the example is recorded with its path. *)
Lemma collectReplacements_complete_witness :
  is_Some (collectReplacements node_a_ab info_a_ab !! Name (ident 10 "a"))
  ∧ ((∀ ident' sel' p', SelectorExpr (IdentNode ident') sel' ∈ Walk node_a_ab →
        Name ident' = Name (ident 10 "a") →
        Uses info_a_ab ident' = Some (PkgName p') → p' = lit "pkg/a") →
     collectReplacements node_a_ab info_a_ab !! Name (ident 10 "a")
     = Some (lit "pkg/a")).
Proof.
  refine (collectReplacements_complete node_a_ab info_a_ab (ident 10 "a")
            (ident 12 "Bar") (lit "pkg/a") _ _ _).
  - vm_compute. repeat constructor.
  - reflexivity.
  - by vm_compute.
Defined.

Lemma collectReplacements_empty node info :
  noAliasUse info node → collectReplacements node info = ∅.
Proof.
  intros Hno. apply map_empty. intros a.
  destruct (collectReplacements node info !! a) as [p|] eqn:Hp; [|done].
  apply collectReplacements_sound in Hp as (ident & sel & Hin & Hname & Hu & Hne).
  destruct Hne. rewrite <-Hname. by eapply Hno.
Qed.

(** X2.  A declaration that uses no import alias is left byte for byte as it
    is, whatever the runtime does. *)
Theorem no_alias_use_unchanged sc chunkCode node info :
  noAliasUse info node →
  applyQualifierReplacements sc chunkCode node (Some info) = chunkCode.
Proof.
  intros Hno. rewrite applyQualifierReplacements_unfold.
  rewrite collectReplacements_empty by done. unfold rewriteQualifiers.
  by rewrite decide_True by apply map_size_empty.
Qed.

(** X2 at an example: [fmt.Println()] with [fmt] imported as [fmt] stays as it is. *)
Lemma no_alias_use_unchanged_witness :
  applyQualifierReplacements schedule_a (lit "fmt.Println()") node_fmt (Some info_fmt)
  = lit "fmt.Println()".
Proof.
  refine (no_alias_use_unchanged schedule_a (lit "fmt.Println()") node_fmt info_fmt _).
  intros ident sel p Hin Hu. vm_compute in Hin.
  repeat (apply elem_of_cons in Hin as [Hin|Hin]; [try discriminate Hin|]).
  - injection Hin as -> ->. vm_compute in Hu. injection Hu as <-. reflexivity.
  - by apply elem_of_nil in Hin.
Defined.

(** X3.  A chunk without a dot is never changed. *)
Theorem dot_free_chunk_unchanged sc chunkCode node info :
  dot ∉ chunkCode →
  applyQualifierReplacements sc chunkCode node info = chunkCode.
Proof.
  intros Hd. destruct info as [info|]; [|by destruct node].
  rewrite applyQualifierReplacements_unfold. unfold rewriteQualifiers.
  case_decide; [reflexivity|].
  destruct (assignPlaceholders 0 (rangeReplacements sc) ∅ ∅) as [tm fm].
  rewrite secondPass_replacePass, firstPass_replacePass.
  rewrite (replacePass_tail _ chunkCode) by done. by apply replacePass_tail.
Qed.

(** X3 at an example: a chunk without a dot, under the aliases [a] and [ab]. *)
Lemma dot_free_chunk_unchanged_witness :
  applyQualifierReplacements schedule_a_ab (lit "return a") node_a_ab (Some info_a_ab)
  = lit "return a".
Proof.
  refine (dot_free_chunk_unchanged schedule_a_ab (lit "return a") node_a_ab
            (Some info_a_ab) _).
  compute_done.
Defined.

(** * The numbering loop *)

Lemma assignPlaceholders_keeps i entries tm0 fm0 :
  (∀ q, q ∉ entries.*1 →
     (assignPlaceholders i entries tm0 fm0).1 !! q = tm0 !! q)
  ∧ (∀ j, (j < i)%Z →
     (assignPlaceholders i entries tm0 fm0).2 !! placeholderFor j
     = fm0 !! placeholderFor j).
Proof.
  revert i tm0 fm0. induction entries as [|[q0 p0] rest IH]; intros i tm0 fm0; [done|].
  cbn [assignPlaceholders]. destruct (IH (i + 1)%Z (<[q0 := placeholderFor i]> tm0)
    (<[placeholderFor i := p0]> fm0)) as [H1 H2]. split.
  - intros q Hq. cbn [fmap list_fmap fst] in Hq.
    apply not_elem_of_cons in Hq as [Hne Hq]. by rewrite H1, lookup_insert_ne.
  - intros j Hj. rewrite H2 by lia. rewrite lookup_insert_ne; [done|].
    intros Heq. apply placeholderFor_inj in Heq. lia.
Qed.

Lemma assignPlaceholders_lookup entries i tm0 fm0 k q p :
  NoDup entries.*1 → entries !! k = Some (q, p) →
  (assignPlaceholders i entries tm0 fm0).1 !! q
  = Some (placeholderFor (i + Z.of_nat k))
  ∧ (assignPlaceholders i entries tm0 fm0).2 !! placeholderFor (i + Z.of_nat k)
    = Some p.
Proof.
  revert i tm0 fm0 k. induction entries as [|[q0 p0] rest IH];
    intros i tm0 fm0 k Hnd Hk; [done|].
  cbn [fmap list_fmap fst] in Hnd. apply NoDup_cons in Hnd as [Hq0 Hnd].
  cbn [assignPlaceholders]. destruct k as [|k].
  - injection Hk as -> ->.
    destruct (assignPlaceholders_keeps (i + 1)%Z rest
                (<[q := placeholderFor i]> tm0) (<[placeholderFor i := p]> fm0))
      as [H1 H2].
    rewrite Z.add_0_r, H1, H2 by (done || lia). by rewrite !lookup_insert_eq.
  - replace (i + Z.of_nat (S k))%Z with ((i + 1) + Z.of_nat k)%Z by lia.
    by apply IH.
Qed.

(** X4.  Whatever the order in which the map is enumerated, every alias gets a
    placeholder numbered below the size of the map, the second map leads
    from that placeholder back to the alias's path, and two aliases never
    share a placeholder. *)
Theorem placeholders_round_trip (replacements : gmap str str) entries :
  entries ≡ₚ map_to_list replacements →
  let tempMap := (assignPlaceholders 0 entries ∅ ∅).1 in
  let finalMap := (assignPlaceholders 0 entries ∅ ∅).2 in
  (∀ a p, replacements !! a = Some p →
     ∃ k, k < size replacements
          ∧ tempMap !! a = Some (placeholderFor (Z.of_nat k))
          ∧ finalMap !! placeholderFor (Z.of_nat k) = Some p)
  ∧ (∀ a, is_Some (tempMap !! a) ↔ is_Some (replacements !! a))
  ∧ (∀ a b pl, tempMap !! a = Some pl → tempMap !! b = Some pl → a = b).
Proof.
  intros Hperm tempMap finalMap.
  assert (Hnd : NoDup entries.*1).
  { rewrite Hperm. apply NoDup_fst_map_to_list. }
  assert (Hlen : length entries = size replacements).
  { by rewrite Hperm, length_map_to_list. }
  assert (Hent : ∀ a p, replacements !! a = Some p ↔ ∃ k, entries !! k = Some (a, p)).
  { intros a p. rewrite <-elem_of_map_to_list, <-Hperm. apply list_elem_of_lookup. }
  assert (Hidx : ∀ a pl, tempMap !! a = Some pl →
            ∃ k p, entries !! k = Some (a, p) ∧ pl = placeholderFor (Z.of_nat k)).
  { intros a pl Ha. destruct (decide (a ∈ entries.*1)) as [Hin|Hin].
    - apply list_elem_of_fmap in Hin as ([a' p] & -> & Hin). cbn [fst] in *.
      apply list_elem_of_lookup in Hin as [k Hk]. exists k, p. split; [done|].
      destruct (assignPlaceholders_lookup entries 0 ∅ ∅ k a' p Hnd Hk) as [H1 _].
      unfold tempMap in Ha. rewrite H1 in Ha. by injection Ha as <-.
    - destruct (assignPlaceholders_keeps 0 entries ∅ ∅) as [H1 _].
      unfold tempMap in Ha. by rewrite H1, lookup_empty in Ha. }
  split_and!.
  - intros a p Ha. apply Hent in Ha as [k Hk]. exists k.
    split; [rewrite <-Hlen; by eapply lookup_lt_Some|].
    by apply (assignPlaceholders_lookup entries 0 ∅ ∅ k a p).
  - intros a. split.
    + intros [pl Ha]. apply Hidx in Ha as (k & p & Hk & _).
      exists p. apply Hent. by exists k.
    + intros [p Ha]. apply Hent in Ha as [k Hk].
      destruct (assignPlaceholders_lookup entries 0 ∅ ∅ k a p Hnd Hk) as [H1 _].
      by eexists.
  - intros a b pl Ha Hb.
    apply Hidx in Ha as (k1 & p1 & Hk1 & ->).
    apply Hidx in Hb as (k2 & p2 & Hk2 & Heq).
    apply placeholderFor_inj in Heq. assert (k1 = k2) as -> by lia.
    rewrite Hk1 in Hk2. by injection Hk2.
Qed.

(** X4 at an example: the numbering of the aliases [a] and [ab], enumerated [ab] first. *)
Lemma placeholders_round_trip_witness :
  let tempMap := (assignPlaceholders 0 entries_ab_a ∅ ∅).1 in
  let finalMap := (assignPlaceholders 0 entries_ab_a ∅ ∅).2 in
  (∀ a p, aliases_a_ab !! a = Some p →
     ∃ k, k < size aliases_a_ab
          ∧ tempMap !! a = Some (placeholderFor (Z.of_nat k))
          ∧ finalMap !! placeholderFor (Z.of_nat k) = Some p)
  ∧ (∀ a, is_Some (tempMap !! a) ↔ is_Some (aliases_a_ab !! a))
  ∧ (∀ a b pl, tempMap !! a = Some pl → tempMap !! b = Some pl → a = b).
Proof.
  refine (placeholders_round_trip aliases_a_ab entries_ab_a _).
  compute_done.
Defined.

(** * Signatures *)

Lemma renderFieldList_cons gts (f : Field) fs :
  renderFieldList gts (Some (f :: fs))
  = match Names f with
    | [] => [gts (Type_ f)]
    | names => map (fun name => Name name ++ lit " " ++ gts (Type_ f)) names
    end ++ renderFieldList gts (Some fs).
Proof. done. Qed.

Lemma renderFieldList_nonempty gts (f : Field) fs :
  renderFieldList gts (Some (f :: fs)) ≠ [].
Proof.
  rewrite renderFieldList_cons. by destruct (Names f).
Qed.

(** X5.  The parameters are always parenthesized; the results are left bare
    exactly when they are one anonymous result, omitted when there is none
    and parenthesized otherwise. *)
Theorem signature_result_parentheses Fprint info Params Results :
  let typeString := getTypeString Fprint info in
  getSignature Fprint info Params Results
  = lit "(" ++ Join (renderFieldList typeString Params) (lit ", ") ++ lit ")"
    ++ match singleAnonymous Results with
       | Some type => lit " " ++ typeString type
       | None =>
           match renderFieldList typeString Results with
           | [] => []
           | results => lit " (" ++ Join results (lit ", ") ++ lit ")"
           end
       end.
Proof.
  intros typeString. unfold getSignature, signatureWith. fold typeString.
  rewrite <-!(assoc_L (++)). do 3 f_equal.
  destruct Results as [[|f fs]|]; [done| |done].
  destruct fs as [|f2 fs].
  - unfold singleAnonymous. cbn [renderFieldList flat_map].
    rewrite (right_id_L [] (++)).
    destruct (Names f) as [|n1 [|n2 ns]]; done.
  - cbn [singleAnonymous]. rewrite renderFieldList_cons.
    pose proof (renderFieldList_nonempty typeString f2 fs) as Hne.
    destruct (renderFieldList typeString (Some (f2 :: fs))) as [|r rs]; [done|].
    destruct (Names f) as [|n1 [|n2 ns]]; done.
Qed.

(** ** The chunks of a declaration and their metadata *)

Ltac meta_lookup_all :=
  repeat first
    [ rewrite lookup_insert_eq
    | rewrite lookup_insert_ne by (by vm_compute)
    | rewrite lookup_empty ];
  try reflexivity.

Ltac schema_part :=
  first [ by meta_lookup_all
        | eexists; by meta_lookup_all
        | left; by meta_lookup_all
        | right; by meta_lookup_all ].

Ltac schema_kind := split_and!; schema_part.

Ltac solve_schema :=
  unfold chunkSchema; cbn [Metadata]; cbv zeta;
  split; [schema_part|]; split; [schema_part|]; split; [schema_part|];
  split; [schema_part|]; split; [schema_part|];
  first [ left; schema_kind
        | right; left; schema_kind
        | right; right; left; schema_kind
        | right; right; right; schema_kind ].

Section LocatorExtras.
Variable Fprint : Node -> option str.
Variable ReadFile : str -> option str.
Variable oracle : nat -> Schedule.

(** X6.  A function declaration with a valid span yields exactly one chunk: a
    method when it has a receiver, named after the receiver type, a
    function otherwise; the id always carries the bare function name. *)
Theorem function_declaration_chunk path packageName info content st decl f :
  declKind decl = FuncDeclOf f →
  validSpan (Offset (declPos decl)) (Offset (declEnd decl)) content →
  ∃ c raw,
    processDecl Fprint oracle path packageName info content st decl
    = Some (appendChunk c (countCall st))
    ∧ slice content (Offset (declPos decl)) (Offset (declEnd decl)) = Some raw
    ∧ Document c
      = applyQualifierReplacements (oracle (calls st)) raw (funcDeclNode f) (Some info)
    ∧ ID c = chunkID path (Line (declPos decl)) (Line (declEnd decl)) (Name (funcName f))
    ∧ Metadata c !! lit "signature"
      = Some (MStr (getSignature Fprint info (funcParams f) (funcResults f)))
    ∧ match Recv f with
      | Some (first :: _) =>
          let receiverType := getTypeString Fprint info (Type_ first) in
          Metadata c !! lit "entity_type" = Some (MStr (lit "method"))
          ∧ Metadata c !! lit "receiver_type" = Some (MStr receiverType)
          ∧ Metadata c !! lit "entity_name"
            = Some (MStr (receiverType ++ lit "." ++ Name (funcName f)))
      | _ =>
          Metadata c !! lit "entity_type" = Some (MStr (lit "function"))
          ∧ Metadata c !! lit "receiver_type" = None
          ∧ Metadata c !! lit "entity_name" = Some (MStr (Name (funcName f)))
      end.
Proof.
  intros Hk Hv. unfold processDecl.
  apply invalidOffsets_false in Hv as Hinv. rewrite Hinv.
  destruct (slice_valid _ _ _ Hv) as [raw Hraw]. rewrite Hraw, Hk.
  unfold processFuncDecl, canonicalize. eexists _, raw.
  split_and!; [reflexivity|done|reflexivity|reflexivity|..]; cbn [Metadata].
  - destruct (Recv f) as [[|first ?]|]; by meta_lookup_all.
  - destruct (Recv f) as [[|first ?]|]; cbv zeta; split_and!; by meta_lookup_all.
Qed.

(** X7.  A value spec records its declared type when it has one, else the
    inferred type of its first value when that is known, and never both. *)
Theorem value_spec_type_fields path packageName info content Tok st spec v :
  specKind spec = ValueSpecOf v →
  validSpan (Offset (specPos spec)) (Offset (specEnd spec)) content →
  ∃ c,
    processSpec Fprint oracle path packageName info content Tok st spec
    = Some (appendChunk c (countCall st))
    ∧ Metadata c !! lit "entity_name"
      = Some (MStr (Join (map Name (valueNames v)) (lit ", ")))
    ∧ match valueType v with
      | Nil =>
          Metadata c !! lit "declared_type" = None
          ∧ Metadata c !! lit "inferred_type"
            = match Values v with
              | first :: _ => MStr <$> TypeOf info first
              | [] => None
              end
      | declared =>
          Metadata c !! lit "declared_type"
          = Some (MStr (getTypeString Fprint info declared))
          ∧ Metadata c !! lit "inferred_type" = None
      end.
Proof.
  intros Hk Hv. unfold processSpec.
  apply invalidOffsets_false in Hv as Hinv. rewrite Hinv.
  destruct (slice_valid _ _ _ Hv) as [raw Hraw]. rewrite Hraw, Hk.
  unfold canonicalize. eexists. split_and!; [reflexivity|..]; cbn [Metadata].
  - destruct (valueType v); try (by meta_lookup_all);
      destruct (Values v) as [|first ?]; try (by meta_lookup_all);
      destruct (TypeOf info first); by meta_lookup_all.
  - destruct (valueType v); try (split; by meta_lookup_all);
      destruct (Values v) as [|first ?]; try (split; by meta_lookup_all);
      destruct (TypeOf info first); split; by meta_lookup_all.
Qed.

Lemma processSpec_schema path packageName info content Tok st spec :
  ∃ st' new,
    processSpec Fprint oracle path packageName info content Tok st spec = Some st'
    ∧ appended st st' new ∧ Forall (chunkSchema packageName) new.
Proof.
  unfold processSpec, canonicalize.
  destruct (invalidOffsets _ _ content) eqn:Hinv.
  { eexists _, []. split_and!; [done|apply appended_log|constructor]. }
  apply invalidOffsets_false in Hinv.
  destruct (slice_valid _ _ _ Hinv) as [raw ->].
  destruct (specKind spec) as [|v|t].
  - eexists _, []. split_and!; [done|apply appended_nil|constructor].
  - eexists _, [_]. split_and!; [reflexivity|split; [done|simpl; lia]|].
    constructor; [|constructor].
    destruct (valueType v); try solve_schema;
      destruct (Values v) as [|first ?]; try solve_schema;
      destruct (TypeOf info first); solve_schema.
  - eexists _, [_]. split_and!; [reflexivity|split; [done|simpl; lia]|].
    constructor; [|constructor]. solve_schema.
Qed.

Lemma processDecl_schema path packageName info content st decl :
  ∃ st' new,
    processDecl Fprint oracle path packageName info content st decl = Some st'
    ∧ appended st st' new ∧ Forall (chunkSchema packageName) new.
Proof.
  unfold processDecl.
  destruct (invalidOffsets _ _ content) eqn:Hinv.
  { eexists _, []. split_and!; [done|apply appended_log|constructor]. }
  apply invalidOffsets_false in Hinv.
  destruct (slice_valid _ _ _ Hinv) as [raw ->].
  destruct (declKind decl) as [f|Tok specs|].
  - unfold processFuncDecl, canonicalize.
    eexists _, [_]. split_and!; [reflexivity|split; [done|simpl; lia]|].
    constructor; [|constructor].
    destruct (Recv f) as [[|first ?]|]; solve_schema.
  - assert (∃ st' new,
        forEach (processSpec Fprint oracle path packageName info content Tok) specs st
        = Some st' ∧ appended st st' new ∧ Forall (chunkSchema packageName) new)
      as (st' & new & Hf & Happ & Hall).
    { destruct (forEach_emits
                  (processSpec Fprint oracle path packageName info content Tok)
                  (fun _ => chunkSchema packageName) specs)
        with (st := st) as (st' & new & Hf & Happ & Hall).
      { intros st0 spec _. apply processSpec_schema. }
      exists st', new. split_and!; [done..|].
      eapply Forall_impl; [exact Hall|]. by intros c (_ & _ & Hc). }
    destruct Tok; [|by exists st', new..].
    eexists _, []. split_and!; [done|apply appended_nil|constructor].
  - eexists _, []. split_and!; [done|apply appended_nil|constructor].
Qed.

Lemma processPackage_schema st pkg :
  ∃ st' new,
    processPackage Fprint ReadFile oracle st pkg = Some st'
    ∧ appended st st' new ∧ Forall (chunkSchema (pkgName pkg)) new.
Proof.
  unfold processPackage.
  destruct (TypesInfo pkg) as [info|];
    [|eexists _, []; split_and!; [done|apply appended_log|constructor]].
  destruct (Syntax pkg) as [files|];
    [|eexists _, []; split_and!; [done|apply appended_log|constructor]].
  destruct (hasFset pkg);
    [|eexists _, []; split_and!; [done|apply appended_log|constructor]].
  destruct (forEach_emits
              (processFile Fprint ReadFile oracle (pkgName pkg) info)
              (fun _ => chunkSchema (pkgName pkg)) files)
    with (st := st) as (st' & new & Hfe & Happ & Hall).
  { intros st0 file _. unfold processFile.
    destruct (ReadFile (filePath file)) as [content|].
    - destruct (forEach_emits
                  (processDecl Fprint oracle (filePath file) (pkgName pkg) info content)
                  (fun _ => chunkSchema (pkgName pkg)) (Decls file))
        with (st := st0) as (st' & new & Hf & Happ & Hall).
      { intros st1 decl _. apply processDecl_schema. }
      exists st', new. split_and!; [done..|].
      eapply Forall_impl; [exact Hall|]. by intros c (_ & _ & Hc).
    - eexists _, []. split_and!; [done|apply appended_log|constructor]. }
  exists st', new. split_and!; [done..|].
  eapply Forall_impl; [exact Hall|]. by intros c (_ & _ & Hc).
Qed.

(** X8.  Every chunk of a run carries the path of its file, the name of its
    package, an entity name and its lines, and exactly the kind-specific
    fields of a function, a method, a type or a value declaration. *)
Theorem chunk_metadata_schema projectPath pkgs :
  ∃ result log,
    processGoProject Fprint ReadFile oracle projectPath (inr pkgs)
    = Some (Succeeded result log)
    ∧ Forall (fun c => ∃ pkg, pkg ∈ pkgs ∧ chunkSchema (pkgName pkg) c) result.
Proof.
  unfold processGoProject. set (st0 := reportErrors pkgs _).
  destruct (forEach_emits (processPackage Fprint ReadFile oracle)
              (fun pkg => chunkSchema (pkgName pkg)) pkgs)
    with (st := st0) as (st' & new & Hf & [Hch _] & Hall).
  { intros st pkg _. apply processPackage_schema. }
  rewrite Hf. eexists _, _. split; [done|].
  rewrite Hch. unfold st0. by rewrite (proj1 (reportErrors_chunks _ _)).
Qed.
End LocatorExtras.

(** X6 at an example: the method [F] of [S]. *)
Lemma function_declaration_chunk_witness :
  ∃ c raw,
    processDecl noPrinter idleOracle (lit "f.go") (lit "main") noImports
      (lit "func (s S) F() {}") emptyState methodFDecl
    = Some (appendChunk c (countCall emptyState))
    ∧ slice (lit "func (s S) F() {}") 0 17 = Some raw
    ∧ Document c
      = applyQualifierReplacements (idleOracle 0) raw (funcDeclNode methodF)
          (Some noImports)
    ∧ ID c = chunkID (lit "f.go") 1 1 (lit "F")
    ∧ Metadata c !! lit "signature" = Some (MStr (lit "()"))
    ∧ Metadata c !! lit "entity_type" = Some (MStr (lit "method"))
    ∧ Metadata c !! lit "receiver_type" = Some (MStr (lit "S"))
    ∧ Metadata c !! lit "entity_name" = Some (MStr (lit "S.F")).
Proof.
  refine (function_declaration_chunk noPrinter idleOracle (lit "f.go") (lit "main")
            noImports (lit "func (s S) F() {}") emptyState methodFDecl methodF _ _).
  - reflexivity.
  - by vm_compute.
Defined.

(** X7 at an example: [var _ = 1] has no declared type, and the type of [1] is not known
    here. *)
Lemma value_spec_type_fields_witness :
  ∃ c,
    processSpec noPrinter idleOracle (lit "f.go") (lit "main") noImports
      (lit "var _ = 1; var _ = 2") VAR emptyState blankSpec
    = Some (appendChunk c (countCall emptyState))
    ∧ Metadata c !! lit "entity_name" = Some (MStr (lit "_"))
    ∧ Metadata c !! lit "declared_type" = None
    ∧ Metadata c !! lit "inferred_type" = None.
Proof.
  refine (value_spec_type_fields noPrinter idleOracle (lit "f.go") (lit "main")
            noImports (lit "var _ = 1; var _ = 2") VAR emptyState blankSpec
            (mkValueSpec [ident 4 "_"] Nil [basicLit 8]) _ _).
  - reflexivity.
  - by vm_compute.
Defined.

(** ** The run as a whole *)

Section RunExtras.
Variable Fprint : Node -> option str.
Variable ReadFile : str -> option str.

Lemma forEach_shifted {A : Type} (body1 body2 : State -> A -> option State)
    prefix l :
  (∀ st1 st2 x, shiftedBy prefix st1 st2 →
                shiftedOutcome prefix (body1 st1 x) (body2 st2 x)) →
  ∀ st1 st2, shiftedBy prefix st1 st2 →
             shiftedOutcome prefix (forEach body1 l st1) (forEach body2 l st2).
Proof.
  intros Hbody. induction l as [|x l IH]; intros st1 st2 Hst; [done|].
  cbn [forEach]. specialize (Hbody st1 st2 x Hst).
  destruct (body1 st1 x), (body2 st2 x); try done. by apply IH.
Qed.

Lemma processSpec_shifted oracle prefix path packageName info content Tok
    st1 st2 spec :
  shiftedBy prefix st1 st2 →
  shiftedOutcome prefix
    (processSpec Fprint oracle path packageName info content Tok st1 spec)
    (processSpec Fprint (laterOracle oracle (length prefix)) path packageName info
       content Tok st2 spec).
Proof.
  intros [Hch Hca]. unfold processSpec, canonicalize, laterOracle.
  destruct (invalidOffsets _ _ content); [done|].
  destruct (slice content _ _); [|done].
  destruct (specKind spec); [done|..]; split; simpl;
    rewrite ?Hch, ?Hca, <-?(assoc_L (++)); done.
Qed.

Lemma processDecl_shifted oracle prefix path packageName info content
    st1 st2 decl :
  shiftedBy prefix st1 st2 →
  shiftedOutcome prefix
    (processDecl Fprint oracle path packageName info content st1 decl)
    (processDecl Fprint (laterOracle oracle (length prefix)) path packageName info
       content st2 decl).
Proof.
  intros Hst. unfold processDecl.
  destruct (invalidOffsets _ _ content); [by destruct Hst|].
  destruct (slice content _ _); [|done].
  destruct (declKind decl) as [f|Tok specs|]; [| |done].
  - destruct Hst as [Hch Hca]. unfold processFuncDecl, canonicalize, laterOracle.
    split; simpl; rewrite ?Hch, ?Hca, <-?(assoc_L (++)); done.
  - destruct Tok; [done|..]; apply forEach_shifted; try done;
      intros; by apply processSpec_shifted.
Qed.

Lemma processPackage_shifted oracle prefix st1 st2 pkg :
  shiftedBy prefix st1 st2 →
  shiftedOutcome prefix
    (processPackage Fprint ReadFile oracle st1 pkg)
    (processPackage Fprint ReadFile (laterOracle oracle (length prefix)) st2 pkg).
Proof.
  intros Hst. unfold processPackage.
  destruct (TypesInfo pkg); [|by destruct Hst].
  destruct (Syntax pkg); [|by destruct Hst].
  destruct (hasFset pkg); [|by destruct Hst].
  apply forEach_shifted; [|done]. intros st1' st2' file Hst'. unfold processFile.
  destruct (ReadFile (filePath file)); [|by destruct Hst'].
  apply forEach_shifted; [|done]. intros. by apply processDecl_shifted.
Qed.

Lemma forEach_packages_appended oracle pkgs st :
  ∃ st' new, forEach (processPackage Fprint ReadFile oracle) pkgs st = Some st'
             ∧ appended st st' new.
Proof.
  destruct (forEach_emits (processPackage Fprint ReadFile oracle)
              (chunkOfPackage ReadFile oracle) pkgs) with (st := st)
    as (st' & new & Hf & Happ & _).
  { intros st0 pkg _. apply processPackage_emits. }
  by exists st', new.
Qed.

(** X9.  The chunks of a project are those of its first packages followed by
    those of the remaining packages processed on their own, the runtime
    making for them the choices it makes after the first ones: no state
    other than the list of chunks passes from one package to the next. *)
Theorem run_splits_by_package oracle projectPath ps1 ps2 :
  ∃ r1 r2 log log1 log2,
    processGoProject Fprint ReadFile oracle projectPath (inr (ps1 ++ ps2))
    = Some (Succeeded (r1 ++ r2) log)
    ∧ processGoProject Fprint ReadFile oracle projectPath (inr ps1)
      = Some (Succeeded r1 log1)
    ∧ processGoProject Fprint ReadFile (laterOracle oracle (length r1)) projectPath
        (inr ps2)
      = Some (Succeeded r2 log2).
Proof.
  unfold processGoProject.
  set (s12 := reportErrors (ps1 ++ ps2) _).
  set (s1 := reportErrors ps1 _). set (s2 := reportErrors ps2 _).
  assert (H12 : chunks s12 = [] ∧ calls s12 = 0)
    by (unfold s12; by rewrite !(proj1 (reportErrors_chunks _ _)),
                               !(proj2 (reportErrors_chunks _ _))).
  assert (H1 : chunks s1 = [] ∧ calls s1 = 0)
    by (unfold s1; by rewrite !(proj1 (reportErrors_chunks _ _)),
                              !(proj2 (reportErrors_chunks _ _))).
  assert (H2 : chunks s2 = [] ∧ calls s2 = 0)
    by (unfold s2; by rewrite !(proj1 (reportErrors_chunks _ _)),
                              !(proj2 (reportErrors_chunks _ _))).
  clearbody s12 s1 s2. rewrite forEach_app.
  destruct (forEach_packages_appended oracle ps1 s1) as (a & r1 & Ha & [Hac Han]).
  rewrite (proj1 H1) in Hac. rewrite (proj2 H1) in Han. simpl in Hac, Han.
  destruct (forEach_packages_appended (laterOracle oracle (length r1)) ps2 s2)
    as (c & r2 & Hc & [Hcc _]).
  rewrite (proj1 H2) in Hcc. simpl in Hcc.
  pose proof (forEach_sameOutput (processPackage Fprint ReadFile oracle) ps1
                (fun x y p H => processPackage_sameOutput Fprint ReadFile oracle x y p H)
                s12 s1) as Hsame.
  rewrite Ha in Hsame.
  destruct (forEach (processPackage Fprint ReadFile oracle) ps1 s12) as [b|] eqn:Hb;
    [|destruct Hsame; split; [by rewrite (proj1 H12), (proj1 H1)
                              |by rewrite (proj2 H12), (proj2 H1)]].
  assert (sameOutput b a) as [Hbc Hbn].
  { apply Hsame. split; [by rewrite (proj1 H12), (proj1 H1)
                        |by rewrite (proj2 H12), (proj2 H1)]. }
  pose proof (forEach_shifted (processPackage Fprint ReadFile oracle)
                (processPackage Fprint ReadFile (laterOracle oracle (length r1)))
                r1 ps2
                (fun x y p H => processPackage_shifted oracle r1 x y p H) b s2)
    as Hshift.
  rewrite Hc in Hshift.
  assert (Hbs : shiftedBy r1 b s2).
  { split; [by rewrite Hbc, Hac, (proj1 H2), (right_id_L [] (++))
           |rewrite Hbn, Han, (proj2 H2); lia]. }
  specialize (Hshift Hbs).
  destruct (forEach (processPackage Fprint ReadFile oracle) ps2 b) as [d|] eqn:Hd;
    [|done].
  destruct Hshift as [Hdc _].
  exists r1, r2, (logs d), (logs a), (logs c).
  rewrite Ha, Hc. split_and!; [|by rewrite Hac|by rewrite Hcc].
  by rewrite Hdc, Hcc.
Qed.

Section FixedOracle.
Variable oracle : nat -> Schedule.

Lemma forEach_logs_grow {A : Type} (body : State -> A -> option State) l :
  (∀ st x st', body st x = Some st' → logs st `prefix_of` logs st') →
  ∀ st st', forEach body l st = Some st' → logs st `prefix_of` logs st'.
Proof.
  intros Hbody. induction l as [|x l IH]; intros st st' Hf.
  - by injection Hf as ->.
  - cbn [forEach] in Hf. destruct (body st x) as [st1|] eqn:Hx; [|done].
    etrans; [by eapply Hbody|by apply IH].
Qed.

Lemma processSpec_logs_grow path packageName info content Tok st spec st' :
  processSpec Fprint oracle path packageName info content Tok st spec = Some st' →
  logs st `prefix_of` logs st'.
Proof.
  unfold processSpec, canonicalize.
  destruct (invalidOffsets _ _ content); [intros [= <-]; by apply prefix_app_r|].
  destruct (slice content _ _); [|done].
  destruct (specKind spec); by intros [= <-].
Qed.

Lemma processDecl_logs_grow path packageName info content st decl st' :
  processDecl Fprint oracle path packageName info content st decl = Some st' →
  logs st `prefix_of` logs st'.
Proof.
  unfold processDecl.
  destruct (invalidOffsets _ _ content); [intros [= <-]; by apply prefix_app_r|].
  destruct (slice content _ _); [|done].
  destruct (declKind decl) as [f|Tok specs|]; [by intros [= <-]| |by intros [= <-]].
  destruct Tok; [by intros [= <-]|..]; apply forEach_logs_grow;
    intros ???; apply processSpec_logs_grow.
Qed.

Lemma processPackage_logs_grow st pkg st' :
  processPackage Fprint ReadFile oracle st pkg = Some st' →
  logs st `prefix_of` logs st'.
Proof.
  unfold processPackage.
  destruct (TypesInfo pkg); [|intros [= <-]; by apply prefix_app_r].
  destruct (Syntax pkg); [|intros [= <-]; by apply prefix_app_r].
  destruct (hasFset pkg); [|intros [= <-]; by apply prefix_app_r].
  apply forEach_logs_grow. intros st0 file st1. unfold processFile.
  destruct (ReadFile (filePath file)); [|intros [= <-]; by apply prefix_app_r].
  apply forEach_logs_grow. intros ???. apply processDecl_logs_grow.
Qed.

Lemma run_sameOutput projectPath pkgs1 pkgs2 :
  (∀ st1 st2, sameOutput st1 st2 →
     sameOutcome (forEach (processPackage Fprint ReadFile oracle) pkgs1 st1)
                 (forEach (processPackage Fprint ReadFile oracle) pkgs2 st2)) →
  ∃ result log1 log2,
    processGoProject Fprint ReadFile oracle projectPath (inr pkgs1)
    = Some (Succeeded result log1)
    ∧ processGoProject Fprint ReadFile oracle projectPath (inr pkgs2)
      = Some (Succeeded result log2).
Proof.
  intros Hsim. unfold processGoProject.
  set (s1 := reportErrors pkgs1 _). set (s2 := reportErrors pkgs2 _).
  assert (Hst : sameOutput s1 s2).
  { unfold s1, s2, sameOutput.
    by rewrite !(proj1 (reportErrors_chunks _ _)), !(proj2 (reportErrors_chunks _ _)). }
  specialize (Hsim s1 s2 Hst).
  destruct (forEach_packages_appended oracle pkgs1 s1) as (a & new & Ha & _).
  rewrite Ha in Hsim. rewrite Ha.
  destruct (forEach _ pkgs2 s2) as [b|]; [|done].
  destruct Hsim as [Hch _]. exists (chunks a), (logs a), (logs b).
  by rewrite Hch.
Qed.

(** X10.  A package whose type information, syntax trees or file set is missing
    is skipped: the run succeeds with the chunks of the other packages and
    the skip is in the log. *)
Theorem unusable_package_skipped projectPath ps1 pkg ps2 :
  unusable pkg →
  ∃ result log log',
    processGoProject Fprint ReadFile oracle projectPath (inr (ps1 ++ pkg :: ps2))
    = Some (Succeeded result log)
    ∧ processGoProject Fprint ReadFile oracle projectPath (inr (ps1 ++ ps2))
      = Some (Succeeded result log')
    ∧ LogSkippingPackage (pkgID pkg) ∈ log.
Proof.
  intros Hun.
  assert (Hskip : ∀ st, processPackage Fprint ReadFile oracle st pkg
                        = Some (logPrintf (LogSkippingPackage (pkgID pkg)) st)).
  { intros st. unfold processPackage.
    destruct Hun as [->|[Hs|Hf]]; [done|..].
    - rewrite Hs. by destruct (TypesInfo pkg).
    - rewrite Hf. by destruct (TypesInfo pkg), (Syntax pkg). }
  destruct (run_sameOutput projectPath (ps1 ++ pkg :: ps2) (ps1 ++ ps2))
    as (result & log & log' & Hrun & Hrun').
  { intros st1 st2 Hst. rewrite !forEach_app.
    pose proof (forEach_sameOutput (processPackage Fprint ReadFile oracle) ps1
                  (fun x y p H => processPackage_sameOutput Fprint ReadFile oracle x y p H)
                  st1 st2 Hst) as H1.
    destruct (forEach _ ps1 st1) as [a|], (forEach _ ps1 st2) as [b|]; try done.
    cbn [forEach]. rewrite Hskip.
    apply forEach_sameOutput; [|by apply sameOutput_log].
    intros. by apply processPackage_sameOutput. }
  exists result, log, log'. split_and!; [done..|].
  unfold processGoProject in Hrun. rewrite forEach_app in Hrun.
  destruct (forEach _ ps1 _) as [a|] eqn:Ha; [|done].
  cbn [forEach] in Hrun. rewrite Hskip in Hrun.
  destruct (forEach _ ps2 _) as [b|] eqn:Hb; [|done].
  injection Hrun as _ <-.
  apply (forEach_logs_grow (processPackage Fprint ReadFile oracle)) in Hb as [k ->];
    [|intros ???; apply processPackage_logs_grow].
  cbn [logPrintf logs]. rewrite !elem_of_app. left. right. by left.
Qed.

(** X11.  The load errors of the packages are written to the log and change
    nothing else: the chunks are those of the same packages without
    errors. *)
Theorem package_errors_only_logged projectPath pkgs (errors : Package -> list str) :
  ∃ result log log',
    processGoProject Fprint ReadFile oracle projectPath (inr pkgs)
    = Some (Succeeded result log)
    ∧ processGoProject Fprint ReadFile oracle projectPath
        (inr (map (fun pkg => withErrors pkg (errors pkg)) pkgs))
      = Some (Succeeded result log').
Proof.
  apply run_sameOutput. induction pkgs as [|pkg pkgs IH]; intros st1 st2 Hst; [done|].
  cbn [map forEach].
  pose proof (processPackage_sameOutput Fprint ReadFile oracle st1 st2 pkg Hst) as H1.
  change (processPackage Fprint ReadFile oracle st2 (withErrors pkg (errors pkg)))
    with (processPackage Fprint ReadFile oracle st2 pkg).
  destruct (processPackage _ _ _ st1 pkg), (processPackage _ _ _ st2 pkg); try done.
  by apply IH.
Qed.

(** X12.  A run returns an error exactly when the packages cannot be loaded; it
    then has no chunks, and the error wraps the loader's. *)
Theorem run_fails_only_on_load_error projectPath loaded :
  ∃ returned,
    processGoProject Fprint ReadFile oracle projectPath loaded = Some returned
    ∧ match loaded, returned with
      | inl err, Failed e log =>
          e = lit "failed to load packages: " ++ err
          ∧ log = [LogLoading projectPath]
      | inr pkgs, Succeeded result log =>
          [LogLoading projectPath; LogFinishedLoading (length pkgs)] `prefix_of` log
      | _, _ => False
      end.
Proof.
  destruct loaded as [err|pkgs].
  - by eexists.
  - unfold processGoProject.
    match goal with |- context [forEach _ _ ?s] => set (st0 := s) end.
    destruct (forEach_packages_appended oracle pkgs st0) as (a & new & Ha & _).
    rewrite Ha. eexists. split; [done|].
    apply (forEach_logs_grow (processPackage Fprint ReadFile oracle)) in Ha;
      [|intros ???; apply processPackage_logs_grow].
    cbn beta iota. etrans; [|exact Ha]. unfold st0, reportErrors.
    assert (∀ l st, logs st `prefix_of` logs (fold_left (fun st pkg =>
              fold_left (fun st e => logPrintf (LogPackageError (pkgID pkg) e) st)
                        (Errors pkg) st) l st)) as Hfold.
    { clear. induction l as [|pkg l IH]; intros st; [done|].
      cbn [fold_left]. etrans; [|apply IH].
      generalize (Errors pkg). intros es. revert st.
      induction es as [|e es IHe]; intros st; [done|].
      cbn [fold_left]. etrans; [|apply IHe]. by apply prefix_app_r. }
    set (s := logPrintf (LogFinishedLoading (length pkgs)) _).
    change [LogLoading projectPath; LogFinishedLoading (length pkgs)] with (logs s).
    case_bool_decide.
    + apply Hfold.
    + etrans; [apply (Hfold pkgs)|]. by apply prefix_app_r.
Qed.
End FixedOracle.
End RunExtras.

(** X10 at an example: a broken package in front of the package of f.go. *)
Lemma unusable_package_skipped_witness :
  ∃ result log log',
    processGoProject noPrinter (onlyFile "var _ = 1; var _ = 2") idleOracle (lit ".")
      (inr ([] ++ brokenPackage :: [packageOf [twoBlankVars]]))
    = Some (Succeeded result log)
    ∧ processGoProject noPrinter (onlyFile "var _ = 1; var _ = 2") idleOracle (lit ".")
        (inr ([] ++ [packageOf [twoBlankVars]]))
      = Some (Succeeded result log')
    ∧ LogSkippingPackage (pkgID brokenPackage) ∈ log.
Proof.
  refine (unusable_package_skipped noPrinter (onlyFile "var _ = 1; var _ = 2")
            idleOracle (lit ".") [] brokenPackage [packageOf [twoBlankVars]] _).
  by left.
Defined.

(** ** The single pass of [go_ast_parser.go] *)

Lemma chain_absent q' u path :
  q' ≠ [] → dot ∉ u → path ≠ [] → head path ≠ Some dot → chainFree q' path →
  ¬ occursIn (q' ++ [dot]) ((u ++ path) ++ [dot]).
Proof.
  intros Hne Hu Hp Hh Hc (x & y & Heq).
  destruct (exists_last Hne) as (q'' & c & ->).
  unfold chainFree in Hc. rewrite last_snoc in Hc. apply Contains_false in Hc.
  rewrite <-!(assoc_L (++)) in Heq. rewrite (assoc_L (++) x) in Heq.
  cbn [app] in Heq.
  apply app_eq_inv in Heq as [(k & -> & Hk)|(k & Hx & Hk)].
  - destruct k as [|c1 [|c2 k]].
    + apply Hc. exists [], y. cbn [app] in *. by rewrite <-Hk.
    + injection Hk as _ Hk. destruct path as [|d path]; [done|].
      injection Hk as <- _. by destruct Hh.
    + injection Hk as _ Hd _. apply Hu. rewrite <-Hd.
      rewrite !elem_of_app. right. right. by left.
  - apply Hc. exists k, y. by rewrite Hk.
Qed.

Lemma single_pass_fired m qs u path :
  Forall (fun q' => q' ≠ [] ∧ (dot ∉ q') ∧ chainFree q' path) qs →
  dot ∉ u → path ≠ [] → head path ≠ Some dot →
  replacePass (firstPairs m qs) ((u ++ path) ++ [dot]) = (u ++ path) ++ [dot].
Proof.
  intros Hqs Hu Hp Hh. apply replacePass_absent, Forall_forall.
  intros [o n] Hin. apply list_elem_of_fmap in Hin as (q & [= -> ->] & Hin).
  rewrite Forall_forall in Hqs. destruct (Hqs q Hin) as (? & ? & ?).
  by apply chain_absent.
Qed.

Lemma single_pass_run m qs w :
  cascadeFree m → NoDup qs → (∀ q, q ∈ qs → is_Some (m !! q)) → dot ∉ w →
  replacePass (firstPairs m qs) (w ++ [dot]) = rewriteRun m qs w ++ [dot].
Proof.
  intros Hm Hnd Hin Hw. unfold rewriteRun.
  induction qs as [|q qs IH]; [done|].
  apply NoDup_cons in Hnd as [Hq Hnd].
  destruct (Hin q) as [p Hp]; [by left|].
  destruct (Hm q p Hp) as (Hne & Hdot & Hpne & Hhead & Hchain).
  cbn [firstPairs map replacePass fold_left fst snd firstQualifier].
  rewrite ReplaceAll_run by done. unfold rewriteSuffix.
  destruct (decide (q `suffix_of` w)) as [Hs|Hs].
  - assert (mapGet m q = p) as -> by (unfold mapGet; by rewrite Hp).
    apply single_pass_fired; [| |done..].
    2: { intros Hd. apply Hw. rewrite <-(take_drop (length w - length q) w).
         apply elem_of_app. by left. }
    apply Forall_forall. intros q' Hq'.
    destruct (Hin q') as [p' Hp']; [by right|].
    destruct (Hm q' p' Hp') as (? & ? & _).
    destruct (Hchain q' p' Hp') as [->|?]; done.
  - apply IH; [done|]. intros q' Hq'. apply Hin. by right.
Qed.

Lemma replaceQualifiers_replacePass m qs chunkCode :
  GoAstParser.replaceQualifiers m qs chunkCode = replacePass (firstPairs m qs) chunkCode.
Proof. apply firstPass_replacePass. Qed.

Lemma validOrder_facts m qs :
  GoAstParser.validOrder m qs →
  NoDup qs ∧ ∀ q, q ∈ qs ↔ is_Some (m !! q).
Proof.
  intros [Hp _]. split.
  - rewrite Hp. apply NoDup_fst_map_to_list.
  - intros q. rewrite Hp, list_elem_of_fmap. split.
    + intros ([q' p] & -> & Hin). apply elem_of_map_to_list in Hin. by eexists.
    + intros [p Hq]. exists (q, p). split; [done|]. by apply elem_of_map_to_list.
Qed.

Lemma single_pass_runs m qs chunkCode :
  GoAstParser.validOrder m qs → cascadeFree m →
  GoAstParser.replaceQualifiers m qs chunkCode = rewriteRuns m qs chunkCode.
Proof.
  intros Hv Hm. destruct (validOrder_facts m qs Hv) as [Hnd Hin].
  rewrite replaceQualifiers_replacePass. unfold rewriteRuns.
  pose proof (splitDots_join chunkCode) as Hj.
  destruct (splitDots_dotfree chunkCode) as [Hruns Htail].
  destruct (splitDots chunkCode) as [runs tail]. cbn [fst snd] in *.
  rewrite <-Hj at 1. rewrite replacePass_joinDots; [|apply Forall_forall|done].
  - unfold joinDots. f_equal. clear Hj.
    induction Hruns as [|w runs Hw _ IH]; [done|].
    cbn [map flat_map]. rewrite IH. f_equal.
    apply single_pass_run; [done..| |done]. intros q. apply Hin.
  - intros [o n] Ho. apply list_elem_of_fmap in Ho as (q & [= -> ->] & Hq).
    cbn [fst]. apply Hin in Hq as [p Hp]. by destruct (Hm q p Hp) as (_ & ? & _).
Qed.

(** X13.  When replacing by a path cannot produce the token of another alias,
    the single pass of [go_ast_parser.go] replaces, in every dot-free run
    followed by a dot, the longest alias that ends the run by its path and
    changes nothing else, whatever order equal-length aliases come in. *)
Theorem single_pass_rewrites_runs node info qs chunkCode :
  let m := collectReplacements node info in
  GoAstParser.validOrder m qs → cascadeFree m →
  GoAstParser.replaceQualifiers m qs chunkCode = rewriteRuns m qs chunkCode
  ∧ ∀ qs', GoAstParser.validOrder m qs' →
      GoAstParser.replaceQualifiers m qs' chunkCode
      = GoAstParser.replaceQualifiers m qs chunkCode.
Proof.
  intros m Hv Hm. split; [by apply single_pass_runs|].
  intros qs' Hv'. rewrite !single_pass_runs by done.
  destruct (validOrder_facts m qs Hv) as [Hnd Hin].
  destruct (validOrder_facts m qs' Hv') as [Hnd' Hin'].
  apply rewriteRuns_order; [|by destruct Hv'|by destruct Hv].
  apply NoDup_Permutation; [done..|]. intros q. by rewrite Hin, Hin'.
Qed.

(** X13 at an example: the aliases [a] and [ab] with the paths [pkg/a] and [pkg/ab]. *)
Lemma single_pass_rewrites_runs_witness :
  GoAstParser.replaceQualifiers (collectReplacements node_a_ab info_a_ab)
    [lit "ab"; lit "a"] (lit "ab.Foo(); a.Bar()")
  = rewriteRuns (collectReplacements node_a_ab info_a_ab) [lit "ab"; lit "a"]
      (lit "ab.Foo(); a.Bar()")
  ∧ ∀ qs', GoAstParser.validOrder (collectReplacements node_a_ab info_a_ab) qs' →
      GoAstParser.replaceQualifiers (collectReplacements node_a_ab info_a_ab) qs'
        (lit "ab.Foo(); a.Bar()")
      = GoAstParser.replaceQualifiers (collectReplacements node_a_ab info_a_ab)
          [lit "ab"; lit "a"] (lit "ab.Foo(); a.Bar()").
Proof.
  refine (single_pass_rewrites_runs node_a_ab info_a_ab [lit "ab"; lit "a"]
            (lit "ab.Foo(); a.Bar()") _ _).
  - compute_done.
  - compute_done.
Defined.

(** X14.  The two versions of the rewrite agree: when neither placeholders can
    collide nor replacements cascade, the two passes of [allsymbols.go] and
    the single pass of [go_ast_parser.go] produce the same text. *)
Theorem two_pass_agrees_with_single_pass node info sc qs chunkCode :
  let m := collectReplacements node info in
  validSchedule m sc → GoAstParser.validOrder m qs →
  collisionFree m → cascadeFree m → sentinelFree chunkCode →
  applyQualifierReplacements sc chunkCode node (Some info)
  = GoAstParser.replaceQualifiers m qs chunkCode.
Proof.
  intros m Hv Hq Hc Hm Hs.
  rewrite applyQualifierReplacements_unfold, rewriteQualifiers_runs by done.
  rewrite single_pass_runs by done.
  destruct (validSchedule_facts m sc Hv) as [Hin Hnd _ _].
  destruct (validOrder_facts m qs Hq) as [Hnd' Hin'].
  apply rewriteRuns_order; [|by destruct Hv as (_ & _ & ? & _)|by destruct Hq].
  apply NoDup_Permutation; [done..|]. intros q. by rewrite Hin, Hin'.
Qed.

(** X14 at an example: both versions on [ab.Foo(); a.Bar()]. *)
Lemma two_pass_agrees_with_single_pass_witness :
  applyQualifierReplacements schedule_a_ab (lit "ab.Foo(); a.Bar()") node_a_ab
    (Some info_a_ab)
  = GoAstParser.replaceQualifiers (collectReplacements node_a_ab info_a_ab)
      [lit "ab"; lit "a"] (lit "ab.Foo(); a.Bar()").
Proof.
  refine (two_pass_agrees_with_single_pass node_a_ab info_a_ab schedule_a_ab
            [lit "ab"; lit "a"] (lit "ab.Foo(); a.Bar()") _ _ _ _ _).
  - compute_done.
  - compute_done.
  - compute_done.
  - compute_done.
  - compute_done.
Defined.

(** ** The locator of [go_ast_parser.go] *)

Section GoAstParserFacts.
Import GoAstParserLocator.
Variable Fprint : Node -> option str.
Variable ReadFile : str -> option str.
Variable oracle : nat -> list str.

Lemma forEach_map {A B S : Type} (body : S -> B -> option S) (f : A -> B) l st :
  forEach body (map f l) st = forEach (fun st x => body st (f x)) l st.
Proof.
  revert st. induction l as [|x l IH]; intros st; [done|].
  cbn [map forEach]. by destruct (body st (f x)).
Qed.

Lemma forEach_ext {A S : Type} (body1 body2 : S -> A -> option S) l st :
  (∀ st x, body1 st x = body2 st x) → forEach body1 l st = forEach body2 l st.
Proof.
  intros Hext. revert st. induction l as [|x l IH]; intros st; [done|].
  cbn [forEach]. rewrite Hext. by destruct (body2 st x).
Qed.

Lemma visitDecl_filter path packageName info content decls st :
  forEach (visitDecl Fprint oracle path packageName info content)
          (filter isFuncDecl decls) st
  = forEach (visitDecl Fprint oracle path packageName info content) decls st.
Proof.
  revert st. induction decls as [|decl decls IH]; intros st; [done|].
  rewrite filter_cons. case_decide as Hf.
  - cbn [forEach]. by destruct (visitDecl _ _ _ _ _ _ st decl).
  - cbn [forEach]. rewrite IH. unfold isFuncDecl in Hf. unfold visitDecl at 2.
    by destruct (declKind decl).
Qed.

Lemma processFile_functionsOf packageName info st file :
  processFile Fprint ReadFile oracle packageName info st (functionsOf file)
  = processFile Fprint ReadFile oracle packageName info st file.
Proof.
  unfold processFile, functionsOf. cbn [filePath Decls].
  destruct (ReadFile (filePath file)); [|done]. apply visitDecl_filter.
Qed.

Lemma processPackage_functionsOf st pkg :
  processPackage Fprint ReadFile oracle st (functionsOfPackage pkg)
  = processPackage Fprint ReadFile oracle st pkg.
Proof.
  unfold processPackage, functionsOfPackage. cbn.
  destruct (TypesInfo pkg); [|done]. destruct (Syntax pkg) as [files|]; [|done].
  cbn. destruct (hasFset pkg); [|done].
  rewrite forEach_map. apply forEach_ext. intros. apply processFile_functionsOf.
Qed.

Lemma fold_left_fmap {A B C} (f : A -> B -> A) (g : C -> B) l a :
  fold_left f (map g l) a = fold_left (fun a x => f a (g x)) l a.
Proof. revert a. induction l as [|x l IH]; intros a; [done|]. apply IH. Qed.

Lemma reportErrors_functionsOf pkgs st :
  reportErrors (map functionsOfPackage pkgs) st = reportErrors pkgs st.
Proof.
  unfold reportErrors. rewrite fold_left_fmap.
  rewrite (bool_decide_ext (Forall _ (map functionsOfPackage pkgs))
             (Forall (fun pkg => Errors pkg = []) pkgs)); [done|].
  by rewrite Forall_fmap.
Qed.

(** X15.  The walk of [go_ast_parser.go] sees the function declarations only:
    a run on a project is the run on the project with every other
    declaration removed, chunks and log alike. *)
Theorem only_functions_are_chunked projectPath pkgs :
  processGoProject Fprint ReadFile oracle projectPath (inr pkgs)
  = processGoProject Fprint ReadFile oracle projectPath
      (inr (map functionsOfPackage pkgs)).
Proof.
  unfold processGoProject. rewrite reportErrors_functionsOf, length_map.
  rewrite forEach_map.
  by rewrite (forEach_ext (fun st x => processPackage _ _ _ st (functionsOfPackage x))
                (processPackage Fprint ReadFile oracle))
    by (intros; apply processPackage_functionsOf).
Qed.

Lemma forEach_invariant {A S : Type} (P : S -> Prop) (body : S -> A -> option S) l :
  (∀ st x, x ∈ l → P st → ∃ st', body st x = Some st' ∧ P st') →
  ∀ st, P st → ∃ st', forEach body l st = Some st' ∧ P st'.
Proof.
  induction l as [|x l IH]; intros Hbody st Hst; [by exists st|].
  destruct (Hbody st x) as (st1 & Hx & H1); [by left|done|].
  cbn [forEach]. rewrite Hx. apply IH; [|done].
  intros st2 y Hy. apply Hbody. by right.
Qed.

Lemma visitDecl_chunk path packageName info content decl st (Q : ChromaDocument -> Prop) :
  (∀ c, functionChunk oracle path content info decl c → Q c) →
  Forall Q (chunks st) →
  ∃ st', visitDecl Fprint oracle path packageName info content st decl = Some st'
         ∧ Forall Q (chunks st').
Proof.
  intros HQ Hst. unfold visitDecl.
  destruct (declKind decl) as [funcDecl| |] eqn:Hkind; try by exists st.
  unfold visitFuncDecl.
  destruct (invalidOffsets _ _ content) eqn:Hinv; [by eexists|].
  apply invalidOffsets_false in Hinv.
  destruct (slice_valid _ _ _ Hinv) as [raw Hraw]. rewrite Hraw.
  eexists. split; [reflexivity|]. cbn [chunks].
  apply Forall_app. split; [done|]. apply Forall_singleton, HQ.
  exists funcDecl, raw, (calls st). cbn [Document ID Metadata].
  cbv zeta. split; [done|]. split; [done|]. split; [done|].
  split; [reflexivity|]. split; [reflexivity|].
  destruct (Recv funcDecl) as [[|first rest]|]; split_and!; by meta_lookup.
Qed.

Lemma processFile_chunk packageName info file st (Q : ChromaDocument -> Prop) :
  (∀ content decl c,
     ReadFile (filePath file) = Some content → decl ∈ Decls file →
     functionChunk oracle (filePath file) content info decl c → Q c) →
  Forall Q (chunks st) →
  ∃ st', processFile Fprint ReadFile oracle packageName info st file = Some st'
         ∧ Forall Q (chunks st').
Proof.
  intros HQ Hst. unfold processFile.
  destruct (ReadFile (filePath file)) as [content|] eqn:Hread; [|by eexists].
  apply (forEach_invariant (fun st => Forall Q (chunks st))); [|done].
  intros st1 decl Hdecl H1. apply visitDecl_chunk; [|done].
  intros c. by apply HQ.
Qed.

Lemma processPackage_chunk pkg st (Q : ChromaDocument -> Prop) :
  (∀ info files file content decl c,
     TypesInfo pkg = Some info → Syntax pkg = Some files → file ∈ files →
     ReadFile (filePath file) = Some content → decl ∈ Decls file →
     functionChunk oracle (filePath file) content info decl c → Q c) →
  Forall Q (chunks st) →
  ∃ st', processPackage Fprint ReadFile oracle st pkg = Some st'
         ∧ Forall Q (chunks st').
Proof.
  intros HQ Hst. unfold processPackage.
  destruct (TypesInfo pkg) as [info|] eqn:Hinfo; [|by eexists].
  destruct (Syntax pkg) as [files|] eqn:Hfiles; [|by eexists].
  destruct (hasFset pkg); [|by eexists].
  apply (forEach_invariant (fun st => Forall Q (chunks st))); [|done].
  intros st1 file Hfile H1. apply processFile_chunk; [|done].
  intros content decl c. by apply (HQ info files file).
Qed.

Lemma reportErrors_keeps_chunks pkgs st :
  chunks (reportErrors pkgs st) = chunks st.
Proof.
  unfold reportErrors.
  assert (∀ pkgs st,
    chunks (fold_left (fun st pkg =>
              fold_left (fun st e =>
                           logPrintf (General (LogPackageError (pkgID pkg) e)) st)
                        (Errors pkg) st) pkgs st) = chunks st) as Hfold.
  { clear. induction pkgs as [|pkg pkgs IH]; intros st; [done|].
    cbn [fold_left]. rewrite IH. generalize (Errors pkg). clear.
    intros errs. revert st. induction errs as [|e errs IH]; intros st; [done|].
    cbn [fold_left]. by rewrite IH. }
  case_bool_decide; cbn [logPrintf chunks]; apply Hfold.
Qed.

(** X16.  The run of [go_ast_parser.go] never panics on a loaded project, and
    each of its chunks is the single-pass rewrite of the span of a function
    declaration of a readable file of a usable package, that span being
    inside the file. *)
Theorem function_chunks_only projectPath pkgs :
  ∃ result log,
    processGoProject Fprint ReadFile oracle projectPath (inr pkgs)
    = Some (Succeeded result log)
    ∧ Forall (chunkOfProject ReadFile oracle pkgs) result.
Proof.
  unfold processGoProject.
  destruct (forEach_invariant
              (fun st => Forall (chunkOfProject ReadFile oracle pkgs) (chunks st))
              (processPackage Fprint ReadFile oracle) pkgs) with
    (st := reportErrors pkgs
             (logPrintf (General (LogFinishedLoading (length pkgs)))
                (logPrintf (General (LogLoading projectPath)) (mkState [] [] 0))))
    as (st' & Hrun & Hchunks).
  - intros st pkg Hpkg Hst. apply processPackage_chunk; [|done].
    intros info files file content decl c ??????.
    by exists pkg, info, files, file, content, decl.
  - by rewrite reportErrors_keeps_chunks.
  - rewrite Hrun. by exists (chunks st'), (logs st').
Qed.
End GoAstParserFacts.

(** ** The ids of the chunks *)


(** The two functions of [twoFuncs] get the same id from
    [go_ast_parser.go]. *)
Example same_line_function_ids :
  match GoAstParserLocator.processGoProject noPrinter
          (onlyFile "func A() {}; func B() {}") noAliases (lit ".")
          (inr [packageOf [twoFuncs]]) with
  | Some (GoAstParserLocator.Succeeded [c1; c2] _) =>
      Document c1 = lit "func A() {}" ∧ Document c2 = lit "func B() {}"
      ∧ ID c1 = lit "f.go:1-1" ∧ ID c2 = lit "f.go:1-1"
  | _ => False
  end.
Proof. by vm_compute. Qed.

